(** * Erdos-Straus solver and reverse-and-add core: a shallow embedding

    The C sources [fast_solver.c] and [fast_core.c] are embedded as Rocq
    functions over [Z].  Machine integers are integers with their
    wrap-around written out; undefined behaviour of the C program (division
    by zero, a write past the end of a buffer) is an explicit [Trap]
    outcome, and the one loop whose trip count is not bounded by its
    syntax (trial division) takes an iteration budget. *)

From Stdlib Require Import ZArith List Lia Bool Sorted Wf_Z Permutation.
Import ListNotations.
Local Open Scope Z_scope.

(** ** Machine integers *)

Module Machine.

Definition two64 : Z := 2 ^ 64.
Definition two128 : Z := 2 ^ 128.

(** Conversion to [u64] / [u128]: reduction modulo the width. *)
Definition u64 (z : Z) : Z := z mod two64.
Definition u128 (z : Z) : Z := z mod two128.

Definition is_u64 (z : Z) : Prop := 0 <= z < two64.
Definition is_u128 (z : Z) : Prop := 0 <= z < two128.

End Machine.
Import Machine.

(** ** Outcomes of a run *)

Inductive outcome (A : Type) : Type :=
| Ret (a : A)      (* the call returns [a] *)
| Trap             (* the call runs into undefined behaviour *)
| OutOfFuel.       (* the iteration budget of the model was too small *)

Arguments Ret {A} a.
Arguments Trap {A}.
Arguments OutOfFuel {A}.

Definition bind {A B : Type} (m : outcome A) (k : A -> outcome B) : outcome B :=
  match m with
  | Ret a => k a
  | Trap => Trap
  | OutOfFuel => OutOfFuel
  end.

Notation "'do' x <- m ; k" := (bind m (fun x => k))
  (at level 10, x name, m at level 100, k at level 200).

Definition returns {A : Type} (m : outcome A) : Prop := exists a, m = Ret a.

(** ** fast_solver.c *)

Module Solver.

Definition MAX_DIVS : Z := 16384.

(** [struct Solution]: each of a, b, c as a (lo, hi) pair of 64-bit words. *)
Record Solution : Type := mkSolution {
  a_lo : Z; a_hi : Z;
  b_lo : Z; b_hi : Z;
  c_lo : Z; c_hi : Z;
  found : Z
}.

(** [memset(&sol, 0, sizeof(sol))] *)
Definition sol_zero : Solution := mkSolution 0 0 0 0 0 0 0.

(** The 128-bit values a solution carries. *)
Definition sol_a (s : Solution) : Z := a_hi s * two64 + a_lo s.
Definition sol_b (s : Solution) : Z := b_hi s * two64 + b_lo s.
Definition sol_c (s : Solution) : Z := c_hi s * two64 + c_lo s.

(** [set_sol]: three compare-and-swap steps, then the split into words. *)
Definition set_sol (s : Solution) (a b c : Z) : Solution :=
  let '(a, b) := if b <? a then (b, a) else (a, b) in
  let '(b, c) := if c <? b then (c, b) else (b, c) in
  let '(a, b) := if b <? a then (b, a) else (a, b) in
  mkSolution (u64 a) (u64 (Z.shiftr a 64))
             (u64 b) (u64 (Z.shiftr b 64))
             (u64 c) (u64 (Z.shiftr c 64))
             1.

(** [verify128]: the four moduli and the check at one modulus. *)
Definition mods : list Z := [1000000007; 1000000009; 998244353; 999999937].

Definition verify_at (md n a b c : Z) : bool :=
  let an := u64 (a mod md) in
  let bn := u64 (b mod md) in
  let cn := u64 (c mod md) in
  let nn := n mod md in
  let lhs := u128 (4 * an) mod md in
  let lhs := u128 (lhs * bn) mod md in
  let lhs := u128 (lhs * cn) mod md in
  let bc := u128 (bn * cn) mod md in
  let ac := u128 (an * cn) mod md in
  let ab := u128 (an * bn) mod md in
  let sum := u128 (u128 (bc + ac) + ab) mod md in
  let rhs := u128 (nn * sum) mod md in
  u64 lhs =? u64 rhs.

Fixpoint verify_loop (ms : list Z) (n a b c : Z) : Z :=
  match ms with
  | [] => 1
  | md :: ms' => if verify_at md n a b c then verify_loop ms' n a b c else 0
  end.

Definition verify128 (n a b c : Z) : Z := verify_loop mods n a b c.

(** [get_divisors_p2x2]: the local [Factor] struct. *)
Record Factor : Type := mkFactor { prime : Z; exp : Z }.

(** The inner [while (temp % d == 0)] loop; it returns the reduced [temp]
    and the exponent counted. *)
Fixpoint strip (fuel : nat) (d temp e : Z) : outcome (Z * Z) :=
  match fuel with
  | O => OutOfFuel
  | S fuel' =>
      if d =? 0 then Trap
      else if temp mod d =? 0 then strip fuel' d (temp / d) (e + 1)
      else Ret (temp, e)
  end.

(** The trial-division [for] loop.  [d * d] is a 64-bit product; the
    number of factors found so far is the length of [factors]. *)
Fixpoint trial (fuel budget : nat) (d temp : Z) (factors : list Factor)
  : outcome (Z * list Factor) :=
  match fuel with
  | O => OutOfFuel
  | S fuel' =>
      if (u64 (d * d) <=? temp) && (Z.of_nat (length factors) <? 63) then
        if d =? 0 then Trap
        else if temp mod d =? 0 then
          do r <- strip budget d temp 0;
          trial fuel' budget (u64 (d + 1)) (fst r)
                (factors ++ [mkFactor d (snd r)])
        else trial fuel' budget (u64 (d + 1)) temp factors
      else Ret (temp, factors)
  end.

(** Lines 80-96: the factorization of [x]. *)
Definition factorize (fuel : nat) (x : Z) : outcome (list Factor) :=
  do r <- trial fuel fuel 2 x [];
  let '(temp, factors) := r in
  if (1 <? temp) && (Z.of_nat (length factors) <? 63)
  then Ret (factors ++ [mkFactor temp 1])
  else Ret factors.

(** Lines 98-115: exponents doubled, and the contribution of [p]. *)
Fixpoint merge_p (p : Z) (factors all_factors : list Factor) (p_found : bool)
  : list Factor * bool :=
  match factors with
  | [] => (all_factors, p_found)
  | f :: fs =>
      if prime f =? p
      then merge_p p fs (all_factors ++ [mkFactor (prime f) (2 * exp f + 2)]) true
      else merge_p p fs (all_factors ++ [mkFactor (prime f) (2 * exp f)]) p_found
  end.

Definition all_factors_of (p : Z) (factors : list Factor) : list Factor :=
  let '(all, p_found) := merge_p p factors [] false in
  if p_found then all else all ++ [mkFactor p 2].

(** Lines 117-129: the expansion.  The array prefix [divs[0..count)] is the
    list [divs]; [divs[count++] = v] appends. *)
Definition count_of (divs : list Z) : Z := Z.of_nat (length divs).

Fixpoint loop_j (rem j : nat) (pe : Z) (divs : list Z) : list Z :=
  match rem with
  | O => divs
  | S rem' =>
      if count_of divs <? MAX_DIVS
      then loop_j rem' (S j) pe (divs ++ [u64 (nth j divs 0 * pe)])
      else divs
  end.

Fixpoint loop_e (rem prev_count : nat) (pr pe : Z) (divs : list Z) : list Z :=
  match rem with
  | O => divs
  | S rem' =>
      if count_of divs <? MAX_DIVS
      then let pe' := u64 (pe * pr) in
           loop_e rem' prev_count pr pe' (loop_j prev_count 0 pe' divs)
      else divs
  end.

Fixpoint loop_i (all_factors : list Factor) (divs : list Z) : list Z :=
  match all_factors with
  | [] => divs
  | f :: fs =>
      if count_of divs <? MAX_DIVS
      then loop_i fs (loop_e (Z.to_nat (exp f)) (length divs) (prime f) 1 divs)
      else divs
  end.

(** [get_divisors_p2x2 p x divs]: the entries written, in order; the
    returned count is their number. *)
Definition get_divisors_p2x2 (fuel : nat) (p x : Z) : outcome (list Z) :=
  do factors <- factorize fuel x;
  Ret (loop_i (all_factors_of p factors) [1]).

(** The loop over the divisors (lines 181-201) for one [x].  It yields
    [Some sol] when a candidate is accepted and [None] when the divisors
    are exhausted.  [D / d1] with [d1 = 0] is a division by zero. *)
Fixpoint try_divs (ds : list Z) (n x A A64 nx D target_mod : Z) (sol : Solution)
  : outcome (option Solution) :=
  match ds with
  | [] => Ret None
  | d1 :: ds' =>
      if nx <? d1 then try_divs ds' n x A A64 nx D target_mod sol
      else if negb (d1 mod A64 =? target_mod)
      then try_divs ds' n x A A64 nx D target_mod sol
      else if d1 =? 0 then Trap
      else
        let d2 := D / d1 in
        if negb (u128 (d2 + nx) mod A =? 0)
        then try_divs ds' n x A A64 nx D target_mod sol
        else
          let y := u128 (d1 + nx) / A in
          let z := u128 (d2 + nx) / A in
          if y <? x then try_divs ds' n x A A64 nx D target_mod sol
          else
            let '(y, z) := if z <? y then (z, y) else (y, z) in
            if y <? x then try_divs ds' n x A A64 nx D target_mod sol
            else if negb (verify128 n x y z =? 0)
            then Ret (Some (set_sol sol x y z))
            else try_divs ds' n x A A64 nx D target_mod sol
  end.

(** [A = (u128)4 * x - n] and its truncation [A64 = (u64)A]. *)
Definition A_of (n x : Z) : Z := u128 (u128 (4 * x) - n).
Definition A64_of (n x : Z) : Z := u64 (A_of n x).

(** One iteration of the loop over [x] (lines 170-201). *)
Definition try_x (fuel : nat) (n x : Z) (sol : Solution)
  : outcome (option Solution) :=
  let A := A_of n x in
  if A =? 0 then Ret None
  else
    let nx := u128 (n * x) in
    let D := u128 (nx * nx) in
    do divs <- get_divisors_p2x2 fuel n x;
    let A64 := A64_of n x in
    if A64 =? 0 then Trap
    else
      let target_mod := u64 (u64 (A64 - u64 (nx mod A)) mod A64) in
      try_divs divs n x A A64 nx D target_mod sol.

(** The loop [for (x = x_min; x <= x_max; x++)]; [steps] bounds the number
    of iterations left, which is [x_max - x + 1] at every entry. *)
Fixpoint search (steps : nat) (fuel : nat) (n x x_max : Z) (sol : Solution)
  : outcome Solution :=
  match steps with
  | O => Ret sol
  | S steps' =>
      if x <=? x_max then
        do r <- try_x fuel n x sol;
        match r with
        | Some s => Ret s
        | None => search steps' fuel n (u64 (x + 1)) x_max sol
        end
      else Ret sol
  end.

Definition x_min_of (n : Z) : Z := u64 (n + 3) / 4.
Definition x_max_of (n : Z) : Z := u64 (x_min_of n + 50000).

(** [solve_erdos_straus].  [mem_ok] says whether the [malloc] of the
    scratch buffer (line 166) finds memory; when it does not, the zeroed
    struct is returned. *)
Definition solve_erdos_straus (mem_ok : bool) (fuel : nat) (n : Z)
  : outcome Solution :=
  let sol := sol_zero in
  if n <=? 1 then Ret sol
  else if n =? 2 then Ret (set_sol sol 1 2 2)
  else if n =? 3 then Ret (set_sol sol 1 4 12)
  else if n =? 4 then Ret (set_sol sol 2 4 4)
  else if n =? 5 then Ret (set_sol sol 2 4 20)
  else if n mod 2 =? 0 then
    let m := n / 2 in
    Ret (set_sol sol m (u128 (2 * m)) (u128 (2 * m)))
  else if n mod 4 =? 3 then
    let q := u64 (n + 1) / 4 in
    let m := u128 (n * q) in
    Ret (set_sol sol q (u128 (2 * m)) (u128 (2 * m)))
  else
    let x_min := x_min_of n in
    let x_max := x_max_of n in
    if negb mem_ok then Ret sol
    else search (Z.to_nat (x_max - x_min + 1)) fuel n x_min x_max sol.

End Solver.

(** ** Arrays in caller-provided memory *)

Module Mem.

(** [store l i v] is the write [l[i] = v]; outside the array it is
    undefined behaviour. *)
Fixpoint upd (l : list Z) (i : nat) (v : Z) : list Z :=
  match l, i with
  | [], _ => []
  | _ :: t, O => v :: t
  | h :: t, S i' => h :: upd t i' v
  end.

Definition store (l : list Z) (i : nat) (v : Z) : outcome (list Z) :=
  if (i <? length l)%nat then Ret (upd l i v) else Trap.

Definition load (l : list Z) (i : nat) : outcome Z :=
  match nth_error l i with
  | Some v => Ret v
  | None => Trap
  end.

End Mem.

Module Batch.
Import Solver Mem.

(** The seven output arrays of [solve_batch]. *)
Record Outputs : Type := mkOutputs {
  o_a_lo : list Z; o_a_hi : list Z;
  o_b_lo : list Z; o_b_hi : list Z;
  o_c_lo : list Z; o_c_hi : list Z;
  o_found : list Z
}.

(** The body of the loop for index [i].  Each call of the solver makes
    its own allocation: [mem_ok i] says whether the one of call [i] finds
    memory. *)
Definition batch_step (mem_ok : nat -> bool) (fuel : nat) (primes : list Z)
  (i : nat) (out : Outputs) : outcome Outputs :=
  do n <- load primes i;
  do s <- solve_erdos_straus (mem_ok i) fuel n;
  do al <- store (o_a_lo out) i (a_lo s);
  do ah <- store (o_a_hi out) i (a_hi s);
  do bl <- store (o_b_lo out) i (b_lo s);
  do bh <- store (o_b_hi out) i (b_hi s);
  do cl <- store (o_c_lo out) i (c_lo s);
  do ch <- store (o_c_hi out) i (c_hi s);
  do fo <- store (o_found out) i (found s);
  Ret (mkOutputs al ah bl bh cl ch fo).

Fixpoint batch_loop (rem : nat) (mem_ok : nat -> bool) (fuel : nat)
  (primes : list Z) (i : nat) (out : Outputs) : outcome Outputs :=
  match rem with
  | O => Ret out
  | S rem' =>
      do out' <- batch_step mem_ok fuel primes i out;
      batch_loop rem' mem_ok fuel primes (S i) out'
  end.

(** [solve_batch primes count a_lo ... found] *)
Definition solve_batch (mem_ok : nat -> bool) (fuel : nat) (primes : list Z)
  (count : Z) (out : Outputs) : outcome Outputs :=
  batch_loop (Z.to_nat count) mem_ok fuel primes 0 out.

(** The seven arrays of the outputs, the seven fields of a solution in the
    same order, and what the arrays hold at index [i]. *)
Definition arrays (out : Outputs) : list (list Z) :=
  [o_a_lo out; o_a_hi out; o_b_lo out; o_b_hi out; o_c_lo out; o_c_hi out;
   o_found out].

Definition fields (s : Solution) : list Z :=
  [a_lo s; a_hi s; b_lo s; b_hi s; c_lo s; c_hi s; found s].

Definition slot (out : Outputs) (i : nat) : list (option Z) :=
  map (fun arr => nth_error arr i) (arrays out).

(** Every output array has room for [k] entries. *)
Definition room (k : nat) (out : Outputs) : Prop :=
  Forall (fun arr => (k <= length arr)%nat) (arrays out).

End Batch.

(** ** fast_core.c *)

Module Core.
Import Mem.

Definition MAX_DIGITS : Z := 4096.
Definition INT_MAX : Z := 2147483647.

(** A buffer [unsigned char d[MAX_DIGITS]]. *)
Definition buffer : list Z := repeat 0 (Z.to_nat MAX_DIGITS).

(** [is_palindrome d len]: the two indices walk towards each other; the
    loop runs at most [len] times. *)
Fixpoint pal_loop (k : nat) (d : list Z) (i j : Z) : Z :=
  match k with
  | O => 1
  | S k' =>
      if i <? j then
        if negb (nth (Z.to_nat i) d 0 =? nth (Z.to_nat j) d 0) then 0
        else pal_loop k' d (i + 1) (j - 1)
      else 1
  end.

Definition is_palindrome (d : list Z) (len : Z) : Z :=
  pal_loop (Z.to_nat len) d 0 (len - 1).

(** The addition loop of [add_reverse], for [i = k - 1] down to [0]. *)
Fixpoint add_loop (k : nat) (d : list Z) (len : Z) (carry : Z) (result : list Z)
  : outcome (Z * list Z) :=
  match k with
  | O => Ret (carry, result)
  | S i =>
      let j := len - 1 - Z.of_nat i in
      let sum := nth i d 0 + nth (Z.to_nat j) d 0 + carry in
      do result' <- store result (S i) (sum mod 10);
      add_loop i d len (sum / 10) result'
  end.

(** [memmove(result, result + 1, len)] *)
Definition shift_left (result : list Z) (len : nat) : list Z :=
  firstn len (skipn 1 result) ++ skipn len result.

(** [add_reverse d len result]: the new length and the new [result]. *)
Definition add_reverse (d : list Z) (len : Z) (result : list Z)
  : outcome (Z * list Z) :=
  do r <- add_loop (Z.to_nat len) d len 0 result;
  let '(carry, result) := r in
  if negb (carry =? 0) then
    do result' <- store result 0 carry;
    Ret (len + 1, result')
  else Ret (len, shift_left result (Z.to_nat len)).

(** The string-to-digit conversion, one [unsigned char] per character. *)
Fixpoint fill (s : list Z) (i : nat) (d1 : list Z) : outcome (list Z) :=
  match s with
  | [] => Ret d1
  | ch :: s' =>
      do d1' <- store d1 i ((ch - 48) mod 256);
      fill s' (S i) d1'
  end.

(** The main loop; [iter] is an [int] and [iter++] past [INT_MAX] is
    undefined. *)
Fixpoint iterate (rem : nat) (iter max_iter len : Z) (cur next : list Z)
  : outcome Z :=
  match rem with
  | O => Ret (-1)
  | S rem' =>
      if iter <=? max_iter then
        do r <- add_reverse cur len next;
        let '(len', next') := r in
        if negb (is_palindrome next' len' =? 0) then Ret iter
        else if iter =? INT_MAX then Trap
        else iterate rem' (iter + 1) max_iter len' next' cur
      else Ret (-1)
  end.

(** [reverse_and_add_count num_str max_iter NULL 0]: the value returned.
    [num_str] is the string's characters, without the terminator.  [len]
    is the value of [strlen] as the [int] holds it when it fits, that is
    for strings of at most INT_MAX characters; the narrowing of a larger
    value is not modelled. *)
Definition reverse_and_add_count (num_str : list Z) (max_iter : Z) : outcome Z :=
  let len := Z.of_nat (length num_str) in
  if MAX_DIGITS <=? len then Ret (-2)
  else
    do d1 <- fill num_str 0 buffer;
    iterate (Z.to_nat max_iter) 1 max_iter len d1 buffer.

Definition digits_of (ds : list Z) : list Z := map (fun d => d + 48) ds.

End Core.

(** ** fast_core.c: the dynamically allocated variant *)

Module CoreLarge.
Import Mem Core.

Definition INT_MIN : Z := -2147483648.

(** An [int] sum; outside the range of [int] it is undefined. *)
Definition int_add (a b : Z) : outcome Z :=
  let r := a + b in
  if (INT_MIN <=? r) && (r <=? INT_MAX) then Ret r else Trap.

(** [reverse_and_add_count_large num_str max_iter NULL 0]: the value
    returned.  [mem_ok] says whether both [malloc] calls found memory; a
    negative [max_len] is a request of more than half the address space,
    which no [malloc] grants.  The loop body is that of
    [reverse_and_add_count], and leaving it by [break] with
    [result = iter] returns what [return iter] returns there. *)
Definition reverse_and_add_count_large (mem_ok : bool) (num_str : list Z)
  (max_iter : Z) : outcome Z :=
  let initial_len := Z.of_nat (length num_str) in
  do t <- int_add initial_len max_iter;
  do max_len <- int_add t 10;
  let max_len := if 1000000 <? max_len then 1000000 else max_len in
  if negb (mem_ok && (0 <=? max_len)) then Ret (-2)
  else
    let d1 := repeat 0 (Z.to_nat max_len) in
    let d2 := repeat 0 (Z.to_nat max_len) in
    do d1 <- fill num_str 0 d1;
    iterate (Z.to_nat max_iter) 1 max_iter initial_len d1 d2.

End CoreLarge.

(** ** fast_core.c: the calls that pass a result buffer *)

Module CoreOut.
Import Mem Core CoreLarge.

(** The loop [result_buf[i] = next[i] + '0'] for [i] up to [copy_len];
    the byte stored is the sum reduced to eight bits. *)
Fixpoint copy_loop (k i : nat) (next result_buf : list Z) : outcome (list Z) :=
  match k with
  | O => Ret result_buf
  | S k' =>
      do v <- load next i;
      do result_buf' <- store result_buf i ((v + 48) mod 256);
      copy_loop k' (S i) next result_buf'
  end.

(** Lines 77-83 and 124-130: the copy of the palindrome and its
    terminator.  [result_buf] is [None] for a null pointer. *)
Definition write_result (next : list Z) (len : Z) (result_buf : option (list Z))
  (result_buf_size : Z) : outcome (option (list Z)) :=
  match result_buf with
  | Some buf =>
      if 0 <? result_buf_size then
        let copy_len :=
          if len <? result_buf_size - 1 then len else result_buf_size - 1 in
        do buf' <- copy_loop (Z.to_nat copy_len) 0 next buf;
        do buf'' <- store buf' (Z.to_nat copy_len) 0;
        Ret (Some buf'')
      else Ret (Some buf)
  | None => Ret None
  end.

(** The main loop, with the result buffer. *)
Fixpoint iterate (rem : nat) (iter max_iter len : Z) (cur next : list Z)
  (result_buf : option (list Z)) (result_buf_size : Z)
  : outcome (Z * option (list Z)) :=
  match rem with
  | O => Ret (-1, result_buf)
  | S rem' =>
      if iter <=? max_iter then
        do r <- add_reverse cur len next;
        let '(len', next') := r in
        if negb (is_palindrome next' len' =? 0) then
          do result_buf' <- write_result next' len' result_buf result_buf_size;
          Ret (iter, result_buf')
        else if iter =? INT_MAX then Trap
        else iterate rem' (iter + 1) max_iter len' next' cur result_buf result_buf_size
      else Ret (-1, result_buf)
  end.

(** [reverse_and_add_count num_str max_iter result_buf result_buf_size]:
    the value returned and the result buffer afterwards. *)
Definition reverse_and_add_count (num_str : list Z) (max_iter : Z)
  (result_buf : option (list Z)) (result_buf_size : Z)
  : outcome (Z * option (list Z)) :=
  let len := Z.of_nat (length num_str) in
  if MAX_DIGITS <=? len then Ret (-2, result_buf)
  else
    do d1 <- fill num_str 0 buffer;
    iterate (Z.to_nat max_iter) 1 max_iter len d1 buffer result_buf result_buf_size.

(** [reverse_and_add_count_large], likewise. *)
Definition reverse_and_add_count_large (mem_ok : bool) (num_str : list Z)
  (max_iter : Z) (result_buf : option (list Z)) (result_buf_size : Z)
  : outcome (Z * option (list Z)) :=
  let initial_len := Z.of_nat (length num_str) in
  do t <- int_add initial_len max_iter;
  do max_len <- int_add t 10;
  let max_len := if 1000000 <? max_len then 1000000 else max_len in
  if negb (mem_ok && (0 <=? max_len)) then Ret (-2, result_buf)
  else
    let d1 := repeat 0 (Z.to_nat max_len) in
    let d2 := repeat 0 (Z.to_nat max_len) in
    do d1 <- fill num_str 0 d1;
    iterate (Z.to_nat max_iter) 1 max_iter initial_len d1 d2 result_buf result_buf_size.

End CoreOut.

(** ** bench_c.c *)

Module Bench.

(** The loop [for (u64 i = 5; i * i <= n; i += 6)] of [is_prime]; [||]
    evaluates [n % (i+2)] only when [n % i] is not 0. *)
Fixpoint prime_loop (fuel : nat) (i n : Z) : outcome Z :=
  match fuel with
  | O => OutOfFuel
  | S fuel' =>
      if u64 (i * i) <=? n then
        if i =? 0 then Trap
        else if n mod i =? 0 then Ret 0
        else if u64 (i + 2) =? 0 then Trap
        else if n mod u64 (i + 2) =? 0 then Ret 0
        else prime_loop fuel' (u64 (i + 6)) n
      else Ret 1
  end.

(** [is_prime n] *)
Definition is_prime (fuel : nat) (n : Z) : outcome Z :=
  if n <? 2 then Ret 0
  else if n <? 4 then Ret 1
  else if (n mod 2 =? 0) || (n mod 3 =? 0) then Ret 0
  else prime_loop fuel 5 n.

End Bench.

(** ** Specification-level notions *)

Module Spec.
Import Solver.

(** The number a factor list stands for. *)
Definition fprod (fs : list Factor) : Z :=
  fold_right (fun f acc => prime f ^ exp f * acc) 1 fs.

(** A complete prime factorization of [x]: primes, in increasing order,
    with positive exponents, whose powers multiply to [x]. *)
Definition factorization_of (x : Z) (fs : list Factor) : Prop :=
  Forall (fun f => Z.prime (prime f) /\ 1 <= exp f) fs /\
  Sorted.StronglySorted Z.lt (map prime fs) /\
  fprod fs = x.

(** The positive divisors of [N], and how many there are. *)
Definition is_divisor (N d : Z) : Prop := 0 < d /\ (d | N).

Definition divisors_upto (N : Z) : list Z :=
  filter (fun d => N mod d =? 0) (map Z.of_nat (seq 1 (Z.to_nat N))).

Definition count_divisors (N : Z) : Z := Z.of_nat (length (divisors_upto N)).

End Spec.

(** * Properties *)

Import Solver.

Section Wrap.

Lemma u64_small z : 0 <= z < two64 -> u64 z = z.
Proof. intros H. unfold u64. now apply Z.mod_small. Qed.

Lemma u128_small z : 0 <= z < two128 -> u128 z = z.
Proof. intros H. unfold u128. now apply Z.mod_small. Qed.

Lemma u64_range z : 0 <= u64 z < two64.
Proof. unfold u64. apply Z.mod_pos_bound. reflexivity. Qed.

Lemma u128_range z : 0 <= u128 z < two128.
Proof. unfold u128. apply Z.mod_pos_bound. reflexivity. Qed.

Lemma two64_eq : two64 = 18446744073709551616.
Proof. reflexivity. Qed.

Lemma two128_eq : two128 = 340282366920938463463374607431768211456.
Proof. reflexivity. Qed.

End Wrap.

(** ** The modular verifier *)

Section Verifier.

Variable md : Z.
Hypothesis md_lo : 1 < md.
Hypothesis md_hi : md < 2 ^ 31.

Let res_bound z : 0 <= z mod md < 2 ^ 31.
Proof. pose proof (Z.mod_pos_bound z md). lia. Qed.

Lemma prod_u128 x y : 0 <= x < 2 ^ 31 -> 0 <= y < 2 ^ 31 -> u128 (x * y) = x * y.
Proof.
  intros Hx Hy. apply u128_small. rewrite two128_eq.
  change (2 ^ 31) with 2147483648 in *. nia.
Qed.

(** The check at one modulus decides the congruence at that modulus. *)
Lemma verify_at_spec n a b c :
  verify_at md n a b c = true <->
  (4 * a * b * c) mod md = (n * (a * b + b * c + a * c)) mod md.
Proof.
  unfold verify_at.
  assert (Hs : forall z, u64 (z mod md) = z mod md).
  { intros z. apply u64_small. pose proof (res_bound z). rewrite two64_eq.
    change (2 ^ 31) with 2147483648 in *. lia. }
  rewrite !Hs.
  assert (H4 : 0 <= 4 < 2 ^ 31) by (change (2 ^ 31) with 2147483648; lia).
  rewrite !prod_u128 by (auto using res_bound).
  assert (Hadd : forall x y, u128 (x mod md + y mod md) = x mod md + y mod md).
  { intros x y. apply u128_small. pose proof (res_bound x). pose proof (res_bound y).
    rewrite two128_eq. change (2 ^ 31) with 2147483648 in *. lia. }
  rewrite Hadd.
  assert (Hadd3 : forall x y z,
             u128 (x mod md + y mod md + z mod md) = x mod md + y mod md + z mod md).
  { intros x y z. apply u128_small. pose proof (res_bound x). pose proof (res_bound y).
    pose proof (res_bound z). rewrite two128_eq. change (2 ^ 31) with 2147483648 in *. lia. }
  rewrite Hadd3. rewrite ?Hs.
  rewrite Z.eqb_eq.
  assert (L : ((4 * (a mod md)) mod md * (b mod md)) mod md * (c mod md)
              mod md = (4 * a * b * c) mod md).
  { rewrite Z.mul_mod_idemp_l by lia.
    rewrite Z.mul_mod_idemp_r by lia.
    rewrite Z.mul_shuffle0, Z.mul_mod_idemp_r by lia.
    rewrite <- Z.mul_assoc, Z.mul_mod_idemp_l by lia.
    replace (4 * (a mod md) * (c * b)) with (4 * c * b * (a mod md)) by ring.
    rewrite Z.mul_mod_idemp_r by lia.
    f_equal. ring. }
  assert (R : (n mod md *
               ((((b mod md * (c mod md)) mod md + (a mod md * (c mod md)) mod md
                  + (a mod md * (b mod md)) mod md)) mod md)) mod md
              = (n * (a * b + b * c + a * c)) mod md).
  { assert (S : ((b mod md * (c mod md)) mod md + (a mod md * (c mod md)) mod md
                 + (a mod md * (b mod md)) mod md) mod md
                = (a * b + b * c + a * c) mod md).
    { rewrite <- !Z.mul_mod by lia.
      rewrite Z.add_mod_idemp_r by lia.
      rewrite Z.add_shuffle0, Z.add_mod_idemp_r by lia.
      rewrite <- Z.add_assoc, Z.add_mod_idemp_l by lia.
      f_equal. ring. }
    rewrite S. rewrite <- Z.mul_mod by lia. reflexivity. }
  rewrite L, R. reflexivity.
Qed.

End Verifier.

(** C6: [verify128] passes exactly when the identity
    4abc = n(ab + bc + ac) holds modulo each of the four fixed primes, and
    it rejects (returns 0) as soon as one modulus disagrees. *)
Theorem verify128_iff_all_moduli n a b c :
  mods = [1000000007; 1000000009; 998244353; 999999937] /\
  (verify128 n a b c = 1 <->
   Forall (fun p => (4 * a * b * c) mod p = (n * (a * b + b * c + a * c)) mod p) mods) /\
  (verify128 n a b c = 0 <->
   Exists (fun p => (4 * a * b * c) mod p <> (n * (a * b + b * c + a * c)) mod p) mods).
Proof.
  split; [reflexivity|].
  assert (Hm : Forall (fun p => 1 < p < 2 ^ 31) mods).
  { unfold mods. change (2 ^ 31) with 2147483648. repeat constructor; lia. }
  unfold verify128. induction mods as [|p ps IH]; simpl.
  - split; split; intros H; try constructor; try discriminate. inversion H.
  - inversion Hm as [|? ? [Hlo Hhi] Hps]; subst. specialize (IH Hps).
    destruct IH as [IH1 IH0].
    pose proof (verify_at_spec p Hlo Hhi n a b c) as Hat.
    destruct (verify_at p n a b c).
    + split; split; intros H.
      * constructor; [now apply Hat | now apply IH1].
      * inversion H; subst. now apply IH1.
      * apply Exists_cons_tl. now apply IH0.
      * inversion H as [? ? Hne|? ? Hex]; subst.
        { exfalso. apply Hne. now apply Hat. }
        { now apply IH0. }
    + split; split; intros H; try discriminate; try reflexivity.
      * inversion H as [|? ? Heq _]; subst. apply Hat in Heq. discriminate.
      * apply Exists_cons_hd. intros Heq. apply Hat in Heq. discriminate.
Qed.

(** ** The iteration budget is monotone

    An outcome other than [OutOfFuel] does not depend on the budget: a
    larger budget gives the same outcome. *)

Section FuelMonotone.

Definition settled {A : Type} (r : outcome A) : Prop := r <> OutOfFuel.

Lemma settled_bind {A B : Type} (m : outcome A) (k : A -> outcome B) :
  settled (bind m k) -> settled m.
Proof. unfold settled. destruct m; simpl; intros H; congruence. Qed.

Lemma strip_mono f f' d temp e :
  (f <= f')%nat -> settled (strip f d temp e) -> strip f' d temp e = strip f d temp e.
Proof.
  revert f' temp e. induction f as [|f IH]; intros f' temp e Hle Hs.
  - exfalso. now apply Hs.
  - destruct f' as [|f']; [lia|]. simpl in *.
    destruct (d =? 0); [reflexivity|].
    destruct (temp mod d =? 0); [|reflexivity].
    apply IH; [lia|assumption].
Qed.

Lemma trial_mono f : forall f' b b' d temp fs,
  (f <= f')%nat -> (b <= b')%nat -> settled (trial f b d temp fs) ->
  trial f' b' d temp fs = trial f b d temp fs.
Proof.
  induction f as [|f IH]; intros f' b b' d temp fs Hf Hb Hs.
  - exfalso. now apply Hs.
  - destruct f' as [|f']; [lia|]. simpl in *.
    destruct ((u64 (d * d) <=? temp) && (Z.of_nat (length fs) <? 63)); [|reflexivity].
    destruct (d =? 0); [reflexivity|].
    destruct (temp mod d =? 0).
    + pose proof (settled_bind _ _ Hs) as Hs1.
      rewrite (strip_mono b b' d temp 0 Hb Hs1).
      destruct (strip b d temp 0) as [r| |]; simpl in *; try reflexivity.
      apply IH; [lia|assumption|assumption].
    + apply IH; [lia|assumption|assumption].
Qed.

Lemma factorize_mono f f' x :
  (f <= f')%nat -> settled (factorize f x) -> factorize f' x = factorize f x.
Proof.
  intros Hle Hs. unfold factorize in *.
  rewrite (trial_mono f f' f f' 2 x [] Hle Hle (settled_bind _ _ Hs)). reflexivity.
Qed.

Lemma get_divisors_mono f f' p x :
  (f <= f')%nat -> settled (get_divisors_p2x2 f p x) ->
  get_divisors_p2x2 f' p x = get_divisors_p2x2 f p x.
Proof.
  intros Hle Hs. unfold get_divisors_p2x2 in *.
  rewrite (factorize_mono f f' x Hle (settled_bind _ _ Hs)). reflexivity.
Qed.

Lemma try_x_mono f f' n x sol :
  (f <= f')%nat -> settled (try_x f n x sol) -> try_x f' n x sol = try_x f n x sol.
Proof.
  intros Hle Hs. unfold try_x in *.
  destruct (A_of n x =? 0); [reflexivity|].
  rewrite (get_divisors_mono f f' n x Hle (settled_bind _ _ Hs)). reflexivity.
Qed.

Lemma search_mono steps : forall f f' n x x_max sol,
  (f <= f')%nat -> settled (search steps f n x x_max sol) ->
  search steps f' n x x_max sol = search steps f n x x_max sol.
Proof.
  induction steps as [|steps IH]; intros f f' n x x_max sol Hle Hs; [reflexivity|].
  simpl in *. destruct (x <=? x_max); [|reflexivity].
  rewrite (try_x_mono f f' n x sol Hle (settled_bind _ _ Hs)).
  destruct (try_x f n x sol) as [[s|]| |]; simpl in *; try reflexivity.
  now apply IH.
Qed.

Lemma solve_mono mem_ok f f' n :
  (f <= f')%nat -> settled (solve_erdos_straus mem_ok f n) ->
  solve_erdos_straus mem_ok f' n = solve_erdos_straus mem_ok f n.
Proof.
  intros Hle Hs. unfold solve_erdos_straus in *.
  repeat match goal with |- context [if ?c then _ else _] =>
    destruct c; [reflexivity|] end.
  now apply search_mono.
Qed.

End FuelMonotone.

(** ** What [set_sol] stores *)

Section SetSol.

Lemma words_join a : 0 <= a < two128 ->
  u64 (Z.shiftr a 64) * two64 + u64 a = a.
Proof.
  intros Ha. rewrite Z.shiftr_div_pow2 by lia. fold two64.
  assert (H64 : 0 < two64) by reflexivity.
  rewrite (u64_small (a / two64)).
  - unfold u64. pose proof (Z.div_mod a two64). lia.
  - split; [apply Z.div_pos; lia|].
    apply Z.div_lt_upper_bound; [lia|]. rewrite two128_eq, two64_eq in *. lia.
Qed.

(** On an ordered triple [set_sol] stores the triple as it is. *)
Lemma set_sol_ordered s a b c :
  0 <= a -> a <= b -> b <= c -> c < two128 ->
  let s' := set_sol s a b c in
  sol_a s' = a /\ sol_b s' = b /\ sol_c s' = c /\ found s' = 1.
Proof.
  intros H0 Hab Hbc Hc. unfold set_sol.
  assert (E1 : (b <? a) = false) by (apply Z.ltb_ge; lia).
  assert (E2 : (c <? b) = false) by (apply Z.ltb_ge; lia).
  rewrite E1, E2, E1. unfold sol_a, sol_b, sol_c.
  cbn [a_lo a_hi b_lo b_hi c_lo c_hi found].
  rewrite !words_join by lia. auto.
Qed.

(** In general the stored triple is ordered. *)
Lemma set_sol_sorted s a b c :
  0 <= a < two128 -> 0 <= b < two128 -> 0 <= c < two128 ->
  let s' := set_sol s a b c in
  sol_a s' <= sol_b s' <= sol_c s' /\ found s' = 1 /\
  Z.min a (Z.min b c) = sol_a s' /\ Z.max a (Z.max b c) = sol_c s' /\
  sol_a s' + sol_b s' + sol_c s' = a + b + c.
Proof.
  intros Ha Hb Hc. unfold set_sol.
  destruct (b <? a) eqn:E1; [apply Z.ltb_lt in E1|apply Z.ltb_ge in E1];
  destruct (c <? _) eqn:E2; [apply Z.ltb_lt in E2|apply Z.ltb_ge in E2
                            |apply Z.ltb_lt in E2|apply Z.ltb_ge in E2];
  destruct (_ <? _) eqn:E3; [apply Z.ltb_lt in E3|apply Z.ltb_ge in E3
                            |apply Z.ltb_lt in E3|apply Z.ltb_ge in E3
                            |apply Z.ltb_lt in E3|apply Z.ltb_ge in E3
                            |apply Z.ltb_lt in E3|apply Z.ltb_ge in E3];
  unfold sol_a, sol_b, sol_c; cbn [a_lo a_hi b_lo b_hi c_lo c_hi found];
  rewrite !words_join by lia; lia.
Qed.

End SetSol.

(** ** The search window *)

(** C7: for n = 1 (mod 4), n >= 9, and x in the search window (the one the
    code computes, or [(n+3)/4, (n+3)/4 + 50000]), the value A = 4x - n is
    at least 3; so the [A == 0] test never skips, and [% A] and [% A64]
    divide by a nonzero value. *)
Theorem window_A_at_least_3 n x :
  9 <= n < two64 -> n mod 4 = 1 ->
  (x_min_of n <= x <= x_max_of n \/ (n + 3) / 4 <= x <= (n + 3) / 4 + 50000) ->
  3 <= A_of n x /\ (A_of n x =? 0) = false /\ A64_of n x <> 0 /\
  ((n + 3) / 4 <= x -> A_of n x = 4 * x - n /\ A64_of n x = 4 * x - n).
Proof.
  intros Hn Hmod Hx. rewrite two64_eq in Hn.
  assert (Hx' : (n + 3) / 4 <= x <= (n + 3) / 4 + 50000 \/
                (n = two64 - 3 /\ 0 <= x <= 50000)).
  { destruct Hx as [Hx|Hx]; [|now left].
    unfold x_max_of, x_min_of, u64 in Hx. rewrite two64_eq in *.
    destruct (Z_lt_dec (n + 3) 18446744073709551616) as [Hlt|Hge].
    - left. rewrite (Z.mod_small (n + 3)) in Hx by lia.
      rewrite (Z.mod_small ((n + 3) / 4 + 50000)) in Hx; [exact Hx|].
      Z.div_mod_to_equations. lia.
    - right. assert (n = 18446744073709551613) by (Z.div_mod_to_equations; lia).
      subst n. split; [reflexivity|]. vm_compute in Hx. exact Hx. }
  unfold A64_of, A_of, u128, u64. rewrite two128_eq, two64_eq in *.
  destruct Hx' as [Hw|[-> Hw]].
  - assert (Hq : 4 * ((n + 3) / 4) = n + 3) by (Z.div_mod_to_equations; lia).
    assert (HA : ((4 * x) mod 340282366920938463463374607431768211456 - n)
                 mod 340282366920938463463374607431768211456 = 4 * x - n).
    { rewrite (Z.mod_small (4 * x)) by lia. apply Z.mod_small. lia. }
    rewrite HA. rewrite (Z.mod_small (4 * x - n)) by lia.
    repeat split; try lia; try (apply Z.eqb_neq; lia).
  - assert (HA : ((4 * x) mod 340282366920938463463374607431768211456
                  - (18446744073709551616 - 3))
                 mod 340282366920938463463374607431768211456
                 = 340282366920938463463374607431768211456 + 4 * x
                   - (18446744073709551616 - 3)).
    { rewrite (Z.mod_small (4 * x)) by lia.
      rewrite <- (Z.mod_add _ 1) by lia.
      replace (4 * x - (18446744073709551616 - 3)
               + 1 * 340282366920938463463374607431768211456)
        with (340282366920938463463374607431768211456 + 4 * x
              - (18446744073709551616 - 3)) by lia.
      apply Z.mod_small. lia. }
    rewrite HA.
    assert (H64 : (340282366920938463463374607431768211456 + 4 * x
                   - (18446744073709551616 - 3)) mod 18446744073709551616 = 4 * x + 3).
    { replace (340282366920938463463374607431768211456 + 4 * x
               - (18446744073709551616 - 3))
        with (4 * x + 3 + 18446744073709551615 * 18446744073709551616) by lia.
      rewrite Z.mod_add by lia. apply Z.mod_small. lia. }
    rewrite H64.
    assert (Hno : ~ (18446744073709551616 - 3 + 3) / 4 <= x).
    { change ((18446744073709551616 - 3 + 3) / 4) with 4611686018427387904. lia. }
    repeat split; try lia; try (apply Z.eqb_neq; lia); intros; exfalso; tauto.
Qed.

Lemma window_A_at_least_3_witness :
  3 <= A_of 13 4 /\ (A_of 13 4 =? 0) = false /\ A64_of 13 4 <> 0 /\
  ((13 + 3) / 4 <= 4 -> A_of 13 4 = 4 * 4 - 13 /\ A64_of 13 4 = 4 * 4 - 13).
Proof.
  apply (window_A_at_least_3 13 4).
  - rewrite two64_eq. lia.
  - reflexivity.
  - left. vm_compute. split; discriminate.
Defined.

(** ** Runs at concrete inputs *)

(** C8: with its scratch buffer allocated, [solve_erdos_straus(13)]
    returns, with found set, the triple (4, 18, 468), and
    4abc = 13(ab + bc + ac) holds exactly for it. *)
Theorem solve_13_identity extra :
  exists s,
    solve_erdos_straus true (3 + extra) 13 = Ret s /\ found s = 1 /\
    (sol_a s, sol_b s, sol_c s) = (4, 18, 468) /\
    0 < sol_a s <= sol_b s /\ sol_b s <= sol_c s /\
    4 * sol_a s * sol_b s * sol_c s
    = 13 * (sol_a s * sol_b s + sol_b s * sol_c s + sol_a s * sol_c s).
Proof.
  exists (mkSolution 4 0 18 0 468 0 1). split.
  - rewrite (solve_mono true 3 (3 + extra) 13); [reflexivity|lia|].
    vm_compute. discriminate.
  - vm_compute. repeat split; congruence.
Qed.

(** C1 (fails in the code): at n = 2^64 - 1 the sum [n + 1] wraps to 0 in 64
    bits, and the call returns found = 1 with the triple (0, 0, 0), which is
    not positive.  The branch returns before the allocation. *)
Theorem solve_max_u64_found_zero mem_ok fuel :
  exists s,
    solve_erdos_straus mem_ok fuel (two64 - 1) = Ret s /\ found s = 1 /\
    sol_a s = 0 /\ sol_b s = 0 /\ sol_c s = 0 /\
    ~ (0 < sol_a s <= sol_b s /\ sol_b s <= sol_c s /\
       4 * sol_a s * sol_b s * sol_c s
       = (two64 - 1) * (sol_a s * sol_b s + sol_b s * sol_c s + sol_a s * sol_c s)).
Proof.
  exists (mkSolution 0 0 0 0 0 0 1).
  split; [reflexivity|]. do 4 (split; [reflexivity|]).
  intros [[H _] _]. vm_compute in H. discriminate H.
Qed.

(** C4 (fails in the code): n = 2^64 - 1 is 3 modulo 4 and at least 7, and
    the call returns found = 1, but the triple is (0, 0, 0) and not
    (q, 2nq, 2nq) for q = (n + 1) / 4 = 2^62.  The branch returns before
    the allocation. *)
Theorem solve_max_u64_not_closed_form mem_ok fuel :
  let n := two64 - 1 in
  let q := (n + 1) / 4 in
  n mod 4 = 3 /\ 7 <= n < two64 /\ q = 2 ^ 62 /\
  exists s,
    solve_erdos_straus mem_ok fuel n = Ret s /\ found s = 1 /\
    (sol_a s, sol_b s, sol_c s) = (0, 0, 0) /\
    (sol_a s, sol_b s, sol_c s) <> (q, 2 * n * q, 2 * n * q).
Proof.
  cbv zeta. split; [reflexivity|]. split; [rewrite two64_eq; lia|].
  split; [reflexivity|].
  exists (mkSolution 0 0 0 0 0 0 1).
  split; [reflexivity|]. split; [reflexivity|]. split; [reflexivity|].
  vm_compute. intros H. discriminate H.
Qed.

(** C3 (fails in the code): at n = 51539607549 = 3 (2^34 - 1), which is 1
    modulo 4, the first x of the window is 3 * 2^32; the enumerator's entry
    2^64 wraps to 0, passes both residue tests, and [D / d1] divides by
    zero: with its scratch buffer allocated, the call does not return. *)
Theorem solve_search_divides_by_zero extra :
  51539607549 mod 4 = 1 /\ 5 < 51539607549 < two64 /\
  x_min_of 51539607549 = 3 * 2 ^ 32 /\
  (exists divs, get_divisors_p2x2 (33 + extra) 51539607549 (3 * 2 ^ 32) = Ret divs /\
                nth 64 divs 1 = 0) /\
  solve_erdos_straus true (33 + extra) 51539607549 = Trap.
Proof.
  split; [reflexivity|]. split; [rewrite two64_eq; lia|]. split; [reflexivity|].
  assert (Hd : get_divisors_p2x2 (33 + extra) 51539607549 (3 * 2 ^ 32)
               = get_divisors_p2x2 33 51539607549 (3 * 2 ^ 32)).
  { apply get_divisors_mono; [lia|]. vm_compute. discriminate. }
  assert (Hs : solve_erdos_straus true (33 + extra) 51539607549
               = solve_erdos_straus true 33 51539607549).
  { apply solve_mono; [lia|]. vm_compute. discriminate. }
  split.
  - rewrite Hd.
    destruct (get_divisors_p2x2 33 51539607549 (3 * 2 ^ 32)) as [divs| |] eqn:E;
      try (vm_compute in E; discriminate E).
    exists divs. split; [reflexivity|].
    vm_compute in E. injection E as <-. reflexivity.
  - rewrite Hs. vm_compute. reflexivity.
Qed.

(** C10 (fails in the code): for the 4095-digit string 99...9 and a budget
    of two iterations, the first sum has 4096 digits and is no palindrome,
    and the second addition writes [result[4096]], past the end of the
    buffer: the call has no defined return value. *)
Theorem reverse_and_add_overruns_buffer :
  let s := Core.digits_of (repeat 9 4095) in
  Z.of_nat (length s) < Core.MAX_DIGITS /\
  Core.reverse_and_add_count s 1 = Ret (-1) /\
  Core.reverse_and_add_count s 2 = Trap.
Proof.
  cbv zeta. split; [|split]; vm_compute; reflexivity.
Qed.

(** ** The batch driver *)

Section BatchDriver.
Import Mem Batch.

Lemma upd_length l i v : length (upd l i v) = length l.
Proof.
  revert i. induction l as [|h t IH]; intros [|i]; simpl; auto.
Qed.

Lemma upd_same l i v : (i < length l)%nat -> nth_error (upd l i v) i = Some v.
Proof.
  revert i. induction l as [|h t IH]; intros [|i] H; simpl in *; try lia; auto.
  apply IH. lia.
Qed.

Lemma upd_other l i j v : i <> j -> nth_error (upd l i v) j = nth_error l j.
Proof.
  revert i j. induction l as [|h t IH]; intros [|i] [|j] H; simpl; auto;
    try congruence.
Qed.

Lemma store_ok l i v : (i < length l)%nat -> store l i v = Ret (upd l i v).
Proof. intros H. unfold store. apply Nat.ltb_lt in H. now rewrite H. Qed.

(** One step writes the fields of the solution at index [i] and leaves
    the other indices alone. *)
Lemma batch_step_spec (mem_ok : nat -> bool) fuel primes i out n s :
  nth_error primes i = Some n ->
  solve_erdos_straus (mem_ok i) fuel n = Ret s ->
  room (S i) out ->
  exists out',
    batch_step mem_ok fuel primes i out = Ret out' /\
    slot out' i = map Some (fields s) /\
    (forall j, j <> i -> slot out' j = slot out j) /\
    (forall k, room k out -> room k out').
Proof.
  intros Hn Hs Hroom. unfold room, arrays in Hroom.
  repeat match goal with H : Forall _ (_ :: _) |- _ => inversion H; clear H; subst end.
  unfold batch_step, load. rewrite Hn. simpl. rewrite Hs. simpl.
  rewrite !store_ok by lia. simpl. eexists. split; [reflexivity|].
  unfold slot, arrays, fields; simpl. split; [|split].
  - rewrite !upd_same by lia. reflexivity.
  - intros j Hj. rewrite !upd_other by congruence. reflexivity.
  - intros k Hk. unfold room, arrays in *. simpl.
    repeat match goal with H : Forall _ (_ :: _) |- _ => inversion H; clear H; subst end.
    repeat constructor; rewrite upd_length; assumption.
Qed.

Lemma batch_loop_spec (mem_ok : nat -> bool) fuel primes : forall rem i out sols,
  (forall k, (k < rem)%nat -> exists n,
      nth_error primes (i + k) = Some n /\
      solve_erdos_straus (mem_ok (i + k)%nat) fuel n = Ret (nth k sols sol_zero)) ->
  room (i + rem) out ->
  exists out',
    batch_loop rem mem_ok fuel primes i out = Ret out' /\
    (forall k, (k < rem)%nat -> slot out' (i + k) = map Some (fields (nth k sols sol_zero))) /\
    (forall j, (j < i)%nat -> slot out' j = slot out j).
Proof.
  induction rem as [|rem IH]; intros i out sols Hsol Hroom.
  - exists out. simpl. split; [reflexivity|]. split; [intros k Hk; lia|auto].
  - simpl. destruct (Hsol 0%nat ltac:(lia)) as (n & Hn & Hs).
    rewrite Nat.add_0_r in Hn, Hs.
    assert (Hr1 : room (S i) out).
    { unfold room in *. eapply Forall_impl; [|exact Hroom]. simpl. intros; lia. }
    destruct (batch_step_spec mem_ok fuel primes i out n _ Hn Hs Hr1)
      as (out1 & Hstep & Hslot & Hother & Hkeep).
    rewrite Hstep. simpl.
    destruct (IH (S i) out1 (tl sols)) as (out' & Hloop & Hnew & Hold).
    + intros k Hk. destruct (Hsol (S k) ltac:(lia)) as (n' & Hn' & Hs').
      exists n'. rewrite Nat.add_succ_comm. split; [exact Hn'|].
      rewrite Hs'. f_equal. destruct sols; [destruct k|]; reflexivity.
    + apply Hkeep. rewrite Nat.add_succ_comm. exact Hroom.
    + exists out'. split; [exact Hloop|]. split.
      * intros [|k] Hk.
        { rewrite Nat.add_0_r. rewrite Hold by lia. exact Hslot. }
        { rewrite <- Nat.add_succ_comm. rewrite Hnew by lia.
          destruct sols; [destruct k|]; reflexivity. }
      * intros j Hj. rewrite Hold by lia. apply Hother. lia.
Qed.

(** C9: [solve_batch] over an array [ns] of length k, with output arrays
    of at least k entries, writes into slot i exactly the seven fields of
    [solve_erdos_straus(ns[i])] for every i < k, each element solved on its
    own, in input order.  [sols] lists what the calls return, call i with
    the allocation outcome [mem_ok i]. *)
Theorem solve_batch_elementwise (mem_ok : nat -> bool) fuel ns sols out :
  length sols = length ns ->
  (forall i n s, nth_error ns i = Some n -> nth_error sols i = Some s ->
                 solve_erdos_straus (mem_ok i) fuel n = Ret s) ->
  room (length ns) out ->
  exists out',
    solve_batch mem_ok fuel ns (Z.of_nat (length ns)) out = Ret out' /\
    forall i n, nth_error ns i = Some n ->
      exists s, solve_erdos_straus (mem_ok i) fuel n = Ret s /\
                nth_error sols i = Some s /\
                slot out' i = map Some (fields s).
Proof.
  intros Hlen Hall Hroom. unfold solve_batch. rewrite Nat2Z.id.
  assert (Hk : forall k, (k < length ns)%nat -> exists n,
             nth_error ns (0 + k) = Some n /\
             solve_erdos_straus (mem_ok (0 + k)%nat) fuel n = Ret (nth k sols sol_zero)).
  { intros k Hk. cbn [Nat.add].
    destruct (nth_error ns k) as [n|] eqn:En; [|apply nth_error_None in En; lia].
    exists n. split; [reflexivity|]. apply (Hall k n); [exact En|].
    apply nth_error_nth'. lia. }
  destruct (batch_loop_spec mem_ok fuel ns (length ns) 0 out sols Hk Hroom)
    as (out' & Hloop & Hnew & _).
  exists out'. split; [exact Hloop|].
  intros i n Hi.
  assert (Hlt : (i < length ns)%nat) by (apply nth_error_Some; congruence).
  destruct (Hk i Hlt) as (n' & Hn' & Hs'). simpl in Hn'.
  assert (n' = n) by congruence. subst n'.
  exists (nth i sols sol_zero). split; [exact Hs'|]. split.
  - apply nth_error_nth'. lia.
  - apply (Hnew i Hlt).
Qed.

Lemma solve_batch_elementwise_witness :
  exists out',
    solve_batch (fun _ => true) 3 [13; 2] (Z.of_nat (length [13; 2]))
      (mkOutputs [0; 0] [0; 0] [0; 0] [0; 0] [0; 0] [0; 0] [0; 0]) = Ret out' /\
    forall i n, nth_error [13; 2] i = Some n ->
      exists s, solve_erdos_straus true 3 n = Ret s /\
                nth_error [mkSolution 4 0 18 0 468 0 1; mkSolution 1 0 2 0 2 0 1] i
                = Some s /\
                slot out' i = map Some (fields s).
Proof.
  apply (solve_batch_elementwise (fun _ => true) 3 [13; 2]
           [mkSolution 4 0 18 0 468 0 1; mkSolution 1 0 2 0 2 0 1]).
  - reflexivity.
  - intros [|[|[|i]]] n s Hn Hs; cbn in Hn, Hs; try discriminate;
      injection Hn as <-; injection Hs as <-; reflexivity.
  - repeat constructor.
Defined.

End BatchDriver.

(** ** Elementary number theory used by the factorization *)

Section Primes.

Lemma prime_gt_1 p : Z.prime p -> 1 < p.
Proof. intros [H _]. exact H. Qed.

(** Below a bound [k], either some proper divisor of [n] exists or none. *)
Lemma proper_divisor_below n k :
  0 <= k ->
  (exists m, 1 < m < k /\ (m | n)) \/ (forall m, 1 < m < k -> ~ (m | n)).
Proof.
  intros Hk. pattern k. apply natlike_ind; [| |exact Hk]; clear k Hk.
  - right. intros m Hm. lia.
  - intros k Hk [(m & Hm & Hd)|Hnone].
    + left. exists m. split; [lia|exact Hd].
    + destruct (Z_le_gt_dec k 1) as [Hle|Hgt].
      * right. intros m Hm. lia.
      * destruct (Z.eq_dec (n mod k) 0) as [Hz|Hnz].
        { left. exists k. split; [lia|]. apply Z.mod_divide; [lia|exact Hz]. }
        { right. intros m Hm Hd. destruct (Z.eq_dec m k) as [->|Hne].
          - apply Hnz. apply Z.mod_divide; [lia|exact Hd].
          - apply (Hnone m); [lia|exact Hd]. }
Qed.

Lemma prime_or_proper_divisor n :
  1 < n -> Z.prime n \/ exists m, 1 < m < n /\ (m | n).
Proof.
  intros Hn. destruct (proper_divisor_below n n ltac:(lia)) as [H|H].
  - right. exact H.
  - left. split; assumption.
Qed.

Lemma exists_prime_divisor n : 1 < n -> exists p, Z.prime p /\ (p | n).
Proof.
  intros Hn. assert (H0 : 0 <= n) by lia. revert Hn.
  pattern n. apply Z_lt_induction; [|exact H0]. clear n H0.
  intros n IH Hn.
  destruct (prime_or_proper_divisor n Hn) as [Hp|(m & Hm & Hdiv)].
  - exists n. split; [exact Hp|apply Z.divide_refl].
  - destruct (IH m ltac:(lia) ltac:(lia)) as (p & Hp & Hpm).
    exists p. split; [exact Hp|]. eapply Z.divide_trans; eauto.
Qed.

(** A composite number has a prime factor below its square root. *)
Lemma small_prime_factor n :
  1 < n -> ~ Z.prime n -> exists p, Z.prime p /\ (p | n) /\ p * p <= n.
Proof.
  intros Hn Hnp.
  destruct (prime_or_proper_divisor n Hn) as [Hp|(m & Hm & [k Hk])];
    [contradiction|].
  assert (Hkpos : 1 < k) by nia.
  destruct (Z_le_gt_dec m k) as [Hle|Hgt].
  - destruct (exists_prime_divisor m ltac:(lia)) as (p & Hp & Hpm).
    exists p. split; [exact Hp|]. split.
    + eapply Z.divide_trans; [exact Hpm|]. exists k. lia.
    + pose proof (prime_gt_1 p Hp). apply Z.divide_pos_le in Hpm; [|lia]. nia.
  - destruct (exists_prime_divisor k ltac:(lia)) as (p & Hp & Hpk).
    exists p. split; [exact Hp|]. split.
    + eapply Z.divide_trans; [exact Hpk|]. exists m. lia.
    + pose proof (prime_gt_1 p Hp). apply Z.divide_pos_le in Hpk; [|lia]. nia.
Qed.

(** A number above 1 whose prime factors are all at least [d], with
    [temp < d * d], is prime. *)
Lemma prime_of_no_small_factor d temp :
  1 < temp -> temp < d * d -> 0 <= d ->
  (forall q, Z.prime q -> (q | temp) -> d <= q) ->
  Z.prime temp.
Proof.
  intros Ht Hlt Hd Hno.
  destruct (prime_or_proper_divisor temp Ht) as [Hp|Hc]; [exact Hp|exfalso].
  assert (Hnp : ~ Z.prime temp).
  { intros [_ Hp]. destruct Hc as (m & Hm & Hdv). exact (Hp m Hm Hdv). }
  destruct (small_prime_factor temp Ht Hnp) as (p & Hp & Hdiv & Hsq).
  specialize (Hno p Hp Hdiv). nia.
Qed.

(** If every prime factor of [temp] is at least [d] and [d] divides
    [temp], then [d] is prime. *)
Lemma least_divisor_prime d temp :
  1 < d -> (d | temp) ->
  (forall q, Z.prime q -> (q | temp) -> d <= q) ->
  Z.prime d.
Proof.
  intros Hd Hdiv Hno.
  destruct (exists_prime_divisor d Hd) as (q & Hq & Hqd).
  assert (d <= q) by (apply Hno; [exact Hq|eapply Z.divide_trans; eauto]).
  assert (q <= d) by (apply Z.divide_pos_le; [lia|exact Hqd]).
  now replace d with q by lia.
Qed.

Lemma prime_not_multiple_of_3 p : Z.prime p -> 3 < p -> p mod 3 <> 0.
Proof.
  intros [_ Hp] H3 Hmod. apply (Hp 3); [lia|].
  apply Z.mod_divide; [lia|exact Hmod].
Qed.

Lemma prime_odd p : Z.prime p -> 2 < p -> p mod 2 <> 0.
Proof.
  intros [_ Hp] H2 Hmod. apply (Hp 2); [lia|].
  apply Z.mod_divide; [lia|exact Hmod].
Qed.

(** A divisor of a prime that is at least 2 is the prime itself. *)
Lemma divisor_of_prime d p : Z.prime p -> 2 <= d -> (d | p) -> d = p.
Proof.
  intros [Hp1 Hp] Hd Hdv.
  assert (d <= p) by (apply Z.divide_pos_le; [lia|exact Hdv]).
  destruct (Z.eq_dec d p) as [E|Hne]; [exact E|].
  exfalso. apply (Hp d); [lia|exact Hdv].
Qed.

End Primes.

(** ** The trial-division loops *)

Section TrialDivision.
Import Spec.

(** The inner loop removes every power of [d] from [temp]. *)
Lemma strip_spec fuel : forall d temp e,
  2 <= d -> 1 <= temp -> temp < 2 ^ Z.of_nat fuel ->
  exists k temp',
    strip fuel d temp e = Ret (temp', e + k) /\
    0 <= k /\ temp = temp' * d ^ k /\ 1 <= temp' /\ ~ (d | temp') /\
    ((d | temp) -> 1 <= k).
Proof.
  induction fuel as [|fuel IH]; intros d temp e Hd Ht Hlt.
  - simpl in Hlt. lia.
  - cbn [strip]. destruct (Z.eqb_spec d 0) as [?|_]; [lia|].
    destruct (Z.eqb_spec (temp mod d) 0) as [Hz|Hnz].
    + assert (Hdiv : temp = d * (temp / d)).
      { pose proof (Z.div_mod temp d ltac:(lia)). lia. }
      assert (Hq1 : 1 <= temp / d).
      { assert (0 <= temp / d) by (apply Z.div_pos; lia).
        destruct (Z.eq_dec (temp / d) 0) as [E|]; [rewrite E in Hdiv; lia|lia]. }
      assert (Hq2 : temp / d < 2 ^ Z.of_nat fuel).
      { rewrite Nat2Z.inj_succ, Z.pow_succ_r in Hlt by lia. nia. }
      destruct (IH d (temp / d) (e + 1) Hd Hq1 Hq2)
        as (k & temp' & Hrun & Hk & Heq & Ht' & Hnd & _).
      exists (k + 1), temp'. split; [rewrite Hrun; f_equal; f_equal; lia|].
      split; [lia|]. split.
      { rewrite Z.pow_add_r, Z.pow_1_r by lia. rewrite Hdiv at 1. rewrite Heq. ring. }
      split; [exact Ht'|]. split; [exact Hnd|]. lia.
    + exists 0, temp. split; [f_equal; f_equal; lia|].
      split; [lia|]. split; [rewrite Z.pow_0_r; lia|]. split; [exact Ht|].
      assert (Hnd : ~ (d | temp)).
      { intros Hdv. apply Hnz. apply Z.mod_divide; [lia|exact Hdv]. }
      split; [exact Hnd|]. intros Hdv. contradiction.
Qed.

Lemma fprod_app fs gs : fprod (fs ++ gs) = fprod fs * fprod gs.
Proof.
  induction fs as [|f fs IH].
  - change (fprod gs = 1 * fprod gs). ring.
  - change (prime f ^ exp f * fprod (fs ++ gs)
            = prime f ^ exp f * fprod fs * fprod gs).
    rewrite IH. ring.
Qed.

Lemma fprod_snoc fs p e : fprod (fs ++ [mkFactor p e]) = fprod fs * p ^ e.
Proof.
  rewrite fprod_app. change (fprod [mkFactor p e]) with (p ^ e * 1). ring.
Qed.

Lemma sorted_snoc (l : list Z) d :
  StronglySorted Z.lt l -> Forall (fun q => q < d) l -> StronglySorted Z.lt (l ++ [d]).
Proof.
  induction 1 as [|a l Hs IH Ha]; intros Hall; cbn [app].
  - constructor; constructor.
  - inversion Hall as [|? ? Had Hl]; subst. constructor; [apply IH; exact Hl|].
    apply Forall_app. split; [exact Ha|]. constructor; [exact Had|constructor].
Qed.

(** Each factor contributes at least a factor 2. *)
Lemma fprod_lower fs :
  Forall (fun f => 2 <= prime f /\ 1 <= exp f) fs ->
  2 ^ Z.of_nat (length fs) <= fprod fs.
Proof.
  induction 1 as [|f fs [Hp He] _ IH].
  - change (1 <= 1). lia.
  - change (fprod (f :: fs)) with (prime f ^ exp f * fprod fs).
    cbn [length]. rewrite Nat2Z.inj_succ, Z.pow_succ_r by lia.
    assert (2 <= prime f ^ exp f).
    { replace (exp f) with (Z.succ (exp f - 1)) by lia.
      rewrite Z.pow_succ_r by lia.
      assert (0 < prime f ^ (exp f - 1)) by (apply Z.pow_pos_nonneg; lia). nia. }
    assert (0 < 2 ^ Z.of_nat (length fs)) by (apply Z.pow_pos_nonneg; lia).
    nia.
Qed.

(** No two consecutive numbers above 2^63 both have a 64-bit square of at
    most 1. *)
Lemma squares_not_both_tiny a :
  2 ^ 63 < a < two64 - 1 ->
  u64 (a * a) <= 1 -> u64 ((a + 1) * (a + 1)) <= 1 -> False.
Proof.
  unfold u64. rewrite two64_eq. change (2 ^ 63) with 9223372036854775808.
  intros Ha H1 H2.
  pose proof (Z.div_mod (a * a) 18446744073709551616 ltac:(lia)) as E1.
  pose proof (Z.div_mod ((a + 1) * (a + 1)) 18446744073709551616 ltac:(lia)) as E2.
  pose proof (Z.mod_pos_bound (a * a) 18446744073709551616 ltac:(lia)).
  pose proof (Z.mod_pos_bound ((a + 1) * (a + 1)) 18446744073709551616 ltac:(lia)).
  lia.
Qed.

End TrialDivision.

(** ** The trial-division loop, by phases *)

Import Spec.

Section TrialInvariant.

Variable x : Z.
Hypothesis x_pos : 0 < x.
Hypothesis x_u64 : x < two64.

(** What holds of the loop state before [d] is tried. *)
Definition base_inv (d temp : Z) (fs : list Factor) : Prop :=
  1 <= temp /\ fprod fs * temp = x /\
  Forall (fun f => Z.prime (prime f) /\ 1 <= exp f /\ prime f < d) fs /\
  StronglySorted Z.lt (map prime fs) /\
  (forall q, Z.prime q -> (q | temp) -> d <= q).

(** What holds when the loop is left. *)
Definition trial_post (temp : Z) (fs : list Factor) : Prop :=
  1 <= temp /\ fprod fs * temp = x /\
  Forall (fun f => Z.prime (prime f) /\ 1 <= exp f /\ (1 < temp -> prime f < temp)) fs /\
  StronglySorted Z.lt (map prime fs) /\
  (temp = 1 \/ Z.prime temp).

Lemma inv_factors_ge_2 d temp fs :
  base_inv d temp fs -> Forall (fun f => 2 <= prime f /\ 1 <= exp f) fs.
Proof.
  intros (_ & _ & Hall & _). eapply Forall_impl; [|exact Hall].
  intros f (Hp & He & _). pose proof (prime_gt_1 _ Hp). lia.
Qed.

Lemma inv_fprod_pos d temp fs : base_inv d temp fs -> 1 <= fprod fs.
Proof.
  intros H. pose proof (fprod_lower fs (inv_factors_ge_2 _ _ _ H)).
  assert (0 < 2 ^ Z.of_nat (length fs)) by (apply Z.pow_pos_nonneg; lia). lia.
Qed.

Lemma inv_temp_le d temp fs : base_inv d temp fs -> temp <= x.
Proof.
  intros H. pose proof (inv_fprod_pos _ _ _ H). destruct H as (Ht & Hx & _). nia.
Qed.

(** While [temp] is above 1 the capacity guard is not reached. *)
Lemma inv_guard d temp fs :
  base_inv d temp fs -> 1 < temp -> Z.of_nat (length fs) < 63.
Proof.
  intros H Ht. pose proof (fprod_lower fs (inv_factors_ge_2 _ _ _ H)) as Hlow.
  destruct H as (_ & Hx & _).
  destruct (Z_lt_ge_dec (Z.of_nat (length fs)) 63) as [Hlt|Hge]; [exact Hlt|exfalso].
  assert (2 ^ 63 <= 2 ^ Z.of_nat (length fs)) by (apply Z.pow_le_mono_r; lia).
  rewrite two64_eq in x_u64. change (2 ^ 63) with 9223372036854775808 in *. nia.
Qed.

Lemma inv_skip d temp fs :
  base_inv d temp fs -> 2 <= d -> ~ (d | temp) -> base_inv (d + 1) temp fs.
Proof.
  intros (Ht & Hx & Hall & Hs & Hno) Hd Hnd.
  split; [exact Ht|]. split; [exact Hx|]. split; [|split; [exact Hs|]].
  - eapply Forall_impl; [|exact Hall]. intros f (Hp & He & Hlt). split; [exact Hp|split; [exact He|lia]].
  - intros q Hq Hdv. pose proof (Hno q Hq Hdv).
    destruct (Z.eq_dec q d) as [->|Hne]; [contradiction|lia].
Qed.

Lemma inv_strip d temp fs k temp' :
  base_inv d temp fs -> 2 <= d -> (d | temp) ->
  temp = temp' * d ^ k -> 1 <= k -> 1 <= temp' -> ~ (d | temp') ->
  Z.prime d /\ base_inv (d + 1) temp' (fs ++ [mkFactor d k]).
Proof.
  intros (Ht & Hx & Hall & Hs & Hno) Hd Hdv Heq Hk Ht' Hnd.
  assert (Hpd : Z.prime d) by (apply (least_divisor_prime d temp); auto; lia).
  split; [exact Hpd|].
  split; [exact Ht'|]. split; [rewrite fprod_snoc; rewrite <- Hx, Heq; ring|].
  split; [|split].
  - apply Forall_app. split.
    + eapply Forall_impl; [|exact Hall]. intros f (Hp & He & Hlt). split; [exact Hp|split; [exact He|lia]].
    + constructor; [|constructor]. cbn [prime exp]. split; [exact Hpd|split; lia].
  - rewrite map_app. cbn [map prime]. apply sorted_snoc; [exact Hs|].
    apply Forall_map. eapply Forall_impl; [|exact Hall]. intros f (_ & _ & Hlt). exact Hlt.
  - intros q Hq Hqd.
    assert (Hqt : (q | temp)).
    { rewrite Heq. apply Z.divide_mul_l. exact Hqd. }
    pose proof (Hno q Hq Hqt).
    destruct (Z.eq_dec q d) as [->|Hne]; [contradiction|lia].
Qed.

Lemma inv_exit d temp fs :
  base_inv d temp fs -> 0 <= d -> temp < d * d -> trial_post temp fs.
Proof.
  intros (Ht & Hx & Hall & Hs & Hno) Hd Hlt.
  assert (Hpt : temp = 1 \/ Z.prime temp).
  { destruct (Z.eq_dec temp 1) as [E|Hne]; [now left|right].
    apply (prime_of_no_small_factor d); auto; lia. }
  split; [exact Ht|]. split; [exact Hx|]. split; [|split; [exact Hs|exact Hpt]].
  eapply Forall_impl; [|exact Hall]. intros f (Hp & He & Hfd).
  split; [exact Hp|split; [exact He|]]. intros H1. destruct Hpt as [E|Hp']; [lia|].
  pose proof (Hno temp Hp' (Z.divide_refl temp)). lia.
Qed.

(** The square of 2^32 - 1, the largest [d] whose square fits 64 bits. *)
Definition sq32 : Z := 18446744065119617025.

Lemma big_prime_room : Z.prime x -> sq32 <= x -> x + 2 < two64.
Proof.
  intros Hp Hx. unfold sq32 in Hx. rewrite two64_eq in *.
  pose proof (prime_odd x Hp ltac:(lia)) as Hodd.
  pose proof (prime_not_multiple_of_3 x Hp ltac:(lia)) as H3.
  destruct (Z.eq_dec x 18446744073709551615) as [->|]; [exfalso; apply H3; reflexivity|].
  destruct (Z.eq_dec x 18446744073709551614) as [->|]; [exfalso; apply Hodd; reflexivity|].
  lia.
Qed.

Lemma post_single : Z.prime x -> trial_post 1 [mkFactor x 1].
Proof.
  intros Hp. split; [lia|]. split.
  - change (fprod [mkFactor x 1]) with (x ^ 1 * 1). rewrite Z.pow_1_r. ring.
  - split; [|split].
    + constructor; [|constructor]. cbn [prime exp]. split; [exact Hp|split; lia].
    + cbn [map prime]. constructor; constructor.
    + now left.
Qed.

(** After the prime [x] itself was divided out: at most two more tests. *)
Lemma trial_done budget fuel d :
  Z.prime x -> sq32 <= x ->
  d = x + 1 \/ (d = x + 2 /\ u64 ((x + 1) * (x + 1)) <= 1) ->
  x + 3 - d <= Z.of_nat fuel ->
  trial fuel budget d 1 [mkFactor x 1] = Ret (1, [mkFactor x 1]).
Proof.
  intros Hp Hx Hd Hfuel. pose proof (big_prime_room Hp Hx) as Hroom.
  assert (Hlast : forall f, trial (S f) budget (x + 2) 1 [mkFactor x 1]
                            = Ret (1, [mkFactor x 1]) \/
                            u64 ((x + 2) * (x + 2)) <= 1).
  { intros f. cbn [trial]. destruct (Z.leb_spec (u64 ((x + 2) * (x + 2))) 1) as [Hle|Hgt].
    - now right.
    - left. reflexivity. }
  assert (Hx2 : forall f, u64 ((x + 1) * (x + 1)) <= 1 ->
                          trial (S f) budget (x + 2) 1 [mkFactor x 1]
                          = Ret (1, [mkFactor x 1])).
  { intros f H1. destruct (Hlast f) as [E|H2]; [exact E|exfalso].
    apply (squares_not_both_tiny (x + 1)); auto.
    - unfold sq32 in Hx. change (2 ^ 63) with 9223372036854775808. rewrite two64_eq in *. lia.
    - replace (x + 1 + 1) with (x + 2) by lia. exact H2. }
  destruct Hd as [->|[-> H1]].
  - destruct fuel as [|[|f]]; [lia|lia|].
    cbn [trial]. destruct (Z.leb_spec (u64 ((x + 1) * (x + 1))) 1) as [Hle|Hgt];
      [|reflexivity].
    cbn [andb length Z.of_nat].
    change (Z.of_nat 1 <? 63) with true. cbn [andb].
    destruct (Z.eqb_spec (x + 1) 0) as [?|_]; [lia|].
    rewrite (Z.mod_small 1 (x + 1)) by lia. change (1 =? 0) with false. cbn iota.
    rewrite (u64_small (x + 1 + 1)) by (rewrite two64_eq in *; lia).
    replace (x + 1 + 1) with (x + 2) by lia. apply Hx2. exact Hle.
  - destruct fuel as [|f]; [lia|]. apply Hx2. exact H1.
Qed.

Lemma post_prime : Z.prime x -> trial_post x [].
Proof.
  intros Hp. pose proof (prime_gt_1 x Hp). split; [lia|]. split.
  - change (fprod []) with 1. ring.
  - split; [constructor|]. split; [constructor|now right].
Qed.

(** Stripping a prime from itself leaves 1 with exponent 1. *)
Lemma strip_prime_self budget :
  (64 <= budget)%nat -> Z.prime x -> strip budget x x 0 = Ret (1, 1).
Proof.
  intros Hb Hp. pose proof (prime_gt_1 x Hp) as Hx1.
  assert (Hlt : x < 2 ^ Z.of_nat budget).
  { assert (2 ^ 64 <= 2 ^ Z.of_nat budget) by (apply Z.pow_le_mono_r; lia).
    fold two64 in H. lia. }
  destruct (strip_spec budget x x 0 ltac:(lia) ltac:(lia) Hlt)
    as (k & temp' & Hrun & Hk & Heq & Ht' & Hnd & Hk1).
  specialize (Hk1 (Z.divide_refl x)).
  assert (Hpow : x ^ k = x * x ^ (k - 1)).
  { replace k with (Z.succ (k - 1)) at 1 by lia. apply Z.pow_succ_r. lia. }
  assert (Hpos : 0 < x ^ (k - 1)) by (apply Z.pow_pos_nonneg; lia).
  assert (Hone : temp' * x ^ (k - 1) = 1) by nia.
  assert (Ht1 : temp' = 1) by nia.
  assert (Hk' : k = 1).
  { destruct (Z.eq_dec k 1) as [E|Hne]; [exact E|exfalso].
    assert (Hpow' : x ^ (k - 1) = x * x ^ (k - 2)).
    { replace (k - 1) with (Z.succ (k - 2)) at 1 by lia. apply Z.pow_succ_r. lia. }
    assert (0 < x ^ (k - 2)) by (apply Z.pow_pos_nonneg; lia). nia. }
  rewrite Hrun, Ht1, Hk'. reflexivity.
Qed.

(** Past 2^32 the squares wrap; this is reached only when [x] is a prime
    of at least (2^32 - 1)^2, and the loop runs on until [d] is [x]. *)
Lemma trial_high budget :
  (64 <= budget)%nat -> Z.prime x -> sq32 <= x ->
  forall fuel d,
    2 ^ 32 <= d <= x -> x + 3 - d <= Z.of_nat fuel ->
    exists temp' fs',
      trial fuel budget d x [] = Ret (temp', fs') /\ trial_post temp' fs'.
Proof.
  intros Hb Hp Hx. pose proof (big_prime_room Hp Hx) as Hroom.
  induction fuel as [|fuel IH]; intros d Hd Hfuel; [lia|].
  change (2 ^ 32) with 4294967296 in Hd.
  cbn [trial]. destruct (Z.leb_spec (u64 (d * d)) x) as [Hle|Hgt].
  - cbn [length Z.of_nat andb]. change (0 <? 63) with true.
    destruct (Z.eqb_spec d 0) as [?|_]; [lia|].
    destruct (Z.eqb_spec (x mod d) 0) as [Hz|Hnz].
    + assert (Hdx : d = x).
      { apply divisor_of_prime; [exact Hp|lia|]. apply Z.mod_divide; [lia|exact Hz]. }
      subst d. rewrite (strip_prime_self budget Hb Hp). cbn [bind fst snd app].
      rewrite (u64_small (x + 1)) by (rewrite two64_eq in *; lia).
      exists 1, [mkFactor x 1]. split; [|apply post_single; exact Hp].
      apply trial_done; auto. lia.
    + assert (Hne : d <> x).
      { intros ->. apply Hnz. apply Z.mod_same. lia. }
      rewrite (u64_small (d + 1)) by (rewrite two64_eq in *; lia).
      apply IH; [change (2 ^ 32) with 4294967296|]; lia.
  - cbn [andb]. exists x, []. split; [reflexivity|apply post_prime; exact Hp].
Qed.

(** Reaching [d = 2^32] with [temp] untouched means [x] is a big prime. *)
Lemma enter_high temp fs :
  base_inv 4294967296 temp fs -> sq32 <= temp ->
  temp = x /\ fs = [] /\ Z.prime x /\ sq32 <= x.
Proof.
  intros Hinv Hsq. pose proof (inv_temp_le _ _ _ Hinv) as Hle.
  pose proof (fprod_lower fs (inv_factors_ge_2 _ _ _ Hinv)) as Hlow.
  destruct Hinv as (Ht & Hx & Hall & Hs & Hno).
  unfold sq32 in *. rewrite two64_eq in x_u64.
  assert (Hfs : fs = []).
  { destruct fs as [|f fs]; [reflexivity|exfalso].
    cbn [length] in Hlow. rewrite Nat2Z.inj_succ, Z.pow_succ_r in Hlow by lia.
    assert (0 < 2 ^ Z.of_nat (length fs)) by (apply Z.pow_pos_nonneg; lia). nia. }
  subst fs. change (fprod []) with 1 in Hx.
  assert (Htx : temp = x) by lia. subst temp.
  repeat split; try lia; try reflexivity.
  apply (prime_of_no_small_factor 4294967296); try lia. exact Hno.
Qed.

(** The loop below 2^32, where [d * d] is exact. *)
Lemma trial_low budget :
  (64 <= budget)%nat ->
  forall fuel d temp fs,
    2 <= d < 2 ^ 32 -> d <= x + 1 -> base_inv d temp fs ->
    x + 3 - d <= Z.of_nat fuel ->
    exists temp' fs',
      trial fuel budget d temp fs = Ret (temp', fs') /\ trial_post temp' fs'.
Proof.
  intros Hb. induction fuel as [|fuel IH]; intros d temp fs Hd Hdx Hinv Hfuel; [lia|].
  change (2 ^ 32) with 4294967296 in Hd.
  pose proof (inv_temp_le _ _ _ Hinv) as Htx.
  cbn [trial]. rewrite (u64_small (d * d)) by (rewrite two64_eq; nia).
  destruct (Z.leb_spec (d * d) temp) as [Hle|Hgt].
  - assert (Hg : (Z.of_nat (length fs) <? 63) = true).
    { apply Z.ltb_lt. apply (inv_guard d temp); [exact Hinv|nia]. }
    rewrite Hg. cbn [andb].
    destruct (Z.eqb_spec d 0) as [?|_]; [lia|].
    rewrite (u64_small (d + 1)) by (rewrite two64_eq; lia).
    destruct (Z.eqb_spec (temp mod d) 0) as [Hz|Hnz].
    + assert (Hdv : (d | temp)) by (apply Z.mod_divide; [lia|exact Hz]).
      assert (Hlt : temp < 2 ^ Z.of_nat budget).
      { assert (2 ^ 64 <= 2 ^ Z.of_nat budget) by (apply Z.pow_le_mono_r; lia).
        fold two64 in H. lia. }
      destruct (strip_spec budget d temp 0 ltac:(lia) ltac:(destruct Hinv; lia) Hlt)
        as (k & temp' & Hrun & Hk & Heq & Ht' & Hnd & Hk1).
      specialize (Hk1 Hdv). rewrite Hrun. cbn [bind fst snd]. rewrite Z.add_0_l.
      destruct (inv_strip d temp fs k temp' Hinv ltac:(lia) Hdv Heq Hk1 Ht' Hnd)
        as (Hpd & Hinv').
      destruct (Z.eq_dec (d + 1) 4294967296) as [E|Hne].
      * exfalso. assert (d = 4294967295) by lia. subst d.
        apply (prime_not_multiple_of_3 4294967295 Hpd); [lia|reflexivity].
      * apply IH; auto; try (change (2 ^ 32) with 4294967296); try lia. nia.
    + assert (Hnd : ~ (d | temp)).
      { intros Hdv. apply Hnz. apply Z.mod_divide; [lia|exact Hdv]. }
      pose proof (inv_skip d temp fs Hinv ltac:(lia) Hnd) as Hinv'.
      destruct (Z.eq_dec (d + 1) 4294967296) as [E|Hne].
      * rewrite E in *. assert (d = 4294967295) by lia. subst d.
        destruct (enter_high temp fs Hinv') as (-> & -> & Hp & Hx);
          [unfold sq32; lia|].
        apply trial_high; auto; [change (2 ^ 32) with 4294967296|];
          unfold sq32 in Hx; lia.
      * apply IH; auto; try (change (2 ^ 32) with 4294967296); try lia. nia.
  - cbn [andb]. exists temp, fs. split; [reflexivity|].
    apply (inv_exit d); [exact Hinv|lia|lia].
Qed.

(** Any complete factorization of a 64-bit number has at most 63 primes. *)
Lemma factorization_short gs : factorization_of x gs -> Z.of_nat (length gs) <= 63.
Proof.
  intros (Hall & _ & Hprod).
  assert (Hlow : 2 ^ Z.of_nat (length gs) <= fprod gs).
  { apply fprod_lower. eapply Forall_impl; [|exact Hall].
    intros f [Hp He]. pose proof (prime_gt_1 _ Hp). lia. }
  destruct (Z_le_gt_dec (Z.of_nat (length gs)) 63) as [Hle|Hgt]; [exact Hle|exfalso].
  assert (2 ^ 64 <= 2 ^ Z.of_nat (length gs)) by (apply Z.pow_le_mono_r; lia).
  fold two64 in H. lia.
Qed.

Lemma factorize_runs fuel :
  x + 64 <= Z.of_nat fuel ->
  exists fs, factorize fuel x = Ret fs /\ factorization_of x fs.
Proof.
  intros Hfuel. unfold factorize.
  assert (Hinv : base_inv 2 x []).
  { split; [lia|]. split; [change (fprod []) with 1; ring|].
    split; [constructor|]. split; [constructor|].
    intros q Hq _. pose proof (prime_gt_1 q Hq). lia. }
  destruct (trial_low fuel ltac:(lia) fuel 2 x [] ltac:(change (2 ^ 32) with 4294967296; lia)
              ltac:(lia) Hinv ltac:(lia))
    as (temp & fs & Hrun & Ht & Hx & Hall & Hs & Hpt).
  rewrite Hrun. cbn [bind].
  assert (Hge2 : Forall (fun f => 2 <= prime f /\ 1 <= exp f) fs).
  { eapply Forall_impl; [|exact Hall]. intros f (Hp & He & _).
    pose proof (prime_gt_1 _ Hp). lia. }
  pose proof (fprod_lower fs Hge2) as Hlow.
  assert (Hpe : Forall (fun f => Z.prime (prime f) /\ 1 <= exp f) fs).
  { eapply Forall_impl; [|exact Hall]. intros f (Hp & He & _). auto. }
  destruct (Z.ltb_spec 1 temp) as [H1|H1].
  - assert (Hg : (Z.of_nat (length fs) <? 63) = true).
    { apply Z.ltb_lt.
      destruct (Z_lt_ge_dec (Z.of_nat (length fs)) 63) as [Hlt|Hge]; [exact Hlt|exfalso].
      assert (2 ^ 63 <= 2 ^ Z.of_nat (length fs)) by (apply Z.pow_le_mono_r; lia).
      rewrite two64_eq in x_u64. change (2 ^ 63) with 9223372036854775808 in *. nia. }
    rewrite Hg. cbn [andb]. eexists. split; [reflexivity|].
    destruct Hpt as [E|Hp]; [lia|].
    split; [|split].
    + apply Forall_app. split; [exact Hpe|]. constructor; [|constructor].
      cbn [prime exp]. split; [exact Hp|lia].
    + rewrite map_app. cbn [map prime]. apply sorted_snoc; [exact Hs|].
      apply Forall_map. eapply Forall_impl; [|exact Hall].
      intros f (_ & _ & Hlt). apply Hlt. exact H1.
    + rewrite fprod_snoc, Z.pow_1_r. exact Hx.
  - cbn [andb]. exists fs. split; [reflexivity|].
    assert (temp = 1) by lia. subst temp.
    split; [exact Hpe|]. split; [exact Hs|]. lia.
Qed.

End TrialInvariant.

(** Trial division is complete on 64-bit inputs: for every x with
    0 < x < 2^64 and a budget of at least x + 64 iterations, lines 80-96
    return the prime factorization of x (primes increasing, exponents
    positive, product x) in at most 63 entries, so the guard
    [nfactors < 63] never cuts a factor off; not returning one would need
    more than 64 distinct primes, which no such x has. *)
Theorem factorize_complete x fuel :
  0 < x < two64 -> x + 64 <= Z.of_nat fuel ->
  (exists fs, factorize fuel x = Ret fs /\ factorization_of x fs /\
              Z.of_nat (length fs) <= 63) /\
  (~ returns (factorize fuel x) <->
   exists gs, factorization_of x gs /\ 64 < Z.of_nat (length gs)).
Proof.
  intros [Hx0 Hx1] Hfuel.
  destruct (factorize_runs x Hx0 Hx1 fuel Hfuel) as (fs & Hrun & Hfact).
  split.
  - exists fs. split; [exact Hrun|]. split; [exact Hfact|].
    apply (factorization_short x Hx1 fs Hfact).
  - split.
    + intros Hno. exfalso. apply Hno. exists fs. exact Hrun.
    + intros (gs & Hgs & Hlen).
      pose proof (factorization_short x Hx1 gs Hgs). lia.
Qed.

Lemma factorize_complete_witness :
  (exists fs, factorize 424 360 = Ret fs /\ factorization_of 360 fs /\
              Z.of_nat (length fs) <= 63) /\
  (~ returns (factorize 424 360) <->
   exists gs, factorization_of 360 gs /\ 64 < Z.of_nat (length gs)).
Proof.
  apply (factorize_complete 360 424).
  - rewrite two64_eq. lia.
  - vm_compute. discriminate.
Defined.

(** C5: for every x with 0 < x < 2^64 (and a budget of at least x + 64
    iterations) the factorization step returns (prime, exponent) pairs
    with every prime prime, every exponent positive, the primes strictly
    increasing and the powers multiplying to x.  The capacity is never
    exceeded: no factorization of such an x has 64 primes or more, so the
    step never fails and the guard [nfactors < 63] never cuts a factor
    off. *)
Theorem factorization_step_complete x fuel :
  0 < x < two64 -> x + 64 <= Z.of_nat fuel ->
  (exists fs,
     factorize fuel x = Ret fs /\
     Forall (fun f => Z.prime (prime f) /\ 1 <= exp f) fs /\
     StronglySorted Z.lt (map prime fs) /\
     fprod fs = x /\
     Z.of_nat (length fs) < 64) /\
  (forall gs, factorization_of x gs -> Z.of_nat (length gs) < 64).
Proof.
  intros [Hx0 Hx1] Hfuel.
  destruct (factorize_runs x Hx0 Hx1 fuel Hfuel) as (fs & Hrun & Hfact).
  split.
  - exists fs. split; [exact Hrun|].
    pose proof (factorization_short x Hx1 fs Hfact) as Hshort.
    destruct Hfact as (Hall & Hsorted & Hprod).
    split; [exact Hall|]. split; [exact Hsorted|]. split; [exact Hprod|lia].
  - intros gs Hgs. pose proof (factorization_short x Hx1 gs Hgs). lia.
Qed.

Lemma factorization_step_complete_witness :
  (exists fs,
     factorize 424 360 = Ret fs /\
     Forall (fun f => Z.prime (prime f) /\ 1 <= exp f) fs /\
     StronglySorted Z.lt (map prime fs) /\
     fprod fs = 360 /\
     Z.of_nat (length fs) < 64) /\
  (forall gs, factorization_of 360 gs -> Z.of_nat (length gs) < 64).
Proof.
  apply (factorization_step_complete 360 424).
  - rewrite two64_eq. lia.
  - vm_compute. discriminate.
Defined.

(** ** The closed-form branches *)

Section ClosedForms.

(** The identity 4abc = n(ab + bc + ac) over the integers, with the
    ordering the solver promises. *)
Definition exact_solution (n : Z) (s : Solution) : Prop :=
  0 < sol_a s /\ sol_a s <= sol_b s /\ sol_b s <= sol_c s /\
  4 * sol_a s * sol_b s * sol_c s
  = n * (sol_a s * sol_b s + sol_b s * sol_c s + sol_a s * sol_c s).

(** Even n: the call returns (n/2, n, n), an exact solution, whether or
    not memory is to be had: the branch returns before the allocation. *)
Theorem solve_even_closed_form mem_ok n fuel :
  2 <= n < two64 -> n mod 2 = 0 ->
  exists s,
    solve_erdos_straus mem_ok fuel n = Ret s /\ found s = 1 /\
    (sol_a s, sol_b s, sol_c s) = (n / 2, n, n) /\ exact_solution n s.
Proof.
  intros Hn Hev. rewrite two64_eq in Hn.
  assert (Hm : n = 2 * (n / 2)) by (pose proof (Z.div_mod n 2 ltac:(lia)); lia).
  assert (Hshape : exists s, solve_erdos_straus mem_ok fuel n = Ret s /\
                             s = set_sol sol_zero (n / 2) n n).
  { unfold solve_erdos_straus.
    destruct (Z.leb_spec n 1) as [?|_]; [lia|].
    destruct (Z.eqb_spec n 2) as [->|_]; [eexists; split; reflexivity|].
    destruct (Z.eqb_spec n 3) as [->|_]; [discriminate Hev|].
    destruct (Z.eqb_spec n 4) as [->|_]; [eexists; split; reflexivity|].
    destruct (Z.eqb_spec n 5) as [->|_]; [discriminate Hev|].
    rewrite Hev. change (0 =? 0) with true. cbn iota.
    rewrite (u128_small (2 * (n / 2))) by (rewrite two128_eq; lia).
    rewrite <- Hm. eexists; split; reflexivity. }
  destruct Hshape as (s & Hrun & ->). eexists. split; [exact Hrun|].
  destruct (set_sol_ordered sol_zero (n / 2) n n) as (Ha & Hb & Hc & Hf);
    try (rewrite ?two128_eq; lia).
  split; [exact Hf|]. split; [rewrite Ha, Hb, Hc; reflexivity|].
  unfold exact_solution. rewrite Ha, Hb, Hc.
  split; [lia|]. split; [lia|]. split; [lia|].
  clear - Hm. set (m := n / 2) in *. clearbody m. subst n. ring.
Qed.

(** n = 3 (mod 4), short of the largest 64-bit value: the call returns an
    exact solution, and from 7 on it is (q, 2nq, 2nq) with q = (n + 1) / 4;
    the branch returns before the allocation. *)
Theorem solve_3_mod_4_closed_form mem_ok n fuel :
  3 <= n < two64 - 1 -> n mod 4 = 3 ->
  exists s,
    solve_erdos_straus mem_ok fuel n = Ret s /\ found s = 1 /\ exact_solution n s /\
    (7 <= n ->
     let q := (n + 1) / 4 in
     (sol_a s, sol_b s, sol_c s) = (q, 2 * n * q, 2 * n * q)).
Proof.
  intros Hn H3. rewrite two64_eq in Hn.
  destruct (Z.eq_dec n 3) as [->|Hne].
  - exists (set_sol sol_zero 1 4 12). split; [reflexivity|].
    split; [reflexivity|]. split; [|intros H; lia].
    unfold exact_solution. vm_compute. repeat split; congruence.
  - assert (Hq : n + 1 = 4 * ((n + 1) / 4)).
    { pose proof (Z.div_mod (n + 1) 4 ltac:(lia)) as E.
      replace ((n + 1) mod 4) with 0 in E; [lia|].
      rewrite <- Z.add_mod_idemp_l, H3 by lia. reflexivity. }
    assert (Hodd : n mod 2 = 1).
    { rewrite <- (Z.mod_mod_divide n 4 2) by (exists 2; reflexivity).
      rewrite H3. reflexivity. }
    set (q := (n + 1) / 4) in *.
    assert (Hqr : 2 <= q < 4611686018427387904) by lia.
    assert (Hrun : solve_erdos_straus mem_ok fuel n
                   = Ret (set_sol sol_zero q (2 * (n * q)) (2 * (n * q)))).
    { unfold solve_erdos_straus.
      destruct (Z.leb_spec n 1) as [?|_]; [lia|].
      destruct (Z.eqb_spec n 2) as [?|_]; [lia|].
      destruct (Z.eqb_spec n 3) as [?|_]; [lia|].
      destruct (Z.eqb_spec n 4) as [->|_]; [discriminate H3|].
      destruct (Z.eqb_spec n 5) as [->|_]; [discriminate H3|].
      rewrite Hodd, H3. change (1 =? 0) with false. change (3 =? 3) with true.
      cbn iota. rewrite (u64_small (n + 1)) by (rewrite two64_eq; lia). fold q.
      rewrite (u128_small (n * q)) by (rewrite two128_eq; nia).
      rewrite (u128_small (2 * (n * q))) by (rewrite two128_eq; nia).
      reflexivity. }
    eexists. split; [exact Hrun|].
    destruct (set_sol_ordered sol_zero q (2 * (n * q)) (2 * (n * q)))
      as (Ha & Hb & Hc & Hf); try (rewrite ?two128_eq; nia).
    split; [exact Hf|]. split.
    + unfold exact_solution. rewrite Ha, Hb, Hc.
      split; [lia|]. split; [nia|]. split; [lia|].
      assert (E : n = 4 * q - 1) by lia. clearbody q. clear - E. subst n. ring.
    + intros _. cbv zeta. rewrite Ha, Hb, Hc. f_equal; [f_equal|]; ring.
Qed.

Lemma solve_even_closed_form_witness :
  exists s,
    solve_erdos_straus false 0 10 = Ret s /\ found s = 1 /\
    (sol_a s, sol_b s, sol_c s) = (10 / 2, 10, 10) /\ exact_solution 10 s.
Proof.
  apply (solve_even_closed_form false 10 0); [rewrite two64_eq; lia|reflexivity].
Defined.

Lemma solve_3_mod_4_closed_form_witness :
  exists s,
    solve_erdos_straus false 0 11 = Ret s /\ found s = 1 /\ exact_solution 11 s /\
    (7 <= 11 ->
     let q := (11 + 1) / 4 in
     (sol_a s, sol_b s, sol_c s) = (q, 2 * 11 * q, 2 * 11 * q)).
Proof.
  apply (solve_3_mod_4_closed_form false 11 0); [rewrite two64_eq; lia|reflexivity].
Defined.

End ClosedForms.

(** ** [set_sol] sorts *)

Section SetSolSorts.

Lemma perm3_cases (a b c : Z) l :
  l = [a; b; c] \/ l = [a; c; b] \/ l = [b; a; c] \/
  l = [b; c; a] \/ l = [c; a; b] \/ l = [c; b; a] ->
  Permutation [a; b; c] l.
Proof.
  intros [ -> | [ -> | [ -> | [ -> | [ -> | -> ] ] ] ] ].
  - apply Permutation_refl.
  - apply perm_skip. apply perm_swap.
  - apply perm_swap.
  - eapply perm_trans; [apply perm_swap|]. apply perm_skip. apply perm_swap.
  - eapply perm_trans; [apply perm_skip; apply perm_swap|]. apply perm_swap.
  - eapply perm_trans; [apply perm_swap|].
    eapply perm_trans; [apply perm_skip; apply perm_swap|]. apply perm_swap.
Qed.

(** [set_sol] stores the three 128-bit values in ascending order: what
    is read back from the six words is a sorted rearrangement of the
    arguments, and the found flag is set. *)
Theorem set_sol_sorts_and_keeps s a b c :
  0 <= a < two128 -> 0 <= b < two128 -> 0 <= c < two128 ->
  let s' := set_sol s a b c in
  sol_a s' <= sol_b s' /\ sol_b s' <= sol_c s' /\
  Permutation [a; b; c] [sol_a s'; sol_b s'; sol_c s'] /\ found s' = 1.
Proof.
  intros Ha Hb Hc. unfold set_sol.
  destruct (b <? a) eqn:E1; [apply Z.ltb_lt in E1|apply Z.ltb_ge in E1];
  destruct (c <? _) eqn:E2; [apply Z.ltb_lt in E2|apply Z.ltb_ge in E2
                            |apply Z.ltb_lt in E2|apply Z.ltb_ge in E2];
  destruct (_ <? _) eqn:E3; [apply Z.ltb_lt in E3|apply Z.ltb_ge in E3
                            |apply Z.ltb_lt in E3|apply Z.ltb_ge in E3
                            |apply Z.ltb_lt in E3|apply Z.ltb_ge in E3
                            |apply Z.ltb_lt in E3|apply Z.ltb_ge in E3];
  unfold sol_a, sol_b, sol_c; cbn [a_lo a_hi b_lo b_hi c_lo c_hi found];
  rewrite !words_join by lia;
  (split; [lia|]); (split; [lia|]); (split; [|reflexivity]);
  apply perm3_cases; auto 7.
Qed.

Lemma set_sol_sorts_and_keeps_witness :
  let s' := set_sol sol_zero 9 2 5 in
  sol_a s' <= sol_b s' /\ sol_b s' <= sol_c s' /\
  Permutation [9; 2; 5] [sol_a s'; sol_b s'; sol_c s'] /\ found s' = 1.
Proof.
  apply (set_sol_sorts_and_keeps sol_zero 9 2 5); rewrite two128_eq; lia.
Defined.

End SetSolSorts.

(** ** What a returned solution satisfies *)

Section SolveSound.

(** The congruence the verifier tests at one modulus. *)
Definition congruent_at (n a b c p : Z) : Prop :=
  (4 * a * b * c) mod p = (n * (a * b + b * c + a * c)) mod p.

Lemma mods_small : Forall (fun p => 1 < p < 2 ^ 31) mods.
Proof. unfold mods. change (2 ^ 31) with 2147483648. repeat constructor; lia. Qed.

Lemma verify_loop_pass ms n a b c :
  Forall (fun p => 1 < p < 2 ^ 31) ms ->
  (verify_loop ms n a b c = 1 \/ verify_loop ms n a b c = 0) /\
  (verify_loop ms n a b c = 1 <-> Forall (congruent_at n a b c) ms).
Proof.
  induction 1 as [|p ps [Hlo Hhi] _ IH]; cbn [verify_loop].
  - split; [now left|]. split; [constructor|reflexivity].
  - pose proof (verify_at_spec p Hlo Hhi n a b c) as Hat.
    destruct IH as [Hbit IH]. destruct (verify_at p n a b c).
    + split; [exact Hbit|]. split; intros H.
      * constructor; [now apply Hat|now apply IH].
      * inversion H; subst. now apply IH.
    + split; [now right|]. split; intros H; [discriminate|].
      inversion H as [|? ? Hc _]; subst. apply Hat in Hc. discriminate.
Qed.

Lemma div_u128_range a A : 0 < A -> 0 <= u128 a / A < two128.
Proof.
  intros HA. pose proof (u128_range a) as Hr. split.
  - apply Z.div_pos; lia.
  - apply Z.div_lt_upper_bound; [lia|]. nia.
Qed.

(** A candidate the divisor loop accepts is an ordered triple starting at
    [x] that the verifier passed. *)
Lemma try_divs_sound ds : forall n x A A64 nx D t sol s,
  0 < A -> try_divs ds n x A A64 nx D t sol = Ret (Some s) ->
  exists y z, s = set_sol sol x y z /\ x <= y /\ y <= z /\ z < two128 /\
              verify128 n x y z <> 0.
Proof.
  induction ds as [|d1 ds IH]; intros n x A A64 nx D t sol s HA H;
    cbn [try_divs] in H; [discriminate|].
  destruct (nx <? d1); [eauto|].
  destruct (negb (d1 mod A64 =? t)); [eauto|].
  destruct (d1 =? 0); [discriminate|].
  cbv zeta in H.
  destruct (negb (u128 (D / d1 + nx) mod A =? 0)); [eauto|].
  pose proof (div_u128_range (d1 + nx) A HA) as Hy.
  pose proof (div_u128_range (D / d1 + nx) A HA) as Hz.
  destruct (Z.ltb_spec (u128 (d1 + nx) / A) x) as [?|Hyx]; [eauto|].
  destruct (Z.ltb_spec (u128 (D / d1 + nx) / A) (u128 (d1 + nx) / A)) as [Hzy|Hzy].
  - destruct (Z.ltb_spec (u128 (D / d1 + nx) / A) x) as [?|Hzx]; [eauto|].
    destruct (Z.eqb_spec (verify128 n x (u128 (D / d1 + nx) / A) (u128 (d1 + nx) / A)) 0)
      as [?|Hv]; cbn [negb] in H; [eauto|].
    injection H as <-. do 2 eexists. split; [reflexivity|].
    split; [lia|]. split; [lia|]. split; [lia|exact Hv].
  - destruct (Z.ltb_spec (u128 (d1 + nx) / A) x) as [?|_]; [lia|].
    destruct (Z.eqb_spec (verify128 n x (u128 (d1 + nx) / A) (u128 (D / d1 + nx) / A)) 0)
      as [?|Hv]; cbn [negb] in H; [eauto|].
    injection H as <-. do 2 eexists. split; [reflexivity|].
    split; [lia|]. split; [lia|]. split; [lia|exact Hv].
Qed.

Lemma try_x_sound fuel n x sol s :
  try_x fuel n x sol = Ret (Some s) ->
  exists y z, s = set_sol sol x y z /\ x <= y /\ y <= z /\ z < two128 /\
              verify128 n x y z <> 0.
Proof.
  unfold try_x. intros H.
  destruct (Z.eqb_spec (A_of n x) 0) as [?|HA]; [discriminate|].
  destruct (get_divisors_p2x2 fuel n x) as [divs| |]; cbn [bind] in H; try discriminate.
  destruct (A64_of n x =? 0); [discriminate|].
  apply try_divs_sound in H; [exact H|].
  pose proof (u128_range (u128 (4 * x) - n)). unfold A_of in *. lia.
Qed.

Lemma search_sound steps : forall fuel n x x_max sol s,
  0 <= x -> search steps fuel n x x_max sol = Ret s ->
  s = sol \/
  exists x' y z, s = set_sol sol x' y z /\ 0 <= x' /\ x' <= y /\ y <= z /\
                 z < two128 /\ verify128 n x' y z <> 0.
Proof.
  induction steps as [|steps IH]; intros fuel n x x_max sol s Hx H; cbn [search] in H.
  - injection H as <-. now left.
  - destruct (x <=? x_max); [|injection H as <-; now left].
    destruct (try_x fuel n x sol) as [[s'|]| |] eqn:E; cbn [bind] in H; try discriminate.
    + injection H as <-. right. apply try_x_sound in E.
      destruct E as (y & z & E). exists x, y, z. tauto.
    + apply IH in H; [exact H|]. pose proof (u64_range (x + 1)). lia.
Qed.

(** Every return of the solver is the zeroed struct or a [set_sol] of an
    ordered triple that is exact (closed forms) or passed the verifier. *)
Lemma solve_cases mem_ok fuel n s :
  0 <= n < two64 -> solve_erdos_straus mem_ok fuel n = Ret s ->
  s = sol_zero \/
  exists a b c, s = set_sol sol_zero a b c /\
                0 <= a /\ a <= b /\ b <= c /\ c < two128 /\
                (4 * a * b * c = n * (a * b + b * c + a * c) \/
                 verify128 n a b c <> 0).
Proof.
  intros Hn H. rewrite two64_eq in Hn. unfold solve_erdos_straus in H.
  assert (Hc : forall a b c, 0 <= a -> a <= b -> b <= c -> c < two128 ->
               4 * a * b * c = n * (a * b + b * c + a * c) ->
               Ret (set_sol sol_zero a b c) = Ret s ->
               s = sol_zero \/
               exists a b c, s = set_sol sol_zero a b c /\
                 0 <= a /\ a <= b /\ b <= c /\ c < two128 /\
                 (4 * a * b * c = n * (a * b + b * c + a * c) \/
                  verify128 n a b c <> 0)).
  { intros a b c H0 H1 H2 H3 H4 E. injection E as <-. right.
    exists a, b, c. split; [reflexivity|]. repeat split; auto. }
  destruct (Z.leb_spec n 1) as [?|_]; [injection H as <-; now left|].
  destruct (Z.eqb_spec n 2) as [->|_];
    [apply (Hc 1 2 2); auto; rewrite ?two128_eq; lia|].
  destruct (Z.eqb_spec n 3) as [->|_];
    [apply (Hc 1 4 12); auto; rewrite ?two128_eq; lia|].
  destruct (Z.eqb_spec n 4) as [->|_];
    [apply (Hc 2 4 4); auto; rewrite ?two128_eq; lia|].
  destruct (Z.eqb_spec n 5) as [->|_];
    [apply (Hc 2 4 20); auto; rewrite ?two128_eq; lia|].
  destruct (Z.eqb_spec (n mod 2) 0) as [Hev|Hodd].
  - assert (Hm : n = 2 * (n / 2)) by (pose proof (Z.div_mod n 2 ltac:(lia)); lia).
    rewrite (u128_small (2 * (n / 2))) in H by (rewrite two128_eq; lia).
    apply (Hc (n / 2) (2 * (n / 2)) (2 * (n / 2))); auto;
      try (rewrite ?two128_eq; lia).
  - destruct (Z.eqb_spec (n mod 4) 3) as [H3|_].
    + pose proof (u64_range (n + 1)) as Hr. rewrite two64_eq in Hr.
      set (q := u64 (n + 1) / 4) in *.
      assert (Hq : 0 <= q < 4611686018427387904).
      { unfold q. split; [apply Z.div_pos; lia|].
        apply Z.div_lt_upper_bound; lia. }
      assert (Hqn : n * q + q = 4 * q * q).
      { destruct (Z.eq_dec n 18446744073709551615) as [->|Hne].
        - vm_compute in q. subst q. reflexivity.
        - assert (E : n + 1 = 4 * q).
          { unfold q. rewrite (u64_small (n + 1)) by (rewrite two64_eq; lia).
            pose proof (Z.div_mod (n + 1) 4 ltac:(lia)) as E.
            replace ((n + 1) mod 4) with 0 in E; [lia|].
            rewrite <- Z.add_mod_idemp_l, H3 by lia. reflexivity. }
          clearbody q. nia. }
      rewrite (u128_small (n * q)) in H by (rewrite two128_eq; nia).
      rewrite (u128_small (2 * (n * q))) in H by (rewrite two128_eq; nia).
      apply (Hc q (2 * (n * q)) (2 * (n * q))); auto; try (rewrite ?two128_eq; nia).
      clearbody q. clear - Hqn.
      replace (4 * q * (2 * (n * q)) * (2 * (n * q)))
        with (4 * (n * q) * (n * q) * (4 * q)) by ring.
      replace (n * (q * (2 * (n * q)) + 2 * (n * q) * (2 * (n * q)) + q * (2 * (n * q))))
        with (4 * (n * q) * (n * q + q) * n) by ring.
      rewrite Hqn. ring.
    + destruct mem_ok; cbn [negb] in H; [|injection H as <-; now left].
      apply search_sound in H.
      * destruct H as [->|(x & y & z & -> & H0 & H1 & H2 & H3 & H4)]; [now left|].
        right. exists x, y, z. split; [reflexivity|]. repeat split; auto.
      * unfold x_min_of. apply Z.div_pos; [|lia]. pose proof (u64_range (n + 3)). lia.
Qed.

(** Whatever [solve_erdos_straus] returns on a 64-bit n: with found = 0
    the struct is all zero; with found = 1 the words hold a triple
    a <= b <= c below 2^128 that satisfies 4abc = n(ab + bc + ac) modulo
    each of the four verifier primes. *)
Theorem solve_found_is_verified mem_ok fuel n s :
  0 <= n < two64 -> solve_erdos_straus mem_ok fuel n = Ret s ->
  (found s = 0 /\ s = sol_zero) \/
  (found s = 1 /\ 0 <= sol_a s /\ sol_a s <= sol_b s /\ sol_b s <= sol_c s /\
   sol_c s < two128 /\
   Forall (congruent_at n (sol_a s) (sol_b s) (sol_c s)) mods).
Proof.
  intros Hn H. destruct (solve_cases mem_ok fuel n s Hn H)
    as [->|(a & b & c & -> & H0 & H1 & H2 & H3 & Hid)]; [left; split; reflexivity|].
  right. destruct (set_sol_ordered sol_zero a b c H0 H1 H2 H3) as (Ea & Eb & Ec & Ef).
  rewrite Ea, Eb, Ec. split; [exact Ef|]. repeat split; try lia.
  destruct Hid as [Hex|Hv].
  - apply Forall_forall. intros p _. unfold congruent_at. rewrite Hex. reflexivity.
  - destruct (verify_loop_pass mods n a b c mods_small) as [[H1'|H0'] Hiff].
    + apply Hiff. exact H1'.
    + exfalso. apply Hv. exact H0'.
Qed.

Lemma solve_found_is_verified_witness :
  (found (mkSolution 4 0 18 0 468 0 1) = 0 /\ mkSolution 4 0 18 0 468 0 1 = sol_zero) \/
  (found (mkSolution 4 0 18 0 468 0 1) = 1 /\
   0 <= sol_a (mkSolution 4 0 18 0 468 0 1) /\
   sol_a (mkSolution 4 0 18 0 468 0 1) <= sol_b (mkSolution 4 0 18 0 468 0 1) /\
   sol_b (mkSolution 4 0 18 0 468 0 1) <= sol_c (mkSolution 4 0 18 0 468 0 1) /\
   sol_c (mkSolution 4 0 18 0 468 0 1) < two128 /\
   Forall (congruent_at 13 (sol_a (mkSolution 4 0 18 0 468 0 1))
             (sol_b (mkSolution 4 0 18 0 468 0 1))
             (sol_c (mkSolution 4 0 18 0 468 0 1))) mods).
Proof.
  apply (solve_found_is_verified true 3 13).
  - rewrite two64_eq. lia.
  - vm_compute. reflexivity.
Defined.

End SolveSound.

(** ** The divisor buffer *)

Section DivisorBuffer.

(** What the expansion loops keep: the entries already written stay, the
    new ones are 64-bit values, and the count stays within the buffer. *)
Definition extends (divs divs' : list Z) : Prop :=
  exists t, divs' = divs ++ t /\ Forall is_u64 t /\
            (count_of divs <= MAX_DIVS -> count_of divs' <= MAX_DIVS).

Lemma extends_refl divs : extends divs divs.
Proof.
  exists []. rewrite app_nil_r. split; [reflexivity|]. split; [constructor|auto].
Qed.

Lemma extends_trans a b c : extends a b -> extends b c -> extends a c.
Proof.
  intros (t & -> & Ht & Hl) (t' & -> & Ht' & Hl').
  exists (t ++ t'). rewrite app_assoc. split; [reflexivity|].
  split; [apply Forall_app; split; assumption|]. intros H. apply Hl'. apply Hl. exact H.
Qed.

Lemma extends_snoc divs v :
  count_of divs < MAX_DIVS -> extends divs (divs ++ [u64 v]).
Proof.
  intros Hlt. exists [u64 v]. split; [reflexivity|]. split.
  - constructor; [apply u64_range|constructor].
  - intros _. unfold count_of in *. rewrite length_app. cbn [length]. lia.
Qed.

Lemma loop_j_extends rem : forall j pe divs, extends divs (loop_j rem j pe divs).
Proof.
  induction rem as [|rem IH]; intros j pe divs; cbn [loop_j].
  - apply extends_refl.
  - destruct (Z.ltb_spec (count_of divs) MAX_DIVS) as [Hlt|_]; [|apply extends_refl].
    eapply extends_trans; [apply extends_snoc; exact Hlt|apply IH].
Qed.

Lemma loop_e_extends rem : forall prev pr pe divs,
  extends divs (loop_e rem prev pr pe divs).
Proof.
  induction rem as [|rem IH]; intros prev pr pe divs; cbn [loop_e].
  - apply extends_refl.
  - destruct (count_of divs <? MAX_DIVS); [|apply extends_refl].
    cbv zeta. eapply extends_trans; [apply loop_j_extends|apply IH].
Qed.

Lemma loop_i_extends fs : forall divs, extends divs (loop_i fs divs).
Proof.
  induction fs as [|f fs IH]; intros divs; cbn [loop_i].
  - apply extends_refl.
  - destruct (count_of divs <? MAX_DIVS); [|apply extends_refl].
    eapply extends_trans; [apply loop_e_extends|apply IH].
Qed.

(** The entries of the divisor buffer: count, first entry, range. *)
Lemma get_divisors_entries fuel p x divs :
  get_divisors_p2x2 fuel p x = Ret divs ->
  1 <= count_of divs <= MAX_DIVS /\ nth 0 divs 0 = 1 /\ Forall is_u64 divs.
Proof.
  unfold get_divisors_p2x2. intros H.
  destruct (factorize fuel x) as [fs| |]; cbn [bind] in H; try discriminate.
  injection H as <-.
  destruct (loop_i_extends (all_factors_of p fs) [1]) as (t & -> & Ht & Hl).
  split; [|split].
  - split; [unfold count_of; cbn [app length]; lia|].
    apply Hl. unfold count_of, MAX_DIVS. cbn [length]. lia.
  - reflexivity.
  - constructor; [|exact Ht]. unfold is_u64. rewrite two64_eq. lia.
Qed.

(** Whatever [p] and [x] are, [get_divisors_p2x2] writes between 1 and
    MAX_DIVS entries, so it stays inside the buffer of MAX_DIVS words; the
    first entry is 1 and every entry is a 64-bit value. *)
Theorem get_divisors_within_buffer fuel p x divs :
  get_divisors_p2x2 fuel p x = Ret divs ->
  1 <= count_of divs <= MAX_DIVS /\ nth 0 divs 0 = 1 /\ Forall is_u64 divs.
Proof.
  intros H. destruct (get_divisors_entries fuel p x divs H) as (Hcount & Hfirst & Hrange).
  split; [exact Hcount|]. split; [exact Hfirst|exact Hrange].
Qed.

Lemma get_divisors_within_buffer_witness :
  1 <= count_of [1; 2; 4; 8; 16; 13; 26; 52; 104; 208; 169; 338; 676; 1352; 2704]
    <= MAX_DIVS /\
  nth 0 [1; 2; 4; 8; 16; 13; 26; 52; 104; 208; 169; 338; 676; 1352; 2704] 0 = 1 /\
  Forall is_u64 [1; 2; 4; 8; 16; 13; 26; 52; 104; 208; 169; 338; 676; 1352; 2704].
Proof.
  apply (get_divisors_within_buffer 3 13 4). vm_compute. reflexivity.
Defined.

End DivisorBuffer.

(** ** Exactness of accepted candidates for small n *)

Section ExactSmall.

(** An accepted candidate, with the sizes the loop guarantees: [d1] is
    at most [nx], so y z is at most 2 nx (D + nx). *)
Lemma try_divs_bounds ds : forall n x A A64 nx D t sol s,
  Forall is_u64 ds -> 0 < A -> 0 <= nx -> 0 <= D -> D + nx < two128 ->
  2 * nx < two128 ->
  try_divs ds n x A A64 nx D t sol = Ret (Some s) ->
  exists y z, s = set_sol sol x y z /\ x <= y /\ y <= z /\ z < two128 /\
              verify128 n x y z <> 0 /\ y * z <= 2 * nx * (D + nx).
Proof.
  induction ds as [|d1 ds IH]; intros n x A A64 nx D t sol s Hds HA Hnx HD Hsum H2 H;
    cbn [try_divs] in H; [discriminate|].
  inversion Hds as [|? ? [Hd0 _] Hds']; subst.
  destruct (Z.ltb_spec nx d1) as [?|Hle]; [eauto|].
  destruct (negb (d1 mod A64 =? t)); [eauto|].
  destruct (Z.eqb_spec d1 0) as [?|Hd1]; [discriminate|].
  cbv zeta in H.
  destruct (negb (u128 (D / d1 + nx) mod A =? 0)); [eauto|].
  assert (Hq : 0 <= D / d1 <= D).
  { split; [apply Z.div_pos; lia|]. apply Z.div_le_upper_bound; [lia|nia]. }
  rewrite (u128_small (d1 + nx)) in H by lia.
  rewrite (u128_small (D / d1 + nx)) in H by lia.
  assert (Hy : 0 <= (d1 + nx) / A <= 2 * nx).
  { split; [apply Z.div_pos; lia|]. apply Z.div_le_upper_bound; [lia|nia]. }
  assert (Hz : 0 <= (D / d1 + nx) / A <= D + nx).
  { split; [apply Z.div_pos; lia|]. apply Z.div_le_upper_bound; [lia|nia]. }
  set (y0 := (d1 + nx) / A) in *. set (z0 := (D / d1 + nx) / A) in *.
  assert (Hyz : y0 * z0 <= 2 * nx * (D + nx)) by nia.
  destruct (Z.ltb_spec y0 x) as [?|Hyx]; [eauto|].
  destruct (Z.ltb_spec z0 y0) as [Hzy|Hzy].
  - destruct (Z.ltb_spec z0 x) as [?|Hzx]; [eauto|].
    destruct (Z.eqb_spec (verify128 n x z0 y0) 0) as [?|Hv]; cbn [negb] in H; [eauto|].
    injection H as <-. exists z0, y0. split; [reflexivity|].
    split; [lia|]. split; [lia|]. split; [lia|]. split; [exact Hv|lia].
  - destruct (Z.ltb_spec y0 x) as [?|_]; [lia|].
    destruct (Z.eqb_spec (verify128 n x y0 z0) 0) as [?|Hv]; cbn [negb] in H; [eauto|].
    injection H as <-. exists y0, z0. split; [reflexivity|].
    split; [lia|]. split; [lia|]. split; [lia|]. split; [exact Hv|lia].
Qed.

Lemma try_x_bounds fuel n x sol s :
  0 <= n -> 0 <= x -> n * x < two64 ->
  try_x fuel n x sol = Ret (Some s) ->
  exists y z, s = set_sol sol x y z /\ x <= y /\ y <= z /\ z < two128 /\
              verify128 n x y z <> 0 /\
              y * z <= 2 * (n * x) * (n * x * (n * x) + n * x).
Proof.
  intros Hn Hx Hnx H. unfold try_x in H. rewrite two64_eq in Hnx.
  destruct (Z.eqb_spec (A_of n x) 0) as [?|HA]; [discriminate|].
  destruct (get_divisors_p2x2 fuel n x) as [divs| |] eqn:E; cbn [bind] in H;
    try discriminate.
  destruct (A64_of n x =? 0); [discriminate|].
  assert (H0 : 0 <= n * x) by nia.
  rewrite (u128_small (n * x)) in H by (rewrite two128_eq; lia).
  rewrite (u128_small (n * x * (n * x))) in H by (rewrite two128_eq; nia).
  apply try_divs_bounds in H; auto.
  - apply (get_divisors_entries fuel n x divs E).
  - pose proof (u128_range (u128 (4 * x) - n)). unfold A_of in *. lia.
  - nia.
  - rewrite two128_eq. nia.
  - rewrite two128_eq. lia.
Qed.

Lemma search_bounds steps : forall fuel n x x_max sol s,
  0 <= n -> 0 <= x -> n * x_max < two64 -> x_max < two64 - 1 ->
  search steps fuel n x x_max sol = Ret s ->
  s = sol \/
  exists x' y z, s = set_sol sol x' y z /\ x <= x' <= x_max /\ x' <= y /\ y <= z /\
                 z < two128 /\ verify128 n x' y z <> 0 /\
                 y * z <= 2 * (n * x') * (n * x' * (n * x') + n * x').
Proof.
  induction steps as [|steps IH]; intros fuel n x x_max sol s Hn Hx Hnx Hmax H;
    cbn [search] in H.
  - injection H as <-. now left.
  - destruct (Z.leb_spec x x_max) as [Hle|_]; [|injection H as <-; now left].
    destruct (try_x fuel n x sol) as [[s'|]| |] eqn:E; cbn [bind] in H; try discriminate.
    + injection H as <-. right. apply try_x_bounds in E; [|lia|lia|nia].
      destruct E as (y & z & E). exists x, y, z. split; [tauto|]. split; [lia|tauto].
    + rewrite (u64_small (x + 1)) in H by lia.
      apply IH in H; auto; [|lia].
      destruct H as [->|(x' & y & z & H)]; [now left|right].
      exists x', y, z. split; [tauto|]. split; [lia|tauto].
Qed.

(** The product of the four verifier moduli. *)
Definition mods_product : Z := 1000000007 * 1000000009 * 998244353 * 999999937.

Lemma coprime_mul_divides a b m :
  Z.gcd a b = 1 -> (a | m) -> (b | m) -> (a * b | m).
Proof.
  intros Hg [k Hk] Hb. subst m.
  assert (Hbk : (b | k)).
  { apply (Z.gauss b a k); [rewrite Z.mul_comm; exact Hb|].
    rewrite Z.gcd_comm. exact Hg. }
  destruct Hbk as [j ->]. exists j. ring.
Qed.

Lemma congruent_divides a b p : 0 < p -> a mod p = b mod p -> (p | a - b).
Proof.
  intros Hp H. apply Z.mod_divide; [lia|].
  rewrite Zminus_mod, H, Z.sub_diag. apply Z.mod_0_l. lia.
Qed.

(** Agreement at the four moduli is agreement modulo their product. *)
Lemma moduli_product_divides n a b c :
  Forall (congruent_at n a b c) mods ->
  (mods_product | 4 * a * b * c - n * (a * b + b * c + a * c)).
Proof.
  intros H. unfold mods in H.
  inversion H as [|? ? H1 Ha]; subst. inversion Ha as [|? ? H2 Hb]; subst.
  inversion Hb as [|? ? H3 Hc]; subst. inversion Hc as [|? ? H4 _]; subst.
  unfold congruent_at in *.
  apply congruent_divides in H1; [|lia]. apply congruent_divides in H2; [|lia].
  apply congruent_divides in H3; [|lia]. apply congruent_divides in H4; [|lia].
  unfold mods_product.
  apply coprime_mul_divides; [reflexivity| |exact H4].
  apply coprime_mul_divides; [reflexivity| |exact H3].
  apply coprime_mul_divides; [reflexivity|exact H1|exact H2].
Qed.

Lemma exact_of_moduli n a b c :
  Forall (congruent_at n a b c) mods ->
  0 <= 4 * a * b * c < mods_product ->
  0 <= n * (a * b + b * c + a * c) < mods_product ->
  4 * a * b * c = n * (a * b + b * c + a * c).
Proof.
  intros H HL HR. pose proof (moduli_product_divides n a b c H) as [k Hk].
  unfold mods_product in *. nia.
Qed.

(** How the solver dispatches below 2^64 - 3: a closed form, which is an
    exact positive triple, or the search over the window, or in its place
    the zeroed struct when no memory is to be had. *)
Lemma solve_dispatch mem_ok fuel n s :
  2 <= n < two64 - 3 -> solve_erdos_straus mem_ok fuel n = Ret s ->
  (exists a b c, s = set_sol sol_zero a b c /\
                 1 <= a /\ a <= b /\ b <= c /\ c < two128 /\
                 4 * a * b * c = n * (a * b + b * c + a * c)) \/
  (n mod 4 = 1 /\ 5 < n /\
   (s = sol_zero \/
    search (Z.to_nat 50001) fuel n ((n + 3) / 4) ((n + 3) / 4 + 50000) sol_zero
    = Ret s)).
Proof.
  intros Hn H. rewrite two64_eq in Hn. unfold solve_erdos_straus in H.
  assert (Hc : forall a b c, 1 <= a -> a <= b -> b <= c -> c < two128 ->
               4 * a * b * c = n * (a * b + b * c + a * c) ->
               Ret (set_sol sol_zero a b c) = Ret s ->
               exists a b c, s = set_sol sol_zero a b c /\
                 1 <= a /\ a <= b /\ b <= c /\ c < two128 /\
                 4 * a * b * c = n * (a * b + b * c + a * c)).
  { intros a b c H0 H1 H2 H3 H4 E. injection E as <-.
    exists a, b, c. split; [reflexivity|]. repeat split; auto. }
  destruct (Z.leb_spec n 1) as [?|_]; [lia|].
  destruct (Z.eqb_spec n 2) as [->|N2];
    [left; apply (Hc 1 2 2); auto; rewrite ?two128_eq; lia|].
  destruct (Z.eqb_spec n 3) as [->|N3];
    [left; apply (Hc 1 4 12); auto; rewrite ?two128_eq; lia|].
  destruct (Z.eqb_spec n 4) as [->|N4];
    [left; apply (Hc 2 4 4); auto; rewrite ?two128_eq; lia|].
  destruct (Z.eqb_spec n 5) as [->|N5];
    [left; apply (Hc 2 4 20); auto; rewrite ?two128_eq; lia|].
  destruct (Z.eqb_spec (n mod 2) 0) as [Hev|Hodd].
  - left.
    assert (Hm : n = 2 * (n / 2)) by (pose proof (Z.div_mod n 2 ltac:(lia)); lia).
    rewrite (u128_small (2 * (n / 2))) in H by (rewrite two128_eq; lia).
    apply (Hc (n / 2) (2 * (n / 2)) (2 * (n / 2))); auto;
      try (rewrite ?two128_eq; lia).
  - destruct (Z.eqb_spec (n mod 4) 3) as [H3|Hn3].
    + left. rewrite (u64_small (n + 1)) in H by (rewrite two64_eq; lia).
      set (q := (n + 1) / 4) in *.
      assert (E : n + 1 = 4 * q).
      { unfold q. pose proof (Z.div_mod (n + 1) 4 ltac:(lia)) as E.
        replace ((n + 1) mod 4) with 0 in E; [lia|].
        rewrite <- Z.add_mod_idemp_l, H3 by lia. reflexivity. }
      clearbody q.
      rewrite (u128_small (n * q)) in H by (rewrite two128_eq; nia).
      rewrite (u128_small (2 * (n * q))) in H by (rewrite two128_eq; nia).
      apply (Hc q (2 * (n * q)) (2 * (n * q))); auto; try (rewrite ?two128_eq; nia).
    + right.
      assert (H1 : n mod 4 = 1).
      { clear - Hodd Hn3. Z.div_mod_to_equations. lia. }
      split; [exact H1|]. split; [lia|].
      unfold x_max_of, x_min_of in H.
      rewrite (u64_small (n + 3)) in H by (rewrite two64_eq; lia).
      assert (0 <= (n + 3) / 4 < 4611686018427387904).
      { split; [apply Z.div_pos; lia|]. apply Z.div_lt_upper_bound; lia. }
      rewrite (u64_small ((n + 3) / 4 + 50000)) in H by (rewrite two64_eq; lia).
      replace ((n + 3) / 4 + 50000 - (n + 3) / 4 + 1) with 50001 in H by lia.
      destruct mem_ok; cbn [negb] in H; [right; exact H|].
      left. injection H as <-. reflexivity.
Qed.

(** For every n from 2 to 100000, a return with found = 1 carries an
    exact solution: 0 < a <= b <= c and 4abc = n(ab + bc + ac) over the
    integers.  In the search branch the four congruences decide it, since
    both sides stay below the product of the moduli. *)
Theorem solve_found_exact_to_100000 mem_ok fuel n s :
  2 <= n <= 100000 -> solve_erdos_straus mem_ok fuel n = Ret s -> found s = 1 ->
  0 < sol_a s /\ sol_a s <= sol_b s /\ sol_b s <= sol_c s /\
  4 * sol_a s * sol_b s * sol_c s
  = n * (sol_a s * sol_b s + sol_b s * sol_c s + sol_a s * sol_c s).
Proof.
  intros Hn H Hf.
  destruct (solve_dispatch mem_ok fuel n s ltac:(rewrite two64_eq; lia) H)
    as [(a & b & c & -> & H0 & H1 & H2 & H3 & Hid)|(Hmod & H5 & [->|Hs])];
    [|discriminate Hf|].
  - destruct (set_sol_ordered sol_zero a b c ltac:(lia) H1 H2 H3) as (Ea & Eb & Ec & _).
    rewrite Ea, Eb, Ec. split; [lia|]. split; [lia|]. split; [lia|exact Hid].
  - assert (Hx0 : 1 <= (n + 3) / 4 <= 25000).
    { clear - Hn. Z.div_mod_to_equations. lia. }
    apply search_bounds in Hs; try (rewrite ?two64_eq; nia).
    destruct Hs as [->|(x & y & z & -> & Hx & Hxy & Hyz & Hz & Hv & Hprod)];
      [discriminate Hf|].
    destruct (set_sol_ordered sol_zero x y z ltac:(lia) Hxy Hyz Hz) as (Ea & Eb & Ec & _).
    rewrite Ea, Eb, Ec. split; [lia|]. split; [lia|]. split; [lia|].
    destruct (verify_loop_pass mods n x y z mods_small) as [[Hp|Hz0] Hiff];
      [|exfalso; apply Hv; exact Hz0].
    apply Hiff in Hp.
    assert (HB : 0 <= n * x <= 7500000000) by nia.
    set (B := n * x) in *.
    assert (HB2 : 0 <= B * B <= 56250000000000000000) by nia.
    assert (Hyz' : 0 <= y * z <= 843750000112500000000000000000) by nia.
    assert (Hxy' : 0 <= x * y <= y * z) by nia.
    assert (Hxz' : 0 <= x * z <= y * z) by nia.
    apply exact_of_moduli; [exact Hp| |]; unfold mods_product.
    + replace (4 * x * y * z) with (4 * x * (y * z)) by ring. nia.
    + nia.
Qed.

Lemma solve_found_exact_to_100000_witness :
  0 < sol_a (mkSolution 5 0 30 0 510 0 1) /\
  sol_a (mkSolution 5 0 30 0 510 0 1) <= sol_b (mkSolution 5 0 30 0 510 0 1) /\
  sol_b (mkSolution 5 0 30 0 510 0 1) <= sol_c (mkSolution 5 0 30 0 510 0 1) /\
  4 * sol_a (mkSolution 5 0 30 0 510 0 1) * sol_b (mkSolution 5 0 30 0 510 0 1)
    * sol_c (mkSolution 5 0 30 0 510 0 1)
  = 17 * (sol_a (mkSolution 5 0 30 0 510 0 1) * sol_b (mkSolution 5 0 30 0 510 0 1)
          + sol_b (mkSolution 5 0 30 0 510 0 1) * sol_c (mkSolution 5 0 30 0 510 0 1)
          + sol_a (mkSolution 5 0 30 0 510 0 1) * sol_c (mkSolution 5 0 30 0 510 0 1)).
Proof.
  apply (solve_found_exact_to_100000 true 3 17).
  - lia.
  - vm_compute. reflexivity.
  - reflexivity.
Defined.

End ExactSmall.

(** ** fast_core.c: the palindrome test *)

Section Palindrome.
Import Core.

(** A list reads the same in both directions iff mirrored positions agree. *)
Lemma rev_eq_iff_mirror (l : list Z) :
  l = rev l <->
  forall t, (t < length l)%nat -> nth t l 0 = nth (length l - 1 - t) l 0.
Proof.
  split.
  - intros E t Ht. rewrite E at 1. rewrite rev_nth by exact Ht.
    f_equal. lia.
  - intros H. apply (nth_ext _ _ 0 0); [now rewrite length_rev|].
    intros t Ht. rewrite rev_nth by exact Ht. rewrite (H t Ht). f_equal. lia.
Qed.

(** The loop answers 1 exactly when all the pairs still ahead agree. *)
Lemma pal_loop_spec d len : forall k i j,
  0 <= i -> i + j = len - 1 -> j - i <= 2 * Z.of_nat k ->
  (pal_loop k d i j = 1 \/ pal_loop k d i j = 0) /\
  (pal_loop k d i j = 1 <->
   forall t, i <= t -> t < len - 1 - t ->
             nth (Z.to_nat t) d 0 = nth (Z.to_nat (len - 1 - t)) d 0).
Proof.
  induction k as [|k IH]; intros i j Hi Hij Hk; cbn [pal_loop].
  - split; [now left|]. split; [|reflexivity]. intros _ t Ht1 Ht2. lia.
  - destruct (Z.ltb_spec i j) as [Hlt|Hge].
    + destruct (Z.eqb_spec (nth (Z.to_nat i) d 0) (nth (Z.to_nat j) d 0)) as [E|Hne];
        cbn [negb].
      * destruct (IH (i + 1) (j - 1) ltac:(lia) ltac:(lia) ltac:(lia)) as [Hbit Hiff].
        split; [exact Hbit|]. rewrite Hiff. split; intros H t Ht1 Ht2.
        { destruct (Z.eq_dec t i) as [->|Hn].
          - replace (len - 1 - i) with j by lia. exact E.
          - apply H; lia. }
        { apply H; lia. }
      * split; [now right|]. split; [discriminate|]. intros H. exfalso. apply Hne.
        replace j with (len - 1 - i) by lia. apply H; lia.
    + split; [now left|]. split; [|reflexivity]. intros _ t Ht1 Ht2. lia.
Qed.

(** The answer of [is_palindrome] on the first [len] entries. *)
Lemma is_palindrome_spec d len :
  (len <= length d)%nat ->
  let l := firstn len d in
  (is_palindrome d (Z.of_nat len) = 1 <-> l = rev l) /\
  (is_palindrome d (Z.of_nat len) = 0 <-> l <> rev l).
Proof.
  intros Hlen l. unfold is_palindrome. rewrite Nat2Z.id.
  destruct (pal_loop_spec d (Z.of_nat len) len 0 (Z.of_nat len - 1)
              ltac:(lia) ltac:(lia) ltac:(lia)) as [Hbit Hiff].
  assert (Hl : length l = len) by (unfold l; rewrite length_firstn; lia).
  assert (Hnth : forall t, (t < len)%nat -> nth t l 0 = nth t d 0).
  { intros t Ht. unfold l. rewrite <- (firstn_skipn len d) at 2.
    rewrite app_nth1; [reflexivity|]. rewrite length_firstn. lia. }
  assert (Hmain : pal_loop len d 0 (Z.of_nat len - 1) = 1 <-> l = rev l).
  { rewrite Hiff, rev_eq_iff_mirror, Hl. split; intros H t.
    - intros Ht. rewrite !Hnth by lia.
      destruct (Nat.lt_total t (len - 1 - t)) as [Hlt|[Heq|Hgt]].
      + specialize (H (Z.of_nat t) ltac:(lia) ltac:(lia)).
        rewrite Nat2Z.id in H. rewrite H. f_equal. lia.
      + rewrite <- Heq. reflexivity.
      + specialize (H (Z.of_nat (len - 1 - t)) ltac:(lia) ltac:(lia)).
        rewrite Nat2Z.id in H. rewrite H. f_equal. lia.
    - intros Ht1 Ht2. specialize (H (Z.to_nat t) ltac:(lia)).
      rewrite !Hnth in H by lia. rewrite H. f_equal. lia. }
  split; [exact Hmain|]. split.
  - intros H0 E. apply Hmain in E. lia.
  - intros Hne. destruct Hbit as [H1|H0]; [|exact H0].
    exfalso. apply Hne. apply Hmain. exact H1.
Qed.

(** [is_palindrome d len] returns 1 when the first [len] entries of [d]
    read the same backwards, and 0 otherwise; for [len] of at most 1,
    negative ones included, it is 1. *)
Theorem is_palindrome_decides d len :
  len <= Z.of_nat (length d) ->
  let l := firstn (Z.to_nat len) d in
  (is_palindrome d len = 1 <-> l = rev l) /\
  (is_palindrome d len = 0 <-> l <> rev l).
Proof.
  intros Hlen. destruct (Z_le_gt_dec 0 len) as [Hpos|Hneg].
  - pose proof (is_palindrome_spec d (Z.to_nat len) ltac:(lia)) as H.
    cbv zeta in H. rewrite Z2Nat.id in H by lia. exact H.
  - cbv zeta. unfold is_palindrome.
    replace (Z.to_nat len) with 0%nat by lia. cbn [pal_loop firstn rev].
    split; split; intros H; try reflexivity; try discriminate.
    exfalso. apply H. reflexivity.
Qed.

Lemma is_palindrome_decides_witness :
  let l := firstn (Z.to_nat 3) [1; 2; 1; 7] in
  (is_palindrome [1; 2; 1; 7] 3 = 1 <-> l = rev l) /\
  (is_palindrome [1; 2; 1; 7] 3 = 0 <-> l <> rev l).
Proof.
  apply (is_palindrome_decides [1; 2; 1; 7] 3). simpl. lia.
Defined.

End Palindrome.

(** ** fast_core.c: reverse and add on digit lists *)

Section ReverseAdd.
Import Mem Core.

(** Schoolbook addition of two digit lists, least significant digit
    first, with a carry in and a carry out. *)
Fixpoint add_le (c : Z) (xs ys : list Z) : Z * list Z :=
  match xs, ys with
  | x :: xs', y :: ys' =>
      let sum := x + y + c in
      let '(c', r) := add_le (sum / 10) xs' ys' in
      (c', sum mod 10 :: r)
  | _, _ => (c, [])
  end.

(** The digits, most significant first, of a number plus its reversal,
    as the two branches of [add_reverse] leave them. *)
Definition radd (ds : list Z) : list Z :=
  let '(c, r) := add_le 0 (rev ds) ds in
  if c =? 0 then rev r else c :: rev r.

(** The number a digit list stands for. *)
Fixpoint le_value (l : list Z) : Z :=
  match l with
  | [] => 0
  | d :: l' => d + 10 * le_value l'
  end.

Definition value (ds : list Z) : Z := le_value (rev ds).

Lemma add_le_length c xs ys :
  length xs = length ys -> length (snd (add_le c xs ys)) = length xs.
Proof.
  revert c ys. induction xs as [|x xs IH]; intros c [|y ys] H; cbn [add_le];
    try reflexivity; try discriminate.
  cbv zeta. specialize (IH ((x + y + c) / 10) ys ltac:(cbn [length] in H; lia)).
  destruct (add_le ((x + y + c) / 10) xs ys) as [c' r]. cbn [snd length] in *. lia.
Qed.

Lemma add_le_value c xs ys :
  length xs = length ys ->
  le_value (snd (add_le c xs ys)) + 10 ^ Z.of_nat (length xs) * fst (add_le c xs ys)
  = le_value xs + le_value ys + c.
Proof.
  revert c ys. induction xs as [|x xs IH]; intros c [|y ys] H; cbn [add_le];
    try discriminate.
  - cbn [le_value snd fst length]. change (10 ^ Z.of_nat 0) with 1. lia.
  - cbv zeta. specialize (IH ((x + y + c) / 10) ys ltac:(cbn [length] in H; lia)).
    destruct (add_le ((x + y + c) / 10) xs ys) as [c' r]. cbn [snd fst le_value] in *.
    cbn [length]. rewrite Nat2Z.inj_succ, Z.pow_succ_r by lia.
    pose proof (Z.div_mod (x + y + c) 10 ltac:(lia)). lia.
Qed.

Lemma le_value_app l m :
  le_value (l ++ m) = le_value l + 10 ^ Z.of_nat (length l) * le_value m.
Proof.
  induction l as [|d l IH]; cbn [app le_value length].
  - change (10 ^ Z.of_nat 0) with 1. lia.
  - rewrite IH, Nat2Z.inj_succ, Z.pow_succ_r by lia. ring.
Qed.

Lemma radd_value_eq ds : value (radd ds) = value ds + value (rev ds).
Proof.
  unfold radd, value. rewrite rev_involutive.
  pose proof (add_le_value 0 (rev ds) ds ltac:(now rewrite length_rev)) as H.
  pose proof (add_le_length 0 (rev ds) ds ltac:(now rewrite length_rev)) as Hl.
  destruct (add_le 0 (rev ds) ds) as [c r]. cbn [fst snd] in *.
  destruct (Z.eqb_spec c 0) as [->|Hc].
  - rewrite rev_involutive. lia.
  - cbn [rev]. rewrite rev_involutive, le_value_app. cbn [le_value]. rewrite Hl. lia.
Qed.

Lemma upd_firstn l : forall i m v, (m <= i)%nat -> firstn m (upd l i v) = firstn m l.
Proof.
  induction l as [|h t IH]; intros [|i] [|m] v H; cbn [upd firstn]; try reflexivity;
    try lia.
  f_equal. apply IH. lia.
Qed.

Lemma upd_skipn l : forall i v,
  (i < length l)%nat -> skipn i (upd l i v) = v :: skipn (S i) l.
Proof.
  induction l as [|h t IH]; intros [|i] v H; cbn [length] in H; try lia.
  - reflexivity.
  - cbn [upd]. rewrite !skipn_cons. apply IH. lia.
Qed.

Lemma rev_firstn_succ (l : list Z) i :
  (i < length l)%nat -> rev (firstn (S i) l) = nth i l 0 :: rev (firstn i l).
Proof.
  intros H. assert (E : firstn (S i) l = firstn i l ++ [nth i l 0]).
  { revert i H. induction l as [|h t IH]; intros [|i] H; cbn [length] in H; try lia.
    - reflexivity.
    - cbn [firstn nth app]. f_equal. apply IH. lia. }
  rewrite E, rev_app_distr. reflexivity.
Qed.

(** The digit read at the mirrored index [len - 1 - i]. *)
Definition mirror (d : list Z) (n : nat) : list Z := rev (firstn n d).

Lemma mirror_nth d n i :
  (n <= length d)%nat -> (i < n)%nat ->
  nth (Z.to_nat (Z.of_nat n - 1 - Z.of_nat i)) d 0 = nth i (mirror d n) 0.
Proof.
  intros Hn Hi. unfold mirror.
  rewrite rev_nth by (rewrite length_firstn; lia).
  rewrite length_firstn, Nat.min_l by lia.
  replace (Z.to_nat (Z.of_nat n - 1 - Z.of_nat i)) with (n - S i)%nat by lia.
  rewrite <- (firstn_skipn n d) at 1. rewrite app_nth1; [reflexivity|].
  rewrite length_firstn. lia.
Qed.

(** The addition loop writes, behind the first cell, the digits of the
    sum, most significant first, and hands back the last carry. *)
Lemma add_loop_pure d n : (n <= length d)%nat ->
  forall k c result,
    (k <= n)%nat -> (k < length result)%nat ->
    let xs := rev (firstn k d) in
    let ys := rev (firstn k (mirror d n)) in
    add_loop k d (Z.of_nat n) c result
    = Ret (fst (add_le c xs ys),
           firstn 1 result ++ rev (snd (add_le c xs ys)) ++ skipn (S k) result).
Proof.
  intros Hn. induction k as [|i IH]; intros c result Hk Hlen; cbv zeta.
  - cbn [add_loop]. change (firstn 0 d) with (@nil Z).
    change (firstn 0 (mirror d n)) with (@nil Z). cbn [rev add_le fst snd].
    rewrite app_nil_l, (firstn_skipn 1 result). reflexivity.
  - cbn [add_loop]. cbv zeta.
    rewrite store_ok by exact Hlen. cbn [bind].
    rewrite mirror_nth by lia.
    rewrite (IH _ (upd result (S i) _)) by (rewrite ?upd_length; lia).
    rewrite upd_firstn by lia.
    assert (Hm : length (mirror d n) = n).
    { unfold mirror. rewrite length_rev, length_firstn. lia. }
    rewrite (rev_firstn_succ d i) by lia.
    rewrite (rev_firstn_succ (mirror d n) i) by lia.
    cbn [add_le]. cbv zeta.
    destruct (add_le ((nth i d 0 + nth i (mirror d n) 0 + c) / 10)
                (rev (firstn i d)) (rev (firstn i (mirror d n)))) as [c' r].
    cbn [fst snd rev]. f_equal. f_equal. f_equal.
    replace (skipn (S i) (upd result (S i) ((nth i d 0 + nth i (mirror d n) 0 + c) mod 10)))
      with ((nth i d 0 + nth i (mirror d n) 0 + c) mod 10 :: skipn (S (S i)) result)
      by (symmetry; apply upd_skipn; exact Hlen).
    rewrite <- app_assoc. reflexivity.
Qed.

Lemma radd_length ds : (length ds <= length (radd ds) <= length ds + 1)%nat.
Proof.
  unfold radd.
  pose proof (add_le_length 0 (rev ds) ds ltac:(now rewrite length_rev)) as Hl.
  rewrite length_rev in Hl.
  destruct (add_le 0 (rev ds) ds) as [c r]. cbn [snd] in Hl.
  destruct (c =? 0); cbn [length]; rewrite length_rev; lia.
Qed.

(** With room for one more digit, [add_reverse] leaves in [result] the
    digits of the number plus its reversal and returns their count. *)
Lemma add_reverse_pure d n result :
  (n <= length d)%nat -> (n < length result)%nat ->
  exists result',
    add_reverse d (Z.of_nat n) result
    = Ret (Z.of_nat (length (radd (firstn n d))), result') /\
    length result' = length result /\
    firstn (length (radd (firstn n d))) result' = radd (firstn n d).
Proof.
  intros Hn Hr. unfold add_reverse. rewrite Nat2Z.id.
  rewrite (add_loop_pure d n Hn n 0 result (le_n n) Hr). cbn [bind].
  assert (HX : length (firstn n d) = n) by (rewrite length_firstn; lia).
  assert (Hys : rev (firstn n (mirror d n)) = firstn n d).
  { unfold mirror. rewrite firstn_all2 by (rewrite length_rev; lia).
    apply rev_involutive. }
  rewrite Hys. unfold radd.
  pose proof (add_le_length 0 (rev (firstn n d)) (firstn n d)
                ltac:(now rewrite length_rev)) as Hl.
  rewrite length_rev, HX in Hl.
  destruct (add_le 0 (rev (firstn n d)) (firstn n d)) as [c r]. cbn [fst snd] in *.
  destruct result as [|h tl]; [cbn [length] in Hr; lia|].
  change (firstn 1 (h :: tl)) with [h]. rewrite skipn_cons.
  assert (Htl : (n <= length tl)%nat) by (cbn [length] in Hr; lia).
  assert (Hrr : length (rev r) = n) by (rewrite length_rev; exact Hl).
  destruct (Z.eqb_spec c 0) as [->|Hc]; cbn [negb].
  - exists (shift_left ([h] ++ rev r ++ skipn n tl) n).
    rewrite Hrr. split; [reflexivity|]. unfold shift_left.
    cbn [app]. rewrite skipn_cons. split.
    + change (skipn 0 (rev r ++ skipn n tl)) with (rev r ++ skipn n tl).
      repeat (rewrite ?length_app, ?length_firstn, ?length_skipn, ?Hrr; cbn [length]).
      lia.
    + change (skipn 0 (rev r ++ skipn n tl)) with (rev r ++ skipn n tl).
      assert (E : forall T : list Z, firstn n (rev r ++ T) = rev r).
      { intros T. rewrite firstn_app, Hrr, Nat.sub_diag, firstn_O, app_nil_r.
        apply firstn_all2. lia. }
      rewrite E. apply E.
  - cbn [app]. rewrite store_ok by (cbn [length]; lia). cbn [bind upd length].
    rewrite Hrr. eexists. split; [f_equal; f_equal; lia|]. split.
    + cbn [length]. rewrite !length_app, length_skipn, Hrr. lia.
    + cbn [firstn]. f_equal.
      rewrite firstn_app, Hrr, Nat.sub_diag, firstn_O, app_nil_r.
      apply firstn_all2. lia.
Qed.

(** The digits after [t] reverse-and-add steps. *)
Fixpoint iterates (t : nat) (ds : list Z) : list Z :=
  match t with
  | O => ds
  | S t' => iterates t' (radd ds)
  end.

Definition palindrome (l : list Z) : Prop := l = rev l.

(** What the main loop answers when the buffers have room for every
    step still to run and the counter stays below [INT_MAX]. *)
Lemma iterate_pure : forall rem iter max_iter n cur next,
  Z.of_nat rem = max_iter - iter + 1 -> max_iter < INT_MAX ->
  (n <= length cur)%nat -> length next = length cur ->
  (n + rem <= length cur)%nat ->
  let ds := firstn n cur in
  exists r,
    iterate rem iter max_iter (Z.of_nat n) cur next = Ret r /\
    ((r = -1 /\ forall t, (1 <= t <= rem)%nat -> ~ palindrome (iterates t ds)) \/
     (exists t, (1 <= t <= rem)%nat /\ r = iter + Z.of_nat t - 1 /\
                palindrome (iterates t ds) /\
                forall t', (1 <= t' < t)%nat -> ~ palindrome (iterates t' ds))).
Proof.
  induction rem as [|rem IH]; intros iter max_iter n cur next Hrem Hmax Hn Hlen Hroom;
    cbv zeta.
  - exists (-1). split; [reflexivity|]. left. split; [reflexivity|]. intros t Ht. lia.
  - cbn [iterate]. destruct (Z.leb_spec iter max_iter) as [_|?]; [|lia].
    destruct (add_reverse_pure cur n next Hn ltac:(lia)) as (next' & Hadd & Hl' & Hds).
    rewrite Hadd. cbn [bind].
    pose proof (radd_length (firstn n cur)) as Hgrow.
    rewrite length_firstn, Nat.min_l in Hgrow by lia.
    set (n' := length (radd (firstn n cur))) in *.
    destruct (is_palindrome_spec next' n' ltac:(lia)) as [Hp1 Hp0].
    rewrite Hds in Hp1, Hp0.
    destruct (Z.eqb_spec (is_palindrome next' (Z.of_nat n')) 0) as [E0|Hn0]; cbn [negb].
    + apply Hp0 in E0.
      destruct (Z.eqb_spec iter INT_MAX) as [?|_]; [lia|].
      destruct (IH (iter + 1) max_iter n' next' cur ltac:(lia) Hmax ltac:(lia)
                  ltac:(lia) ltac:(lia)) as (r & Hrun & Hres).
      rewrite Hds in Hres. exists r. split; [exact Hrun|].
      destruct Hres as [[-> Hnone]|(t & Ht & -> & Hpal & Hfirst)].
      * left. split; [reflexivity|]. intros [|[|t]] Ht; [lia| |].
        { exact E0. }
        { apply (Hnone (S t)). lia. }
      * right. exists (S t). split; [lia|]. split; [lia|]. split; [exact Hpal|].
        intros [|[|t']] Ht'; [lia| |].
        { exact E0. }
        { apply (Hfirst (S t')). lia. }
    + assert (E1 : palindrome (radd (firstn n cur))).
      { destruct (list_eq_dec Z.eq_dec (radd (firstn n cur)) (rev (radd (firstn n cur))))
          as [E|Hne]; [exact E|]. exfalso. apply Hn0. apply Hp0. exact Hne. }
      exists iter. split; [reflexivity|]. right. exists 1%nat.
      split; [lia|]. split; [lia|]. split; [exact E1|]. intros t' Ht'. lia.
Qed.

(** The digit an input character becomes: [num_str[i] - '0'] stored in an
    [unsigned char]. *)
Definition to_digit (ch : Z) : Z := (ch - 48) mod 256.

Lemma upd_skipn_after l : forall i k v,
  (i < k)%nat -> skipn k (upd l i v) = skipn k l.
Proof.
  induction l as [|h t IH]; intros [|i] [|k] v H; cbn [upd]; try reflexivity; try lia.
  rewrite !skipn_cons. apply IH. lia.
Qed.

Lemma fill_spec s : forall i d1,
  (i + length s <= length d1)%nat ->
  fill s i d1 = Ret (firstn i d1 ++ map to_digit s ++ skipn (i + length s) d1).
Proof.
  induction s as [|ch s IH]; intros i d1 H; cbn [fill map length] in *.
  - rewrite Nat.add_0_r. cbn [app]. now rewrite firstn_skipn.
  - rewrite store_ok by lia. cbn [bind].
    rewrite IH by (rewrite upd_length; lia).
    f_equal. fold (to_digit ch).
    assert (E : firstn (S i) (upd d1 i (to_digit ch)) = firstn i d1 ++ [to_digit ch]).
    { clear IH. revert i H. induction d1 as [|h t IHd]; intros [|i] H;
        cbn [length] in H; try lia.
      - reflexivity.
      - cbn [upd firstn app]. f_equal. apply IHd. lia. }
    rewrite E, <- app_assoc. cbn [app]. f_equal. f_equal. f_equal.
    replace (S i + length s)%nat with (S (i + length s)) by lia.
    replace (i + S (length s))%nat with (S (i + length s)) by lia.
    apply upd_skipn_after. lia.
Qed.

Definition is_digit (d : Z) : Prop := 0 <= d <= 9.

Lemma add_le_digits xs : forall c ys,
  0 <= c <= 1 -> Forall is_digit xs -> Forall is_digit ys ->
  0 <= fst (add_le c xs ys) <= 1 /\ Forall is_digit (snd (add_le c xs ys)).
Proof.
  induction xs as [|x xs IH]; intros c [|y ys] Hc Hx Hy; cbn [add_le];
    try (split; [exact Hc|constructor]).
  cbv zeta. inversion Hx as [|? ? Hx0 Hxs]; subst. inversion Hy as [|? ? Hy0 Hys]; subst.
  unfold is_digit in Hx0, Hy0.
  assert (Hc' : 0 <= (x + y + c) / 10 <= 1).
  { split; [apply Z.div_pos; lia|].
    assert ((x + y + c) / 10 < 2) by (apply Z.div_lt_upper_bound; lia). lia. }
  specialize (IH _ ys Hc' Hxs Hys).
  destruct (add_le ((x + y + c) / 10) xs ys) as [c' r]. cbn [fst snd] in *.
  split; [tauto|]. constructor; [|tauto].
  unfold is_digit. pose proof (Z.mod_pos_bound (x + y + c) 10 ltac:(lia)). lia.
Qed.

Lemma radd_digits ds : Forall is_digit ds -> Forall is_digit (radd ds).
Proof.
  intros H. unfold radd.
  destruct (add_le_digits (rev ds) 0 ds ltac:(lia)) as [Hc Hr]; auto.
  { apply Forall_rev. exact H. }
  destruct (add_le 0 (rev ds) ds) as [c r]. cbn [fst snd] in *.
  destruct (c =? 0).
  - apply Forall_rev. exact Hr.
  - constructor; [unfold is_digit; lia|apply Forall_rev; exact Hr].
Qed.

(** [add_reverse] adds a number to its reversal: given [len] cells of
    [d] and a result buffer with more than [len] cells, it returns the new
    length, [len] or [len + 1], leaves the buffer size alone, and the
    digits it returns stand for the number in [d] plus the number read
    backwards; decimal digits in, decimal digits out. *)
Theorem add_reverse_adds_reversal d n result :
  (n <= length d)%nat -> (n < length result)%nat ->
  exists len' result',
    add_reverse d (Z.of_nat n) result = Ret (Z.of_nat len', result') /\
    (len' = n \/ len' = S n) /\ length result' = length result /\
    value (firstn len' result') = value (firstn n d) + value (rev (firstn n d)) /\
    (Forall is_digit (firstn n d) -> Forall is_digit (firstn len' result')).
Proof.
  intros Hn Hr.
  destruct (add_reverse_pure d n result Hn Hr) as (result' & Hrun & Hlen & Hds).
  pose proof (radd_length (firstn n d)) as Hgrow.
  rewrite length_firstn, Nat.min_l in Hgrow by lia.
  exists (length (radd (firstn n d))), result'.
  split; [exact Hrun|]. split; [lia|]. split; [exact Hlen|].
  rewrite Hds. split; [apply radd_value_eq|apply radd_digits].
Qed.

Lemma add_reverse_adds_reversal_witness :
  exists len' result',
    add_reverse [9; 5; 0] (Z.of_nat 2) [0; 0; 0] = Ret (Z.of_nat len', result') /\
    (len' = 2%nat \/ len' = 3%nat) /\ length result' = length [0; 0; 0] /\
    value (firstn len' result') = value (firstn 2 [9; 5; 0]) + value (rev (firstn 2 [9; 5; 0])) /\
    (Forall is_digit (firstn 2 [9; 5; 0]) -> Forall is_digit (firstn len' result')).
Proof.
  apply (add_reverse_adds_reversal [9; 5; 0] 2 [0; 0; 0]); simpl; lia.
Defined.

(** [add_reverse] writes [result[len]]: a result buffer of at most [len]
    cells, for a [len] of at least 1, is overrun. *)
Theorem add_reverse_needs_room d n result :
  (1 <= n)%nat -> (length result <= n)%nat ->
  add_reverse d (Z.of_nat n) result = Trap.
Proof.
  intros H1 Hlen. unfold add_reverse. rewrite Nat2Z.id.
  destruct n as [|i]; [lia|]. cbn [add_loop]. cbv zeta.
  unfold store. destruct (Nat.ltb_spec (S i) (length result)) as [?|_]; [lia|].
  reflexivity.
Qed.

Lemma add_reverse_needs_room_witness :
  add_reverse [9; 9] (Z.of_nat 2) [0; 0] = Trap.
Proof.
  apply (add_reverse_needs_room [9; 9] 2 [0; 0]); simpl; lia.
Defined.

Lemma iterate_codes : forall rem iter max_iter len cur next r,
  iterate rem iter max_iter len cur next = Ret r ->
  r = -1 \/ iter <= r <= max_iter.
Proof.
  induction rem as [|rem IH]; intros iter max_iter len cur next r H; cbn [iterate] in H.
  - injection H as <-. now left.
  - destruct (Z.leb_spec iter max_iter) as [Hle|_]; [|injection H as <-; now left].
    destruct (add_reverse cur len next) as [[len' next']| |]; cbn [bind] in H;
      try discriminate.
    destruct (negb (is_palindrome next' len' =? 0)); [injection H as <-; right; lia|].
    destruct (iter =? INT_MAX); [discriminate|].
    apply IH in H. destruct H as [->|H]; [now left|right; lia].
Qed.

(** The codes [reverse_and_add_count] can return for a string whose
    length fits the [int] that receives [strlen]: -2 exactly for strings
    of MAX_DIGITS characters or more, otherwise -1 or an iteration count
    between 1 and [max_iter]; never 0. *)
Theorem reverse_and_add_count_codes s max_iter r :
  Z.of_nat (length s) <= INT_MAX ->
  reverse_and_add_count s max_iter = Ret r ->
  (r = -2 /\ MAX_DIGITS <= Z.of_nat (length s)) \/
  (Z.of_nat (length s) < MAX_DIGITS /\ (r = -1 \/ 1 <= r <= max_iter)).
Proof.
  unfold reverse_and_add_count. intros _ H.
  destruct (Z.leb_spec MAX_DIGITS (Z.of_nat (length s))) as [Hbig|Hsmall].
  - injection H as <-. left. split; [reflexivity|exact Hbig].
  - right. split; [exact Hsmall|].
    destruct (fill s 0 buffer) as [d1| |]; cbn [bind] in H; try discriminate.
    apply iterate_codes in H. exact H.
Qed.

Lemma reverse_and_add_count_codes_witness :
  (3 = -2 /\ MAX_DIGITS <= Z.of_nat (length (digits_of [5; 9]))) \/
  (Z.of_nat (length (digits_of [5; 9])) < MAX_DIGITS /\ (3 = -1 \/ 1 <= 3 <= 10)).
Proof.
  apply (reverse_and_add_count_codes (digits_of [5; 9]) 10 3).
  - vm_compute. discriminate.
  - vm_compute. reflexivity.
Defined.

(** What the count of the first palindrome is, as a property of [r]. *)
Definition first_palindrome_count (ds : list Z) (max_iter r : Z) : Prop :=
  (r = -1 /\
   forall t, (1 <= t)%nat -> Z.of_nat t <= max_iter -> ~ palindrome (iterates t ds)) \/
  (1 <= r <= max_iter /\ palindrome (iterates (Z.to_nat r) ds) /\
   forall t, (1 <= t)%nat -> Z.of_nat t < r -> ~ palindrome (iterates t ds)).

Lemma first_palindrome_count_unique ds max_iter r r' :
  first_palindrome_count ds max_iter r -> first_palindrome_count ds max_iter r' -> r = r'.
Proof.
  intros [[-> Hnone]|(Hr & Hpal & Hfirst)] [[-> Hnone']|(Hr' & Hpal' & Hfirst')].
  - reflexivity.
  - exfalso. apply (Hnone (Z.to_nat r')); [lia|lia|exact Hpal'].
  - exfalso. apply (Hnone' (Z.to_nat r)); [lia|lia|exact Hpal].
  - destruct (Z.lt_total r r') as [Hlt|[E|Hgt]]; [|exact E|].
    + exfalso. apply (Hfirst' (Z.to_nat r)); [lia|lia|exact Hpal].
    + exfalso. apply (Hfirst (Z.to_nat r')); [lia|lia|exact Hpal'].
Qed.

(** The conversion and the main loop in two buffers of [cap] cells with
    room for every step. *)
Lemma run_in_buffers cap s max_iter :
  (length s <= cap)%nat -> Z.of_nat (length s) + max_iter <= Z.of_nat cap ->
  max_iter < INT_MAX ->
  exists r,
    (do d1 <- fill s 0 (repeat 0 cap);
     iterate (Z.to_nat max_iter) 1 max_iter (Z.of_nat (length s)) d1 (repeat 0 cap))
    = Ret r /\
    first_palindrome_count (map to_digit s) max_iter r.
Proof.
  intros Hlen Hroom Hmax.
  assert (Hbuf : length (repeat 0 cap) = cap) by apply repeat_length.
  rewrite fill_spec by (rewrite Hbuf; lia). cbn [bind firstn app Nat.add].
  set (d1 := map to_digit s ++ skipn (length s) (repeat 0 cap)).
  assert (Hd1 : length d1 = cap).
  { unfold d1. rewrite length_app, length_map, length_skipn, Hbuf. lia. }
  assert (Hds : firstn (length s) d1 = map to_digit s).
  { unfold d1. rewrite firstn_app, length_map, Nat.sub_diag, firstn_O, app_nil_r.
    apply firstn_all2. rewrite length_map. lia. }
  unfold first_palindrome_count.
  destruct (Z_le_gt_dec 0 max_iter) as [Hpos|Hneg].
  - destruct (iterate_pure (Z.to_nat max_iter) 1 max_iter (length s) d1 (repeat 0 cap)
                ltac:(lia) Hmax ltac:(lia) ltac:(lia) ltac:(lia))
      as (r & Hrun & Hres).
    rewrite Hds in Hres. exists r. split; [exact Hrun|].
    destruct Hres as [[-> Hnone]|(t & Ht & -> & Hpal & Hfirst)].
    + left. split; [reflexivity|]. intros t Ht1 Ht2. apply Hnone. lia.
    + right. split; [lia|]. split.
      * replace (Z.to_nat (1 + Z.of_nat t - 1)) with t by lia. exact Hpal.
      * intros t' Ht1 Ht2. apply Hfirst. lia.
  - replace (Z.to_nat max_iter) with 0%nat by lia. cbn [iterate].
    exists (-1). split; [reflexivity|]. left. split; [reflexivity|].
    intros t Ht1 Ht2. lia.
Qed.

(** Within the buffers, that is for a string shorter than MAX_DIGITS
    with length + max_iter <= MAX_DIGITS, [reverse_and_add_count] returns
    the number of the first reverse-and-add step whose result is a
    palindrome, and -1 when none of the first [max_iter] steps gives one.
    The input itself is not tested. *)
Theorem reverse_and_add_count_first_palindrome s max_iter :
  Z.of_nat (length s) < MAX_DIGITS ->
  Z.of_nat (length s) + max_iter <= MAX_DIGITS ->
  let ds := map to_digit s in
  exists r,
    reverse_and_add_count s max_iter = Ret r /\
    ((r = -1 /\
      forall t, (1 <= t)%nat -> Z.of_nat t <= max_iter -> ~ palindrome (iterates t ds)) \/
     (1 <= r <= max_iter /\ palindrome (iterates (Z.to_nat r) ds) /\
      forall t, (1 <= t)%nat -> Z.of_nat t < r -> ~ palindrome (iterates t ds))).
Proof.
  intros Hlen Hroom ds. unfold reverse_and_add_count.
  destruct (Z.leb_spec MAX_DIGITS (Z.of_nat (length s))) as [?|_]; [lia|].
  unfold MAX_DIGITS in *.
  destruct (run_in_buffers 4096 s max_iter ltac:(lia) ltac:(lia)
              ltac:(unfold INT_MAX; lia)) as (r & Hrun & Hres).
  exists r. split; [exact Hrun|exact Hres].
Qed.

Lemma reverse_and_add_count_first_palindrome_witness :
  let ds := map to_digit (digits_of [5; 9]) in
  exists r,
    reverse_and_add_count (digits_of [5; 9]) 10 = Ret r /\
    ((r = -1 /\
      forall t, (1 <= t)%nat -> Z.of_nat t <= 10 -> ~ palindrome (iterates t ds)) \/
     (1 <= r <= 10 /\ palindrome (iterates (Z.to_nat r) ds) /\
      forall t, (1 <= t)%nat -> Z.of_nat t < r -> ~ palindrome (iterates t ds))).
Proof.
  apply (reverse_and_add_count_first_palindrome (digits_of [5; 9]) 10);
    unfold MAX_DIGITS; simpl; lia.
Defined.

End ReverseAdd.

(** ** fast_core.c: the two entry points agree *)

Section LargeVariant.
Import Mem Core CoreLarge.

Lemma reverse_and_add_count_large_run s max_iter :
  0 <= max_iter ->
  Z.of_nat (length s) + max_iter + 10 <= 1000000 ->
  exists r,
    reverse_and_add_count_large true s max_iter = Ret r /\
    first_palindrome_count (map to_digit s) max_iter r.
Proof.
  intros Hpos Hcap. unfold reverse_and_add_count_large, int_add, INT_MIN, INT_MAX.
  destruct (Z.leb_spec (-2147483648) (Z.of_nat (length s) + max_iter)) as [_|?]; [|lia].
  destruct (Z.leb_spec (Z.of_nat (length s) + max_iter) 2147483647) as [_|?]; [|lia].
  cbn [andb bind].
  destruct (Z.leb_spec (-2147483648) (Z.of_nat (length s) + max_iter + 10)) as [_|?]; [|lia].
  destruct (Z.leb_spec (Z.of_nat (length s) + max_iter + 10) 2147483647) as [_|?]; [|lia].
  cbn [andb bind].
  destruct (Z.ltb_spec 1000000 (Z.of_nat (length s) + max_iter + 10)) as [?|_]; [lia|].
  destruct (Z.leb_spec 0 (Z.of_nat (length s) + max_iter + 10)) as [_|?]; [|lia].
  cbn [andb negb].
  apply run_in_buffers; unfold INT_MAX; lia.
Qed.

(** With memory granted and [max_iter >= 0], the buffers of
    [length + max_iter + 10] cells (up to the cap of 1000000) hold every
    step: [reverse_and_add_count_large] returns the count of the first
    palindrome, or -1. *)
Theorem reverse_and_add_count_large_first_palindrome s max_iter :
  0 <= max_iter ->
  Z.of_nat (length s) + max_iter + 10 <= 1000000 ->
  exists r,
    reverse_and_add_count_large true s max_iter = Ret r /\
    first_palindrome_count (map to_digit s) max_iter r.
Proof.
  intros Hpos Hcap.
  destruct (reverse_and_add_count_large_run s max_iter Hpos Hcap) as (r & Hrun & Hres).
  exists r. split; [exact Hrun|exact Hres].
Qed.

Lemma reverse_and_add_count_large_first_palindrome_witness :
  exists r,
    reverse_and_add_count_large true (digits_of [5; 9]) 10 = Ret r /\
    first_palindrome_count (map to_digit (digits_of [5; 9])) 10 r.
Proof.
  apply (reverse_and_add_count_large_first_palindrome (digits_of [5; 9]) 10);
    unfold digits_of; cbn [map length]; lia.
Defined.

(** Where the fixed buffers suffice, the two entry points return the same
    value: for a string shorter than MAX_DIGITS, [max_iter >= 0] and
    length + max_iter <= MAX_DIGITS. *)
Theorem reverse_and_add_count_large_agrees s max_iter :
  0 <= max_iter ->
  Z.of_nat (length s) < MAX_DIGITS ->
  Z.of_nat (length s) + max_iter <= MAX_DIGITS ->
  returns (reverse_and_add_count s max_iter) /\
  reverse_and_add_count_large true s max_iter = reverse_and_add_count s max_iter.
Proof.
  intros Hpos Hlen Hroom. unfold MAX_DIGITS in *.
  destruct (reverse_and_add_count_large_run s max_iter Hpos ltac:(lia))
    as (r & Hrun & Hres).
  assert (Hsmall : exists r', reverse_and_add_count s max_iter = Ret r' /\
                              first_palindrome_count (map to_digit s) max_iter r').
  { unfold reverse_and_add_count, MAX_DIGITS.
    destruct (Z.leb_spec 4096 (Z.of_nat (length s))) as [?|_]; [lia|].
    apply (run_in_buffers 4096); unfold INT_MAX; lia. }
  destruct Hsmall as (r' & Hrun' & Hres').
  split; [exists r'; exact Hrun'|].
  rewrite Hrun, Hrun'. f_equal.
  apply (first_palindrome_count_unique _ _ _ _ Hres Hres').
Qed.

Lemma reverse_and_add_count_large_agrees_witness :
  returns (reverse_and_add_count (digits_of [8; 9]) 30) /\
  reverse_and_add_count_large true (digits_of [8; 9]) 30
  = reverse_and_add_count (digits_of [8; 9]) 30.
Proof.
  apply (reverse_and_add_count_large_agrees (digits_of [8; 9]) 30);
    unfold MAX_DIGITS, digits_of; cbn [map length]; lia.
Defined.

End LargeVariant.

(** ** The search branch *)

Section SearchBranch.

(** For n = 1 (mod 4) above 5 the solver is the search over the window,
    when its buffer is allocated. *)
Lemma solve_is_search mem_ok fuel n :
  5 < n < two64 - 3 -> n mod 4 = 1 ->
  solve_erdos_straus mem_ok fuel n
  = if negb mem_ok then Ret sol_zero
    else search (Z.to_nat 50001) fuel n ((n + 3) / 4) ((n + 3) / 4 + 50000) sol_zero.
Proof.
  intros Hn H1. rewrite two64_eq in Hn. unfold solve_erdos_straus.
  destruct (Z.leb_spec n 1) as [?|_]; [lia|].
  destruct (Z.eqb_spec n 2) as [?|_]; [lia|].
  destruct (Z.eqb_spec n 3) as [?|_]; [lia|].
  destruct (Z.eqb_spec n 4) as [?|_]; [lia|].
  destruct (Z.eqb_spec n 5) as [?|_]; [lia|].
  assert (Hodd : n mod 2 = 1) by (clear - H1; Z.div_mod_to_equations; lia).
  rewrite Hodd, H1. change (1 =? 0) with false. change (1 =? 3) with false. cbn iota.
  unfold x_max_of, x_min_of.
  rewrite (u64_small (n + 3)) by (rewrite two64_eq; lia).
  assert (0 <= (n + 3) / 4 < 4611686018427387904).
  { split; [apply Z.div_pos; lia|]. apply Z.div_lt_upper_bound; lia. }
  rewrite (u64_small ((n + 3) / 4 + 50000)) by (rewrite two64_eq; lia).
  replace ((n + 3) / 4 + 50000 - (n + 3) / 4 + 1) with 50001 by lia.
  reflexivity.
Qed.

Lemma search_in_window steps : forall fuel n x x_max sol s,
  0 <= x -> x_max < two64 - 1 ->
  search steps fuel n x x_max sol = Ret s ->
  s = sol \/
  exists x' y z, s = set_sol sol x' y z /\ x <= x' <= x_max /\ x' <= y /\ y <= z /\
                 z < two128.
Proof.
  induction steps as [|steps IH]; intros fuel n x x_max sol s Hx Hmax H;
    cbn [search] in H.
  - injection H as <-. now left.
  - destruct (Z.leb_spec x x_max) as [Hle|_]; [|injection H as <-; now left].
    destruct (try_x fuel n x sol) as [[s'|]| |] eqn:E; cbn [bind] in H; try discriminate.
    + injection H as <-. right. apply try_x_sound in E.
      destruct E as (y & z & E). exists x, y, z. split; [tauto|]. split; [lia|tauto].
    + rewrite (u64_small (x + 1)) in H by lia.
      apply IH in H; [|lia|lia].
      destruct H as [->|(x' & y & z & H)]; [now left|right].
      exists x', y, z. split; [tauto|]. split; [lia|tauto].
Qed.

(** In the search branch the smallest denominator is the x at which a
    candidate was accepted: for n = 1 (mod 4), 5 < n < 2^64 - 3, a return
    with found = 1 has (n + 3) / 4 <= a <= (n + 3) / 4 + 50000, and
    a <= b <= c. *)
Theorem search_result_in_window mem_ok fuel n s :
  5 < n < two64 - 3 -> n mod 4 = 1 ->
  solve_erdos_straus mem_ok fuel n = Ret s -> found s = 1 ->
  (n + 3) / 4 <= sol_a s <= (n + 3) / 4 + 50000 /\
  sol_a s <= sol_b s /\ sol_b s <= sol_c s.
Proof.
  intros Hn H1 H Hf. rewrite (solve_is_search mem_ok fuel n Hn H1) in H.
  destruct mem_ok; cbn [negb] in H; [|injection H as <-; discriminate Hf].
  rewrite two64_eq in Hn.
  assert (Hq : 0 <= (n + 3) / 4 < 4611686018427387904).
  { split; [apply Z.div_pos; lia|]. apply Z.div_lt_upper_bound; lia. }
  apply search_in_window in H; [|lia|rewrite two64_eq; lia].
  destruct H as [->|(x & y & z & -> & Hx & Hxy & Hyz & Hz)]; [discriminate Hf|].
  destruct (set_sol_ordered sol_zero x y z ltac:(lia) Hxy Hyz Hz) as (Ea & Eb & Ec & _).
  rewrite Ea, Eb, Ec. lia.
Qed.

Lemma search_result_in_window_witness :
  (13 + 3) / 4 <= sol_a (mkSolution 4 0 18 0 468 0 1) <= (13 + 3) / 4 + 50000 /\
  sol_a (mkSolution 4 0 18 0 468 0 1) <= sol_b (mkSolution 4 0 18 0 468 0 1) /\
  sol_b (mkSolution 4 0 18 0 468 0 1) <= sol_c (mkSolution 4 0 18 0 468 0 1).
Proof.
  apply (search_result_in_window true 3 13).
  - rewrite two64_eq. lia.
  - reflexivity.
  - vm_compute. reflexivity.
  - reflexivity.
Defined.

End SearchBranch.

(** ** The batch driver: what a return implies *)

Section BatchFrame.
Import Mem Batch.

Lemma store_inv l i v l' : store l i v = Ret l' -> (i < length l)%nat /\ l' = upd l i v.
Proof.
  unfold store. destruct (Nat.ltb_spec i (length l)) as [H|H]; intros E;
    [injection E as <-; auto|discriminate].
Qed.

Lemma load_inv l i v : load l i = Ret v -> nth_error l i = Some v.
Proof.
  unfold load. destruct (nth_error l i); intros E; [injection E as <-; auto|discriminate].
Qed.

(** A step that returns read [primes[i]], solved it, and wrote index [i]
    of every output array, inside the array. *)
Lemma batch_step_inv (mem_ok : nat -> bool) fuel primes i out out1 :
  batch_step mem_ok fuel primes i out = Ret out1 ->
  exists n s,
    nth_error primes i = Some n /\ solve_erdos_straus (mem_ok i) fuel n = Ret s /\
    room (S i) out /\
    arrays out1 = map (fun av => upd (fst av) i (snd av)) (combine (arrays out) (fields s)).
Proof.
  unfold batch_step. intros H.
  destruct (load primes i) as [n| |] eqn:En; cbn [bind] in H; try discriminate.
  destruct (solve_erdos_straus (mem_ok i) fuel n) as [s| |] eqn:Es; cbn [bind] in H;
    try discriminate.
  destruct (store (o_a_lo out) i (a_lo s)) as [al| |] eqn:E1; cbn [bind] in H; try discriminate.
  destruct (store (o_a_hi out) i (a_hi s)) as [ah| |] eqn:E2; cbn [bind] in H; try discriminate.
  destruct (store (o_b_lo out) i (b_lo s)) as [bl| |] eqn:E3; cbn [bind] in H; try discriminate.
  destruct (store (o_b_hi out) i (b_hi s)) as [bh| |] eqn:E4; cbn [bind] in H; try discriminate.
  destruct (store (o_c_lo out) i (c_lo s)) as [cl| |] eqn:E5; cbn [bind] in H; try discriminate.
  destruct (store (o_c_hi out) i (c_hi s)) as [ch| |] eqn:E6; cbn [bind] in H; try discriminate.
  destruct (store (o_found out) i (found s)) as [fo| |] eqn:E7; cbn [bind] in H; try discriminate.
  injection H as <-.
  apply store_inv in E1, E2, E3, E4, E5, E6, E7.
  destruct E1 as [L1 ->], E2 as [L2 ->], E3 as [L3 ->], E4 as [L4 ->],
           E5 as [L5 ->], E6 as [L6 ->], E7 as [L7 ->].
  exists n, s. split; [apply load_inv; exact En|]. split; [exact Es|]. split.
  - unfold room, arrays. repeat constructor; lia.
  - reflexivity.
Qed.

Lemma batch_loop_inv (mem_ok : nat -> bool) fuel primes : forall rem i out out',
  batch_loop rem mem_ok fuel primes i out = Ret out' ->
  (forall k, (k < rem)%nat -> exists n s,
      nth_error primes (i + k) = Some n /\
      solve_erdos_straus (mem_ok (i + k)%nat) fuel n = Ret s /\
      slot out' (i + k) = map Some (fields s)) /\
  (forall j, (j < i \/ i + rem <= j)%nat -> slot out' j = slot out j) /\
  map (@length Z) (arrays out') = map (@length Z) (arrays out) /\
  (rem = 0%nat \/ room (i + rem) out).
Proof.
  induction rem as [|rem IH]; intros i out out' H; cbn [batch_loop] in H.
  - injection H as <-. split; [intros k Hk; lia|]. split; [reflexivity|].
    split; [reflexivity|now left].
  - destruct (batch_step mem_ok fuel primes i out) as [out1| |] eqn:Es; cbn [bind] in H;
      try discriminate.
    destruct (batch_step_inv _ _ _ _ _ _ Es) as (n & s & Hn & Hs & Hroom & Harr).
    destruct (batch_step_spec mem_ok fuel primes i out n s Hn Hs Hroom)
      as (out1' & Hstep & Hslot & Hother & Hkeep).
    rewrite Es in Hstep. injection Hstep as <-.
    destruct (IH (S i) out1 out' H) as (Hnew & Hold & Hlen & Hr).
    assert (Hlen1 : map (@length Z) (arrays out1) = map (@length Z) (arrays out)).
    { rewrite Harr. unfold arrays, fields. cbn [combine map fst snd].
      rewrite !upd_length. reflexivity. }
    split; [|split; [|split]].
    + intros [|k] Hk.
      * exists n, s. rewrite Nat.add_0_r. split; [exact Hn|]. split; [exact Hs|].
        rewrite Hold by lia. exact Hslot.
      * destruct (Hnew k ltac:(lia)) as (n' & s' & Hn' & Hs' & Hsl).
        exists n', s'. rewrite <- Nat.add_succ_comm. auto.
    + intros j Hj. rewrite Hold by lia. apply Hother. lia.
    + rewrite Hlen. exact Hlen1.
    + right. destruct Hr as [->|Hr].
      * rewrite Nat.add_1_r. exact Hroom.
      * unfold room in *. rewrite Forall_forall in *.
        intros arr Harr'. apply In_nth with (d := []) in Harr'.
        destruct Harr' as (t & Ht & <-).
        assert (Hl : length (nth t (arrays out) []) = length (nth t (arrays out1) [])).
        { rewrite <- !(map_nth (@length Z)). rewrite Hlen1. reflexivity. }
        rewrite Hl. replace (i + S rem)%nat with (S i + rem)%nat by lia.
        apply Hr. apply nth_In.
        assert (length (arrays out1) = length (arrays out)) by reflexivity. lia.
Qed.

(** [solve_batch] returns only if every [primes[i]], i < count, could be
    read and solved and every output array has at least count cells; it
    then holds the fields of each solution at index i, leaves every cell
    at index count or beyond as it was, and keeps the array sizes.  With
    count <= 0 nothing is written.  Call i has the allocation outcome
    [mem_ok i]. *)
Theorem solve_batch_writes_only_its_slots (mem_ok : nat -> bool) fuel ns count out out' :
  solve_batch mem_ok fuel ns count out = Ret out' ->
  (forall i, (i < Z.to_nat count)%nat -> exists n s,
      nth_error ns i = Some n /\ solve_erdos_straus (mem_ok i) fuel n = Ret s /\
      slot out' i = map Some (fields s)) /\
  (forall j, (Z.to_nat count <= j)%nat -> slot out' j = slot out j) /\
  map (@length Z) (arrays out') = map (@length Z) (arrays out) /\
  (0 < count -> room (Z.to_nat count) out) /\
  (count <= 0 -> out' = out).
Proof.
  unfold solve_batch. intros H.
  destruct (batch_loop_inv mem_ok fuel ns (Z.to_nat count) 0 out out' H)
    as (Hnew & Hold & Hlen & Hroom).
  split; [exact Hnew|]. split; [intros j Hj; apply Hold; lia|].
  split; [exact Hlen|]. split.
  - intros Hc. destruct Hroom as [E|Hr]; [lia|exact Hr].
  - intros Hc. replace (Z.to_nat count) with 0%nat in H by lia.
    cbn [batch_loop] in H. injection H as <-. reflexivity.
Qed.

Lemma solve_batch_writes_only_its_slots_witness :
  (forall i, (i < Z.to_nat 1)%nat -> exists n s,
      nth_error [13; 2] i = Some n /\ solve_erdos_straus true 3 n = Ret s /\
      slot (mkOutputs [4; 7] [0; 7] [18; 7] [0; 7] [468; 7] [0; 7] [1; 7]) i
      = map Some (fields s)) /\
  (forall j, (Z.to_nat 1 <= j)%nat ->
      slot (mkOutputs [4; 7] [0; 7] [18; 7] [0; 7] [468; 7] [0; 7] [1; 7]) j
      = slot (mkOutputs [7; 7] [7; 7] [7; 7] [7; 7] [7; 7] [7; 7] [7; 7]) j) /\
  map (@length Z) (arrays (mkOutputs [4; 7] [0; 7] [18; 7] [0; 7] [468; 7] [0; 7] [1; 7]))
  = map (@length Z) (arrays (mkOutputs [7; 7] [7; 7] [7; 7] [7; 7] [7; 7] [7; 7] [7; 7])) /\
  (0 < 1 -> room (Z.to_nat 1) (mkOutputs [7; 7] [7; 7] [7; 7] [7; 7] [7; 7] [7; 7] [7; 7])) /\
  (1 <= 0 -> mkOutputs [4; 7] [0; 7] [18; 7] [0; 7] [468; 7] [0; 7] [1; 7]
             = mkOutputs [7; 7] [7; 7] [7; 7] [7; 7] [7; 7] [7; 7] [7; 7]).
Proof.
  apply (solve_batch_writes_only_its_slots (fun _ => true) 3 [13; 2] 1).
  vm_compute. reflexivity.
Defined.

End BatchFrame.

(** ** bench_c.c: the primality test *)

Section IsPrime.
Import Bench.

(** The first n on which [i * i] can wrap in the loop test. *)
Definition is_prime_limit : Z := (2 ^ 32 - 5) * (2 ^ 32 - 5).

Lemma divisor_not_prime n d : 1 < d < n -> (d | n) -> ~ Z.prime n.
Proof. intros Hd Hdv [_ Hp]. exact (Hp d Hd Hdv). Qed.

(** A prime of at least 5 in the stretch [i, i + 6), for i = 5 (mod 6),
    is i or i + 2. *)
Lemma prime_in_stretch i q :
  i mod 6 = 5 -> Z.prime q -> 5 <= i <= q -> q < i + 6 -> q = i \/ q = i + 2.
Proof.
  intros Hi Hq Hle Hlt.
  pose proof (prime_odd q Hq ltac:(lia)) as H2.
  pose proof (prime_not_multiple_of_3 q Hq ltac:(lia)) as H3.
  clear Hq. Z.div_mod_to_equations. lia.
Qed.

Lemma prime_loop_spec n : 4 <= n < is_prime_limit ->
  forall fuel i,
    5 <= i -> i mod 6 = 5 -> i <= Z.sqrt n + 6 ->
    Z.sqrt n + 7 - i <= 6 * Z.of_nat fuel ->
    (forall q, Z.prime q -> (q | n) -> i <= q) ->
    (prime_loop fuel i n = Ret 1 /\ Z.prime n) \/
    (prime_loop fuel i n = Ret 0 /\ ~ Z.prime n).
Proof.
  intros Hn. unfold is_prime_limit in Hn.
  change ((2 ^ 32 - 5) * (2 ^ 32 - 5)) with 18446744030759878681 in Hn.
  pose proof (Z.sqrt_spec n ltac:(lia)) as Hsq. cbv zeta in Hsq.
  assert (Hs : Z.sqrt n < 4294967291) by nia.
  induction fuel as [|fuel IH]; intros i Hi Hmod Hle Hfuel Hno; [lia|].
  cbn [prime_loop].
  assert (Hi32 : i < 4294967296).
  { clear - Hle Hs Hmod. Z.div_mod_to_equations. lia. }
  rewrite (u64_small (i * i)) by (rewrite two64_eq; nia).
  destruct (Z.leb_spec (i * i) n) as [Hin|Hout].
  - destruct (Z.eqb_spec i 0) as [?|_]; [lia|].
    assert (Hlt : i + 2 < n) by nia.
    destruct (Z.eqb_spec (n mod i) 0) as [Hz|Hnz].
    + right. split; [reflexivity|]. apply (divisor_not_prime n i); [lia|].
      apply Z.mod_divide; [lia|exact Hz].
    + rewrite (u64_small (i + 2)) by (rewrite two64_eq; lia).
      destruct (Z.eqb_spec (i + 2) 0) as [?|_]; [lia|].
      destruct (Z.eqb_spec (n mod (i + 2)) 0) as [Hz2|Hnz2].
      * right. split; [reflexivity|]. apply (divisor_not_prime n (i + 2)); [lia|].
        apply Z.mod_divide; [lia|exact Hz2].
      * rewrite (u64_small (i + 6)) by (rewrite two64_eq; lia).
        assert (Hroot : i <= Z.sqrt n) by (apply Z.sqrt_le_square; lia).
        apply IH; try lia.
        { rewrite <- Z.add_mod_idemp_l, Hmod by lia. reflexivity. }
        { intros q Hq Hdv. pose proof (Hno q Hq Hdv) as Hge.
          destruct (Z_lt_ge_dec q (i + 6)) as [Hq6|Hq6]; [exfalso|lia].
          destruct (prime_in_stretch i q Hmod Hq ltac:(lia) Hq6) as [->| ->].
          - apply Hnz. apply Z.mod_divide; [lia|exact Hdv].
          - apply Hnz2. apply Z.mod_divide; [lia|exact Hdv]. }
  - left. split; [reflexivity|].
    apply (prime_of_no_small_factor i); try lia. exact Hno.
Qed.

(** [is_prime] is a primality test: for 0 <= n < (2^32 - 5)^2, where no
    square wraps around 64 bits, and a budget of more than
    (sqrt n + 2) / 6 iterations, it returns 1 if n is prime and 0 if not. *)
Theorem is_prime_decides n fuel :
  0 <= n < is_prime_limit -> Z.sqrt n + 2 <= 6 * Z.of_nat fuel ->
  (is_prime fuel n = Ret 1 /\ Z.prime n) \/
  (is_prime fuel n = Ret 0 /\ ~ Z.prime n).
Proof.
  intros Hn Hfuel. unfold is_prime.
  destruct (Z.ltb_spec n 2) as [H2|H2].
  - right. split; [reflexivity|]. intros Hp. pose proof (prime_gt_1 n Hp). lia.
  - destruct (Z.ltb_spec n 4) as [H4|H4].
    + left. split; [reflexivity|].
      assert (n = 2 \/ n = 3) as [->| ->] by lia; [apply Z.prime_2|apply Z.prime_3].
    + destruct (Z.eqb_spec (n mod 2) 0) as [E2|N2]; cbn [orb].
      * right. split; [reflexivity|]. apply (divisor_not_prime n 2); [lia|].
        apply Z.mod_divide; [lia|exact E2].
      * destruct (Z.eqb_spec (n mod 3) 0) as [E3|N3].
        { right. split; [reflexivity|]. apply (divisor_not_prime n 3); [lia|].
          apply Z.mod_divide; [lia|exact E3]. }
        { apply prime_loop_spec; try lia; try reflexivity.
          - pose proof (Z.sqrt_nonneg n). lia.
          - intros q Hq Hdv. pose proof (prime_gt_1 q Hq).
            destruct (Z_lt_ge_dec q 5) as [Hlt|Hge]; [exfalso|lia].
            assert (q = 2 \/ q = 3 \/ q = 4) as [->|[->| ->]] by lia.
            + apply N2. apply Z.mod_divide; [lia|exact Hdv].
            + apply N3. apply Z.mod_divide; [lia|exact Hdv].
            + destruct Hq as [_ Hq]. apply (Hq 2); [lia|]. exists 2. reflexivity. }
Qed.

Lemma is_prime_decides_witness :
  (is_prime 2 91 = Ret 1 /\ Z.prime 91) \/ (is_prime 2 91 = Ret 0 /\ ~ Z.prime 91).
Proof.
  apply (is_prime_decides 91 2).
  - unfold is_prime_limit. vm_compute. split; [discriminate|reflexivity].
  - vm_compute. discriminate.
Defined.

End IsPrime.

(** ** The divisor expansion without wrap-around and without the cap *)

Section Expansion.

(** The blocks [prev * q^k] for the next [e] powers after [pe]. *)
Fixpoint blocks (prev : list Z) (q pe : Z) (e : nat) : list Z :=
  match e with
  | O => []
  | S e' => map (fun d => d * (pe * q)) prev ++ blocks prev q (pe * q) e'
  end.

Definition expand (prev : list Z) (f : Factor) : list Z :=
  prev ++ blocks prev (prime f) 1 (Z.to_nat (exp f)).

Fixpoint expand_all (fs : list Factor) (divs : list Z) : list Z :=
  match fs with
  | [] => divs
  | f :: fs' => expand_all fs' (expand divs f)
  end.

Lemma expand_all_prefix fs : forall divs, exists t, expand_all fs divs = divs ++ t.
Proof.
  induction fs as [|f fs IH]; intros divs; cbn [expand_all].
  - exists []. now rewrite app_nil_r.
  - destruct (IH (expand divs f)) as [t ->]. unfold expand.
    eexists. rewrite <- app_assoc. reflexivity.
Qed.

Lemma prefix_full (l t : list Z) : (length (l ++ t) <= length l)%nat -> l ++ t = l.
Proof.
  rewrite length_app. intros H. destruct t; [apply app_nil_r|cbn [length] in H; lia].
Qed.

(** The innermost loop appends one block. *)
Lemma loop_j_block pe prev : forall rem j t,
  (j + rem = length prev)%nat ->
  count_of (prev ++ t) + Z.of_nat rem <= MAX_DIVS ->
  Forall (fun d => is_u64 (d * pe)) (skipn j prev) ->
  loop_j rem j pe (prev ++ t) = (prev ++ t) ++ map (fun d => d * pe) (skipn j prev).
Proof.
  induction rem as [|rem IH]; intros j t Hj Hcap Hr; cbn [loop_j].
  - rewrite skipn_all2 by lia. cbn [map]. now rewrite app_nil_r.
  - destruct (Z.ltb_spec (count_of (prev ++ t)) MAX_DIVS) as [_|?]; [|lia].
    assert (Hsk : skipn j prev = nth j prev 0 :: skipn (S j) prev).
    { clear - Hj. revert j Hj. induction prev as [|h p IHp]; intros [|j] Hj;
        cbn [length] in Hj; try lia; try reflexivity.
      rewrite !skipn_cons. cbn [nth]. apply IHp. lia. }
    rewrite Hsk in Hr |- *. inversion Hr as [|? ? Hv Hr']; subst.
    rewrite app_nth1 by lia. rewrite (u64_small _ Hv).
    rewrite <- (app_assoc prev t). rewrite IH.
    + cbn [map]. rewrite <- !app_assoc. reflexivity.
    + lia.
    + unfold count_of in *. rewrite !length_app in *. cbn [length]. lia.
    + exact Hr'.
Qed.

(** The loop over the exponents appends the blocks of the next powers. *)
Lemma loop_e_blocks q prev : In 1 prev ->
  forall rem pe t,
    count_of ((prev ++ t) ++ blocks prev q pe rem) <= MAX_DIVS ->
    Forall is_u64 (blocks prev q pe rem) ->
    loop_e rem (length prev) q pe (prev ++ t) = (prev ++ t) ++ blocks prev q pe rem.
Proof.
  intros H1. induction rem as [|rem IH]; intros pe t Hcap Hr; cbn [loop_e blocks].
  - now rewrite app_nil_r.
  - destruct (Z.ltb_spec (count_of (prev ++ t)) MAX_DIVS) as [Hlt|Hge].
    + cbv zeta. cbn [blocks] in Hcap, Hr. apply Forall_app in Hr. destruct Hr as [Hb Hr].
      assert (Hpe : is_u64 (pe * q)).
      { rewrite Forall_forall in Hb. specialize (Hb (1 * (pe * q))).
        rewrite Z.mul_1_l in Hb. apply Hb. apply (in_map (fun d => d * (pe * q))) in H1.
        rewrite Z.mul_1_l in H1. exact H1. }
      rewrite (u64_small _ Hpe).
      unfold count_of in *. rewrite !length_app, ?length_map in Hcap.
      rewrite (loop_j_block (pe * q) prev (length prev) 0 t).
      * cbn [skipn]. rewrite <- (app_assoc prev t). rewrite IH.
        { rewrite <- !app_assoc. reflexivity. }
        { unfold count_of. rewrite !length_app, ?length_map. clear - Hcap. lia. }
        { exact Hr. }
      * lia.
      * unfold count_of. rewrite length_app. lia.
      * cbn [skipn]. rewrite Forall_map in Hb. exact Hb.
    + symmetry. apply prefix_full. cbn [blocks] in Hcap. unfold count_of in *. lia.
Qed.

Lemma expand_all_in_1 fs : forall divs, In 1 divs -> In 1 (expand_all fs divs).
Proof.
  intros divs H. destruct (expand_all_prefix fs divs) as [t ->].
  apply in_or_app. now left.
Qed.

(** Within the cap and within 64 bits the three loops compute the
    expansion. *)
Lemma loop_i_expand fs : forall divs,
  In 1 divs ->
  count_of (expand_all fs divs) <= MAX_DIVS ->
  Forall is_u64 (expand_all fs divs) ->
  loop_i fs divs = expand_all fs divs.
Proof.
  induction fs as [|f fs IH]; intros divs H1 Hcap Hr; cbn [loop_i expand_all];
    [reflexivity|].
  cbn [expand_all] in Hcap, Hr.
  destruct (expand_all_prefix fs (expand divs f)) as [t Ht].
  destruct (Z.ltb_spec (count_of divs) MAX_DIVS) as [Hlt|Hge].
  - assert (He : loop_e (Z.to_nat (exp f)) (length divs) (prime f) 1 divs = expand divs f).
    { pose proof (loop_e_blocks (prime f) divs H1 (Z.to_nat (exp f)) 1 []) as L.
      rewrite !app_nil_r in L. apply L.
      - fold (expand divs f). rewrite Ht in Hcap. unfold count_of in *.
        rewrite length_app in Hcap. lia.
      - rewrite Ht in Hr. apply Forall_app in Hr. destruct Hr as [Hr _].
        unfold expand in Hr. apply Forall_app in Hr. tauto. }
    rewrite He. apply IH; auto.
    unfold expand. apply in_or_app. now left.
  - rewrite Ht. unfold expand. rewrite <- app_assoc. symmetry. apply prefix_full.
    rewrite Ht in Hcap. unfold expand in Hcap. rewrite <- app_assoc in Hcap.
    unfold count_of in *. lia.
Qed.

(** [divs] lists each positive divisor of [M] once. *)
Definition divisor_list (M : Z) (divs : list Z) : Prop :=
  0 < M /\ NoDup divs /\ forall d, In d divs <-> (0 < d /\ (d | M)).

Lemma in_blocks prev q : forall e pe v,
  In v (blocks prev q pe e) <->
  exists d k, In d prev /\ (1 <= k <= e)%nat /\ v = d * (pe * q ^ Z.of_nat k).
Proof.
  induction e as [|e IH]; intros pe v; cbn [blocks].
  - split; [intros []|intros (d & k & _ & Hk & _); lia].
  - rewrite in_app_iff, in_map_iff, IH. split.
    + intros [(d & <- & Hd)|(d & k & Hd & Hk & ->)].
      * exists d, 1%nat. split; [exact Hd|]. split; [lia|].
        change (Z.of_nat 1) with 1. rewrite Z.pow_1_r. reflexivity.
      * exists d, (S k). split; [exact Hd|]. split; [lia|].
        rewrite Nat2Z.inj_succ, Z.pow_succ_r by lia. ring.
    + intros (d & k & Hd & Hk & ->). destruct k as [|[|k]]; [lia| |].
      * left. exists d. split; [|exact Hd].
        change (Z.of_nat 1) with 1. rewrite Z.pow_1_r. reflexivity.
      * right. exists d, (S k). split; [exact Hd|]. split; [lia|].
        rewrite (Nat2Z.inj_succ (S k)), Z.pow_succ_r by lia. ring.
Qed.

Lemma in_expand prev q a v :
  0 <= a ->
  (In v (expand prev (mkFactor q a)) <->
   exists d k, In d prev /\ 0 <= k <= a /\ v = d * q ^ k).
Proof.
  intros Ha. unfold expand. cbn [prime exp]. rewrite in_app_iff, in_blocks. split.
  - intros [Hv|(d & k & Hd & Hk & ->)].
    + exists v, 0. split; [exact Hv|]. split; [lia|]. rewrite Z.pow_0_r. ring.
    + exists d, (Z.of_nat k). split; [exact Hd|]. split; [lia|]. ring.
  - intros (d & k & Hd & Hk & ->). destruct (Z.eq_dec k 0) as [->|Hne].
    + left. rewrite Z.pow_0_r, Z.mul_1_r. exact Hd.
    + right. exists d, (Z.to_nat k). split; [exact Hd|]. split; [lia|].
      rewrite Z2Nat.id by lia. ring.
Qed.

(** A divisor of M q^a, for a prime q that does not divide M, is a
    divisor of M times a power of q. *)
Lemma divisor_split M q : Z.prime q -> ~ (q | M) ->
  forall a, 0 <= a -> forall d, 0 < d -> (d | M * q ^ a) ->
  exists d0 k, 0 < d0 /\ (d0 | M) /\ 0 <= k <= a /\ d = d0 * q ^ k.
Proof.
  intros Hq HqM. pose proof (prime_gt_1 q Hq) as Hq1.
  intros a Ha. pattern a. apply natlike_ind; [| |exact Ha]; clear a Ha.
  - intros d Hd Hdv. rewrite Z.pow_0_r, Z.mul_1_r in Hdv.
    exists d, 0. split; [exact Hd|]. split; [exact Hdv|]. split; [lia|].
    rewrite Z.pow_0_r. ring.
  - intros a Ha IH d Hd Hdv. rewrite Z.pow_succ_r in Hdv by exact Ha.
    destruct (Z.eq_dec (d mod q) 0) as [Hz|Hnz].
    + apply Z.mod_divide in Hz; [|lia]. destruct Hz as [d' ->].
      assert (Hd' : 0 < d') by nia.
      replace (M * (q * q ^ a)) with (M * q ^ a * q) in Hdv by ring.
      apply Z.mul_divide_cancel_r in Hdv; [|lia].
      destruct (IH d' Hd' Hdv) as (d0 & k & H0 & HM & Hk & ->).
      exists d0, (k + 1). split; [exact H0|]. split; [exact HM|]. split; [lia|].
      rewrite Z.pow_add_r, Z.pow_1_r by lia. ring.
    + assert (Hnd : ~ (q | d)).
      { intros Hqd. apply Hnz. apply Z.mod_divide; [lia|exact Hqd]. }
      assert (Hg : Z.gcd d q = 1).
      { rewrite Z.gcd_comm. apply Z.coprime_prime_l; assumption. }
      replace (M * (q * q ^ a)) with (q * (M * q ^ a)) in Hdv by ring.
      apply Z.gauss in Hdv; [|exact Hg].
      destruct (IH d Hd Hdv) as (d0 & k & H0 & HM & Hk & ->).
      exists d0, k. split; [exact H0|]. split; [exact HM|]. split; [lia|reflexivity].
Qed.

(** With q not dividing d or d', the exponent of q in d q^k is k. *)
Lemma power_part_unique q d d' k k' :
  1 < q -> ~ (q | d) -> ~ (q | d') -> 0 <= k -> 0 <= k' ->
  d * q ^ k = d' * q ^ k' -> k = k' /\ d = d'.
Proof.
  intros Hq Hd Hd' Hk Hk' E.
  assert (Hpos : forall j, 0 <= j -> 0 < q ^ j) by (intros; apply Z.pow_pos_nonneg; lia).
  assert (Hcase : forall a b i j, ~ (q | a) -> 0 <= i -> i < j ->
                  a * q ^ i = b * q ^ j -> False).
  { intros a b i j Ha Hi Hij Eab. apply Ha.
    replace j with (i + (j - i)) in Eab by lia.
    rewrite Z.pow_add_r in Eab by lia.
    assert (a = b * q ^ (j - i)).
    { apply (Z.mul_reg_r _ _ (q ^ i)); [specialize (Hpos i Hi); lia|]. rewrite Eab. ring. }
    subst a. apply Z.divide_mul_r.
    replace (j - i) with (Z.succ (j - i - 1)) by lia.
    rewrite Z.pow_succ_r by lia. apply Z.divide_factor_l. }
  destruct (Z.lt_total k k') as [Hlt|[Heq|Hgt]].
  - exfalso. exact (Hcase d d' k k' Hd Hk Hlt E).
  - subst k'. split; [reflexivity|].
    apply (Z.mul_reg_r _ _ (q ^ k)); [specialize (Hpos k Hk); lia|exact E].
  - exfalso. symmetry in E. exact (Hcase d' d k' k Hd' Hk' Hgt E).
Qed.

Lemma nodup_map_mul c l : c <> 0 -> NoDup l -> NoDup (map (fun d => d * c) l).
Proof.
  intros Hc. induction 1 as [|a l Hna Hl IH]; cbn [map]; constructor; [|exact IH].
  rewrite in_map_iff. intros (b & E & Hb). apply Z.mul_reg_r in E; [|exact Hc].
  subst b. contradiction.
Qed.

Lemma blocks_nodup q prev :
  1 < q -> NoDup prev -> (forall d, In d prev -> ~ (q | d)) ->
  forall e j, 0 <= j -> NoDup (blocks prev q (q ^ j) e).
Proof.
  intros Hq Hnd Hno. induction e as [|e IH]; intros j Hj; cbn [blocks]; [constructor|].
  assert (E : q ^ j * q = q ^ (j + 1)) by (rewrite Z.pow_add_r, Z.pow_1_r by lia; ring).
  rewrite E. apply NoDup_app.
  - apply nodup_map_mul; [|exact Hnd].
    assert (0 < q ^ (j + 1)) by (apply Z.pow_pos_nonneg; lia). lia.
  - apply IH. lia.
  - intros v Hv1 Hv2. apply in_map_iff in Hv1. destruct Hv1 as (d & <- & Hd).
    apply in_blocks in Hv2. destruct Hv2 as (d' & k & Hd' & Hk & E').
    rewrite <- Z.pow_add_r in E' by lia.
    destruct (power_part_unique q d d' (j + 1) (j + 1 + Z.of_nat k) Hq (Hno d Hd)
                (Hno d' Hd') ltac:(lia) ltac:(lia) E') as [Hkk _].
    lia.
Qed.

Lemma expand_divisor_list M prev q a :
  divisor_list M prev -> Z.prime q -> ~ (q | M) -> 0 <= a ->
  divisor_list (M * q ^ a) (expand prev (mkFactor q a)).
Proof.
  intros (HM & Hnd & Hin) Hq HqM Ha. pose proof (prime_gt_1 q Hq) as Hq1.
  assert (Hpa : 0 < q ^ a) by (apply Z.pow_pos_nonneg; lia).
  assert (Hno : forall d, In d prev -> ~ (q | d)).
  { intros d Hd Hqd. apply HqM. apply Hin in Hd. destruct Hd as [_ HdM].
    eapply Z.divide_trans; eauto. }
  split; [nia|]. split.
  - unfold expand. cbn [prime exp]. apply NoDup_app; [exact Hnd| |].
    + change 1 with (q ^ 0). apply blocks_nodup; auto. lia.
    + intros v Hv1 Hv2. apply in_blocks in Hv2.
      destruct Hv2 as (d' & k & Hd' & Hk & E). rewrite Z.mul_1_l in E.
      assert (E' : v * q ^ 0 = d' * q ^ Z.of_nat k) by (rewrite Z.pow_0_r; lia).
      destruct (power_part_unique q v d' 0 (Z.of_nat k) Hq1 (Hno v Hv1) (Hno d' Hd')
                  ltac:(lia) ltac:(lia) E') as [Hk0 _].
      lia.
  - intros d. rewrite in_expand by exact Ha. split.
    + intros (d0 & k & Hd0 & Hk & ->). apply Hin in Hd0. destruct Hd0 as [Hpos HdM].
      assert (0 < q ^ k) by (apply Z.pow_pos_nonneg; lia).
      split; [nia|]. destruct HdM as [m ->].
      exists (m * q ^ (a - k)).
      replace a with (a - k + k) at 1 by lia. rewrite Z.pow_add_r by lia. ring.
    + intros [Hpos Hdv].
      destruct (divisor_split M q Hq HqM a Ha d Hpos Hdv) as (d0 & k & H0 & HM0 & Hk & ->).
      exists d0, k. split; [apply Hin; split; assumption|]. split; [exact Hk|reflexivity].
Qed.

Lemma expand_all_divisor_list fs : forall M divs,
  divisor_list M divs ->
  Forall (fun f => Z.prime (prime f) /\ 0 <= exp f) fs ->
  NoDup (map prime fs) ->
  (forall f, In f fs -> ~ (prime f | M)) ->
  divisor_list (M * fprod fs) (expand_all fs divs).
Proof.
  induction fs as [|f fs IH]; intros M divs Hdl Hall Hnd Hno; cbn [expand_all].
  - change (fprod []) with 1. rewrite Z.mul_1_r. exact Hdl.
  - change (fprod (f :: fs)) with (prime f ^ exp f * fprod fs).
    inversion Hall as [|? ? [Hp He] Hall']; subst.
    cbn [map] in Hnd. inversion Hnd as [|? ? Hnin Hnd']; subst.
    rewrite Z.mul_assoc. apply IH; auto.
    + destruct f as [q a]. cbn [prime exp] in *.
      apply expand_divisor_list; auto. apply (Hno (mkFactor q a)). now left.
    + intros f' Hf' Hdv.
      assert (Hp' : Z.prime (prime f')).
      { rewrite Forall_forall in Hall'. apply (Hall' f' Hf'). }
      apply (Z.divide_prime_mul _ _ _ Hp') in Hdv. destruct Hdv as [Hdv|Hdv].
      * apply (Hno f'); [now right|exact Hdv].
      * apply (Z.divide_prime_pp _ _ _ Hp' Hp He) in Hdv.
        apply Hnin. rewrite <- Hdv. apply in_map. exact Hf'.
Qed.

(** The entry [merge_p] writes for a factor of x. *)
Definition merged (p : Z) (f : Factor) : Factor :=
  if prime f =? p then mkFactor (prime f) (2 * exp f + 2)
  else mkFactor (prime f) (2 * exp f).

Lemma merge_p_spec p fs : forall acc b,
  merge_p p fs acc b
  = (acc ++ map (merged p) fs, b || existsb (fun f => prime f =? p) fs).
Proof.
  induction fs as [|f fs IH]; intros acc b; cbn [merge_p map existsb].
  - now rewrite app_nil_r, orb_false_r.
  - assert (Hm : merged p f
                 = if prime f =? p then mkFactor (prime f) (2 * exp f + 2)
                   else mkFactor (prime f) (2 * exp f)) by reflexivity.
    rewrite Hm. destruct (prime f =? p); rewrite IH, <- app_assoc; cbn [app orb].
    + now rewrite orb_true_r.
    + reflexivity.
Qed.

Lemma all_factors_of_spec p fs :
  all_factors_of p fs
  = map (merged p) fs
    ++ (if existsb (fun f => prime f =? p) fs then [] else [mkFactor p 2]).
Proof.
  unfold all_factors_of. rewrite merge_p_spec. cbn [app orb].
  destruct (existsb _ fs); [now rewrite app_nil_r|reflexivity].
Qed.

Lemma merged_prime p f : prime (merged p f) = prime f.
Proof. unfold merged. destruct (prime f =? p); reflexivity. Qed.

Lemma sorted_nodup (l : list Z) : StronglySorted Z.lt l -> NoDup l.
Proof.
  induction 1 as [|a l Hs IH Ha]; constructor; [|exact IH].
  intros Hin. rewrite Forall_forall in Ha. specialize (Ha a Hin). lia.
Qed.

Lemma existsb_prime_false p fs :
  existsb (fun f => prime f =? p) fs = false -> ~ In p (map prime fs).
Proof.
  intros H Hin. apply in_map_iff in Hin. destruct Hin as (f & E & Hf).
  assert (existsb (fun f => prime f =? p) fs = true).
  { apply existsb_exists. exists f. split; [exact Hf|]. apply Z.eqb_eq. exact E. }
  congruence.
Qed.

Lemma pow_double q e : 0 <= e -> q ^ (2 * e) = q ^ e * q ^ e.
Proof. intros He. replace (2 * e) with (e + e) by lia. apply Z.pow_add_r; lia. Qed.

Lemma merged_product_absent p fs :
  ~ In p (map prime fs) -> Forall (fun f => 0 <= exp f) fs ->
  fprod (map (merged p) fs) = fprod fs * fprod fs.
Proof.
  induction fs as [|f fs IH]; intros Hnin He; cbn [map].
  - reflexivity.
  - inversion He as [|? ? He0 He']; subst. cbn [map In] in Hnin.
    change (fprod (merged p f :: map (merged p) fs))
      with (prime (merged p f) ^ exp (merged p f) * fprod (map (merged p) fs)).
    change (fprod (f :: fs)) with (prime f ^ exp f * fprod fs).
    rewrite IH by tauto. unfold merged.
    destruct (Z.eqb_spec (prime f) p) as [E|Hne]; [exfalso; tauto|].
    cbn [prime exp]. rewrite pow_double by lia. ring.
Qed.

(** The product of the merged list, with the factor p^2 supplied at the
    end when p is not among the primes of x. *)
Lemma merged_product p fs :
  NoDup (map prime fs) -> Forall (fun f => 0 <= exp f) fs ->
  fprod (map (merged p) fs)
  * (if existsb (fun f => prime f =? p) fs then 1 else p ^ 2)
  = p ^ 2 * (fprod fs * fprod fs).
Proof.
  induction fs as [|f fs IH]; intros Hnd He; cbn [map existsb].
  - change (fprod []) with 1. ring.
  - cbn [map] in Hnd. inversion Hnd as [|? ? Hnin Hnd']; subst.
    inversion He as [|? ? He0 He']; subst.
    change (fprod (merged p f :: map (merged p) fs))
      with (prime (merged p f) ^ exp (merged p f) * fprod (map (merged p) fs)).
    change (fprod (f :: fs)) with (prime f ^ exp f * fprod fs).
    unfold merged at 1 2.
    destruct (Z.eqb_spec (prime f) p) as [E|Hne]; cbn [orb prime exp].
    + rewrite merged_product_absent by (try rewrite <- E; assumption).
      rewrite E, Z.pow_add_r, pow_double by lia. ring.
    + rewrite pow_double by lia. specialize (IH Hnd' He').
      transitivity (prime f ^ exp f * prime f ^ exp f
                    * (fprod (map (merged p) fs)
                       * (if existsb (fun f0 => prime f0 =? p) fs then 1 else p ^ 2)));
        [ring|rewrite IH; ring].
Qed.

Lemma in_divisors_upto N d :
  In d (divisors_upto N) <-> 1 <= d <= N /\ N mod d = 0.
Proof.
  unfold divisors_upto. rewrite filter_In, in_map_iff. split.
  - intros [(k & <- & Hk) Hm]. apply in_seq in Hk. apply Z.eqb_eq in Hm.
    split; [lia|exact Hm].
  - intros [Hd Hm]. split; [|apply Z.eqb_eq; exact Hm].
    exists (Z.to_nat d). split; [lia|]. apply in_seq. lia.
Qed.

Lemma divisors_upto_nodup N : NoDup (divisors_upto N).
Proof.
  unfold divisors_upto. apply NoDup_filter.
  generalize (seq_NoDup (Z.to_nat N) 1). generalize (seq 1 (Z.to_nat N)).
  induction 1 as [|a l Hna Hl IH]; cbn [map]; constructor; [|exact IH].
  rewrite in_map_iff. intros (b & E & Hb). apply Nat2Z.inj in E. subst b. contradiction.
Qed.

Lemma divisor_list_one : divisor_list 1 [1].
Proof.
  split; [lia|]. split; [constructor; [intros []|constructor]|].
  intros d. split.
  - intros [<-|[]]. split; [lia|apply Z.divide_refl].
  - intros [Hpos Hdv]. left. apply Z.divide_1_r_nonneg in Hdv; lia.
Qed.

(** For a prime p and x >= 1 with p^2 x^2 below 2^64 and at most MAX_DIVS
    divisors, the loops of [get_divisors_p2x2] compute the divisor list of
    p^2 x^2. *)
Lemma get_divisors_list fuel p x :
  Z.prime p -> 0 < x -> p * p * (x * x) < two64 ->
  count_divisors (p * p * (x * x)) <= MAX_DIVS ->
  x + 64 <= Z.of_nat fuel ->
  exists divs,
    get_divisors_p2x2 fuel p x = Ret divs /\ divisor_list (p * p * (x * x)) divs.
Proof.
  intros Hp Hx HN Hcount Hfuel. pose proof (prime_gt_1 p Hp) as Hp1.
  assert (Hx64 : x < two64).
  { assert (x <= x * x) by nia. assert (1 <= p * p) by nia.
    assert (x * x <= p * p * (x * x)) by nia. lia. }
  destruct (factorize_runs x Hx Hx64 fuel Hfuel) as (fs & Hrun & Hall & Hsorted & Hprod).
  unfold get_divisors_p2x2. rewrite Hrun. cbn [bind].
  set (all := all_factors_of p fs).
  assert (Hnd : NoDup (map prime fs)) by (apply sorted_nodup; exact Hsorted).
  assert (Hexp : Forall (fun f => 0 <= exp f) fs).
  { eapply Forall_impl; [|exact Hall]. intros f [_ He]. lia. }
  assert (Hdl : divisor_list (p * p * (x * x)) (expand_all all [1])).
  { replace (p * p * (x * x)) with (1 * fprod all).
    - apply expand_all_divisor_list.
      + apply divisor_list_one.
      + unfold all. rewrite all_factors_of_spec. apply Forall_app. split.
        * apply Forall_map. eapply Forall_impl; [|exact Hall].
          intros f [Hpf He]. rewrite merged_prime. split; [exact Hpf|].
          unfold merged. destruct (prime f =? p); cbn [exp]; lia.
        * destruct (existsb _ fs); constructor; [|constructor].
          cbn [prime exp]. split; [exact Hp|lia].
      + unfold all. rewrite all_factors_of_spec, map_app, map_map.
        rewrite (map_ext _ prime) by (intros; apply merged_prime).
        destruct (existsb (fun f => prime f =? p) fs) eqn:Ex; cbn [map].
        * rewrite app_nil_r. exact Hnd.
        * apply NoDup_app; [exact Hnd|constructor; [intros []|constructor]|].
          intros q Hq [<-|[]]. cbn [prime] in Hq.
          exact (existsb_prime_false p fs Ex Hq).
      + intros f Hf Hdv.
        assert (Hpf : Z.prime (prime f)).
        { unfold all in Hf. rewrite all_factors_of_spec in Hf.
          apply in_app_or in Hf. destruct Hf as [Hf|Hf].
          - apply in_map_iff in Hf. destruct Hf as (g & <- & Hg).
            rewrite merged_prime. rewrite Forall_forall in Hall. apply (Hall g Hg).
          - destruct (existsb _ fs); [destruct Hf|].
            destruct Hf as [<-|[]]. exact Hp. }
        pose proof (prime_gt_1 _ Hpf). apply Z.divide_pos_le in Hdv; lia.
    - unfold all. rewrite all_factors_of_spec, fprod_app.
      pose proof (merged_product p fs Hnd Hexp) as Hm.
      destruct (existsb (fun f => prime f =? p) fs).
      + change (fprod []) with 1. rewrite Hprod in Hm.
        replace (p * p * (x * x)) with (p ^ 2 * (x * x)) by ring.
        rewrite <- Hm. ring.
      + change (fprod [mkFactor p 2]) with (p ^ 2 * 1). rewrite Hprod in Hm.
        replace (p * p * (x * x)) with (p ^ 2 * (x * x)) by ring.
        rewrite <- Hm. ring. }
  exists (expand_all all [1]). split; [|exact Hdl].
  f_equal. destruct Hdl as (HN0 & Hnodup & Hin).
  apply loop_i_expand.
  - now left.
  - unfold count_of, count_divisors in *.
    assert (length (expand_all all [1%Z])
            <= length (divisors_upto (p * p * (x * x)%Z)%Z))%nat.
    { apply NoDup_incl_length; [exact Hnodup|]. intros d Hd.
      apply Hin in Hd. destruct Hd as [Hpos Hdv]. apply in_divisors_upto.
      split; [split; [lia|apply Z.divide_pos_le; assumption]|].
      apply Z.mod_divide; [lia|exact Hdv]. }
    lia.
  - apply Forall_forall. intros d Hd. apply Hin in Hd. destruct Hd as [Hpos Hdv].
    apply Z.divide_pos_le in Hdv; [|exact HN0]. unfold is_u64. lia.
Qed.

Lemma prime_5 : Z.prime 5.
Proof.
  split; [lia|]. intros n Hn Hd. apply Z.mod_divide in Hd; [|lia].
  assert (n = 2 \/ n = 3 \/ n = 4) as [->|[->| ->]] by lia; discriminate Hd.
Qed.

(** For a prime p and x >= 1 whose p^2 x^2 fits 64 bits and has at most
    MAX_DIVS divisors, [get_divisors_p2x2] returns exactly the positive
    divisors of p^2 x^2, each once; the count returned is their number. *)
Theorem get_divisors_exact_for_prime fuel p x :
  Z.prime p -> 0 < x -> p * p * (x * x) < two64 ->
  count_divisors (p * p * (x * x)) <= MAX_DIVS ->
  x + 64 <= Z.of_nat fuel ->
  exists divs,
    get_divisors_p2x2 fuel p x = Ret divs /\ NoDup divs /\
    (forall d, In d divs <-> (0 < d /\ (d | p * p * (x * x)))) /\
    count_of divs = count_divisors (p * p * (x * x)).
Proof.
  intros Hp Hx HN Hcount Hfuel.
  destruct (get_divisors_list fuel p x Hp Hx HN Hcount Hfuel)
    as (divs & Hrun & HN0 & Hnodup & Hin).
  exists divs. split; [exact Hrun|]. split; [exact Hnodup|]. split; [exact Hin|].
  unfold count_of, count_divisors. f_equal. apply Nat.le_antisymm.
  - apply NoDup_incl_length; [exact Hnodup|]. intros d Hd.
    apply Hin in Hd. destruct Hd as [Hpos Hdv]. apply in_divisors_upto.
    split; [split; [lia|apply Z.divide_pos_le; assumption]|].
    apply Z.mod_divide; [lia|exact Hdv].
  - apply NoDup_incl_length; [apply divisors_upto_nodup|]. intros d Hd.
    apply in_divisors_upto in Hd. destruct Hd as [Hr Hm]. apply Hin.
    split; [lia|]. apply Z.mod_divide; [lia|exact Hm].
Qed.

Lemma get_divisors_exact_for_prime_witness :
  exists divs,
    get_divisors_p2x2 76 5 12 = Ret divs /\ NoDup divs /\
    (forall d, In d divs <-> (0 < d /\ (d | 5 * 5 * (12 * 12)))) /\
    count_of divs = count_divisors (5 * 5 * (12 * 12)).
Proof.
  apply (get_divisors_exact_for_prime 76 5 12).
  - exact prime_5.
  - lia.
  - rewrite two64_eq. lia.
  - vm_compute. discriminate.
  - lia.
Defined.

End Expansion.

(** ** The search does not divide by zero while x stays below 2^32 *)

Section NoZeroDivisor.

(** An entry that is, up to the 64-bit wrap, a positive divisor of [M]. *)
Definition wraps_of (M e : Z) : Prop := exists t, 0 < t /\ (t | M) /\ e = u64 t.

Lemma wraps_of_weaken M Q e : wraps_of M e -> wraps_of (M * Q) e.
Proof.
  intros (t & Ht & Hd & ->). exists t. split; [exact Ht|]. split; [|reflexivity].
  apply Z.divide_mul_l. exact Hd.
Qed.

Lemma wraps_of_mul M Q d pe :
  wraps_of M d -> wraps_of Q pe -> wraps_of (M * Q) (u64 (d * pe)).
Proof.
  intros (t & Ht & Hd & ->) (c & Hc & Hq & ->). exists (t * c).
  split; [nia|]. split.
  - destruct Hd as [a ->]. destruct Hq as [b ->]. exists (a * b). ring.
  - unfold u64. rewrite <- Z.mul_mod by (rewrite two64_eq; lia). reflexivity.
Qed.

Lemma loop_j_wraps M Q pe prev :
  Forall (wraps_of M) prev -> wraps_of Q pe ->
  forall rem j t, (j + rem <= length prev)%nat ->
    exists t', loop_j rem j pe (prev ++ t) = (prev ++ t) ++ t' /\
               Forall (wraps_of (M * Q)) t'.
Proof.
  intros Hprev Hpe. induction rem as [|rem IH]; intros j t Hj; cbn [loop_j].
  - exists []. now rewrite app_nil_r.
  - destruct (count_of (prev ++ t) <? MAX_DIVS); [|exists []; now rewrite app_nil_r].
    rewrite app_nth1 by lia.
    assert (Hd : wraps_of M (nth j prev 0)).
    { rewrite Forall_forall in Hprev. apply Hprev. apply nth_In. lia. }
    rewrite <- (app_assoc prev t).
    destruct (IH (S j) (t ++ [u64 (nth j prev 0 * pe)]) ltac:(lia)) as (t' & -> & Ht').
    exists (u64 (nth j prev 0 * pe) :: t'). split.
    + rewrite <- !app_assoc. reflexivity.
    + constructor; [apply wraps_of_mul; assumption|exact Ht'].
Qed.

Lemma loop_e_wraps M q a prev :
  0 < q -> Forall (wraps_of M) prev ->
  forall rem k pe t,
    0 <= k -> k + Z.of_nat rem <= a -> pe = u64 (q ^ k) ->
    exists t', loop_e rem (length prev) q pe (prev ++ t) = (prev ++ t) ++ t' /\
               Forall (wraps_of (M * q ^ a)) t'.
Proof.
  intros Hq Hprev. induction rem as [|rem IH]; intros k pe t Hk Hka Hpe; cbn [loop_e].
  - exists []. now rewrite app_nil_r.
  - destruct (count_of (prev ++ t) <? MAX_DIVS); [|exists []; now rewrite app_nil_r].
    cbv zeta.
    assert (Hpe' : u64 (pe * q) = u64 (q ^ (k + 1))).
    { subst pe. unfold u64. rewrite Z.mul_mod_idemp_l by (rewrite two64_eq; lia).
      f_equal. rewrite Z.pow_add_r, Z.pow_1_r by lia. reflexivity. }
    assert (Hw : wraps_of (q ^ a) (u64 (pe * q))).
    { rewrite Hpe'. exists (q ^ (k + 1)). split; [apply Z.pow_pos_nonneg; lia|].
      split; [|reflexivity]. exists (q ^ (a - (k + 1))).
      rewrite <- Z.pow_add_r by lia. f_equal. lia. }
    destruct (loop_j_wraps M (q ^ a) (u64 (pe * q)) prev Hprev Hw (length prev) 0 t
                ltac:(lia)) as (t1 & -> & Ht1).
    rewrite <- (app_assoc prev t).
    destruct (IH (k + 1) (u64 (pe * q)) (t ++ t1) ltac:(lia) ltac:(lia) Hpe')
      as (t2 & -> & Ht2).
    exists (t1 ++ t2). split; [rewrite <- !app_assoc; reflexivity|].
    apply Forall_app. split; assumption.
Qed.

Lemma loop_i_wraps fs : forall M divs,
  Forall (fun f => 0 < prime f /\ 0 <= exp f) fs ->
  Forall (wraps_of M) divs ->
  Forall (wraps_of (M * fprod fs)) (loop_i fs divs).
Proof.
  induction fs as [|f fs IH]; intros M divs Hfs Hdivs; cbn [loop_i].
  - change (fprod []) with 1. rewrite Z.mul_1_r. exact Hdivs.
  - change (fprod (f :: fs)) with (prime f ^ exp f * fprod fs).
    inversion Hfs as [|? ? [Hq He] Hfs']; subst.
    assert (Hweak : forall l, Forall (wraps_of M) l ->
                              Forall (wraps_of (M * (prime f ^ exp f * fprod fs))) l).
    { intros l Hl. eapply Forall_impl; [|exact Hl]. intros e. apply wraps_of_weaken. }
    destruct (count_of divs <? MAX_DIVS); [|apply Hweak; exact Hdivs].
    rewrite Z.mul_assoc. apply IH; [exact Hfs'|].
    pose proof (loop_e_wraps M (prime f) (exp f) divs Hq Hdivs
                  (Z.to_nat (exp f)) 0 1 []) as L.
    rewrite app_nil_r in L.
    destruct L as (t' & -> & Ht'); [lia|lia|reflexivity|].
    apply Forall_app. split; [|exact Ht'].
    eapply Forall_impl; [|exact Hdivs]. intros e. apply wraps_of_weaken.
Qed.


Lemma wraps_of_one : Forall (wraps_of 1) [1].
Proof.
  constructor; [|constructor]. exists 1. split; [lia|].
  split; [apply Z.divide_refl|reflexivity].
Qed.

(** Every entry [get_divisors_p2x2] writes is, up to the wrap, a positive
    divisor of p^2 x^2. *)
Lemma get_divisors_wraps fuel p x :
  0 < p -> 0 < x < two64 -> x + 64 <= Z.of_nat fuel ->
  exists divs,
    get_divisors_p2x2 fuel p x = Ret divs /\
    Forall (wraps_of (p ^ 2 * (x * x))) divs.
Proof.
  intros Hp [Hx Hx64] Hfuel.
  destruct (factorize_runs x Hx Hx64 fuel Hfuel) as (fs & Hrun & Hall & Hsorted & Hprod).
  unfold get_divisors_p2x2. rewrite Hrun. cbn [bind]. eexists. split; [reflexivity|].
  assert (Hnd : NoDup (map prime fs)) by (apply sorted_nodup; exact Hsorted).
  assert (Hexp : Forall (fun f => 0 <= exp f) fs).
  { eapply Forall_impl; [|exact Hall]. intros f [_ He]. lia. }
  assert (Hprodall : fprod (all_factors_of p fs) = p ^ 2 * (x * x)).
  { rewrite all_factors_of_spec, fprod_app, <- Hprod, <- (merged_product p fs Hnd Hexp).
    f_equal. destruct (existsb _ fs); [reflexivity|].
    change (fprod [mkFactor p 2]) with (p ^ 2 * 1). ring. }
  assert (Hpos : Forall (fun f => 0 < prime f /\ 0 <= exp f) (all_factors_of p fs)).
  { rewrite all_factors_of_spec. apply Forall_app. split.
    - apply Forall_map. eapply Forall_impl; [|exact Hall].
      intros f [Hpr He]. pose proof (prime_gt_1 _ Hpr).
      rewrite merged_prime. split; [lia|].
      unfold merged. destruct (prime f =? p); cbn [exp]; lia.
    - destruct (existsb _ fs); constructor; [|constructor]. cbn [prime exp]. lia. }
  pose proof (loop_i_wraps (all_factors_of p fs) 1 [1] Hpos wraps_of_one) as L.
  rewrite Hprodall, Z.mul_1_l in L. exact L.
Qed.

Lemma odd_coprime_two64 n : n mod 2 = 1 -> Z.gcd two64 (n * n) = 1.
Proof.
  intros Hodd.
  assert (H2 : Z.gcd 2 n = 1).
  { pose proof (Z.gcd_divide_l 2 n) as Hl. pose proof (Z.gcd_divide_r 2 n) as Hr.
    pose proof (Z.gcd_nonneg 2 n) as Hn.
    assert (Hle : Z.gcd 2 n <= 2) by (apply Z.divide_pos_le; [lia|exact Hl]).
    assert (Hcases : Z.gcd 2 n = 0 \/ Z.gcd 2 n = 1 \/ Z.gcd 2 n = 2) by lia.
    destruct Hcases as [E|[E|E]]; [|exact E|].
    - rewrite E in Hl. destruct Hl as [k Hk]. lia.
    - rewrite E in Hr. apply Z.mod_divide in Hr; lia. }
  assert (H64 : Z.gcd two64 n = 1).
  { change two64 with (2 ^ 64). apply Z.coprime_pow_l; [lia|exact H2]. }
  apply Z.coprime_mul_r; exact H64.
Qed.

(** For odd n and 0 < x < 2^32 no wrapped divisor of n^2 x^2 is zero. *)
Lemma wraps_nonzero n x e :
  n mod 2 = 1 -> 0 < x < 2 ^ 32 -> wraps_of (n ^ 2 * (x * x)) e -> e <> 0.
Proof.
  intros Hodd Hx (t & Ht & Hd & ->) E. unfold u64 in E.
  apply Z.mod_divide in E; [|rewrite two64_eq; lia].
  assert (Hdiv : (two64 | n * n * (x * x))).
  { replace (n * n) with (n ^ 2) by ring. eapply Z.divide_trans; eassumption. }
  apply Z.gauss in Hdiv; [|apply odd_coprime_two64; exact Hodd].
  apply Z.divide_pos_le in Hdiv; [|nia].
  rewrite two64_eq in Hdiv. change (2 ^ 32) with 4294967296 in Hx. nia.
Qed.

Lemma try_divs_returns ds : forall n x A A64 nx D t sol,
  Forall (fun d => d <> 0) ds -> returns (try_divs ds n x A A64 nx D t sol).
Proof.
  induction ds as [|d ds IH]; intros n x A A64 nx D t sol Hnz; cbn [try_divs].
  - eexists. reflexivity.
  - inversion Hnz as [|? ? Hd Hds]; subst.
    specialize (IH n x A A64 nx D t sol Hds).
    destruct (nx <? d); [exact IH|].
    destruct (negb (d mod A64 =? t)); [exact IH|].
    destruct (Z.eqb_spec d 0) as [?|_]; [contradiction|].
    cbv zeta.
    destruct (negb (u128 (D / d + nx) mod A =? 0)); [exact IH|].
    destruct (u128 (d + nx) / A <? x); [exact IH|].
    destruct (u128 (D / d + nx) / A <? u128 (d + nx) / A).
    + destruct (u128 (D / d + nx) / A <? x); [exact IH|].
      destruct (negb (verify128 _ _ _ _ =? 0)); [eexists; reflexivity|exact IH].
    + destruct (u128 (d + nx) / A <? x); [exact IH|].
      destruct (negb (verify128 _ _ _ _ =? 0)); [eexists; reflexivity|exact IH].
Qed.


Lemma try_x_returns fuel n x sol :
  5 < n -> n mod 4 = 1 -> (n + 3) / 4 <= x < 2 ^ 32 ->
  x + 64 <= Z.of_nat fuel ->
  returns (try_x fuel n x sol).
Proof.
  intros Hn H1 Hx Hfuel. change (2 ^ 32) with 4294967296 in Hx.
  assert (Hx0 : 0 < x) by (clear - Hn Hx; Z.div_mod_to_equations; lia).
  assert (HA : A_of n x = 4 * x - n /\ 3 <= 4 * x - n < 4 * 4294967296).
  { unfold A_of. rewrite (u128_small (4 * x)) by (rewrite two128_eq; lia).
    assert (n + 3 <= 4 * x) by (clear - H1 Hx; Z.div_mod_to_equations; lia).
    rewrite u128_small by (rewrite two128_eq; lia). lia. }
  destruct HA as [EA HA]. unfold try_x. cbv zeta. unfold A64_of. rewrite EA.
  rewrite (u64_small (4 * x - n)) by (rewrite two64_eq; lia).
  destruct (Z.eqb_spec (4 * x - n) 0) as [?|_]; [lia|].
  destruct (get_divisors_wraps fuel n x ltac:(lia) ltac:(rewrite two64_eq; lia) Hfuel)
    as (divs & -> & Hw).
  cbn [bind]. apply try_divs_returns.
  eapply Forall_impl; [|exact Hw]. intros e He.
  apply (wraps_nonzero n x); [clear - H1; Z.div_mod_to_equations; lia| |exact He].
  change (2 ^ 32) with 4294967296. lia.
Qed.

Lemma search_returns steps : forall fuel n x x_max sol,
  5 < n -> n mod 4 = 1 -> (n + 3) / 4 <= x -> x_max < 2 ^ 32 ->
  x_max + 64 <= Z.of_nat fuel ->
  returns (search steps fuel n x x_max sol).
Proof.
  induction steps as [|steps IH]; intros fuel n x x_max sol Hn H1 Hx Hmax Hfuel;
    cbn [search].
  - eexists. reflexivity.
  - destruct (Z.leb_spec x x_max) as [Hle|_]; [|eexists; reflexivity].
    destruct (try_x_returns fuel n x sol Hn H1 ltac:(lia) ltac:(lia)) as [[s|] ->];
      cbn [bind].
    + eexists. reflexivity.
    + change (2 ^ 32) with 4294967296 in Hmax.
      assert (0 <= x) by (clear - Hn Hx; Z.div_mod_to_equations; lia).
      rewrite (u64_small (x + 1)) by (rewrite two64_eq; lia).
      apply IH; try assumption. lia.
Qed.

(** While the search window stays below 2^32 the solver returns: no
    division by zero occurs and the fuel suffices.  For every n with
    (n + 3) / 4 + 50000 < 2^32, [solve_erdos_straus n] yields a result,
    whether or not its buffer is allocated. *)
Theorem solve_returns_while_window_below_2_32 mem_ok fuel n :
  (n + 3) / 4 + 50000 < 2 ^ 32 ->
  (n + 3) / 4 + 50064 <= Z.of_nat fuel ->
  returns (solve_erdos_straus mem_ok fuel n).
Proof.
  intros Hwin Hfuel. unfold solve_erdos_straus. cbv zeta.
  destruct (Z.leb_spec n 1) as [?|Hn1]; [eexists; reflexivity|].
  destruct (Z.eqb_spec n 2) as [?|Hn2]; [eexists; reflexivity|].
  destruct (Z.eqb_spec n 3) as [?|Hn3]; [eexists; reflexivity|].
  destruct (Z.eqb_spec n 4) as [?|Hn4]; [eexists; reflexivity|].
  destruct (Z.eqb_spec n 5) as [?|Hn5]; [eexists; reflexivity|].
  destruct (Z.eqb_spec (n mod 2) 0) as [?|Hodd]; [eexists; reflexivity|].
  destruct (Z.eqb_spec (n mod 4) 3) as [?|H3]; [eexists; reflexivity|].
  assert (H1 : n mod 4 = 1) by (clear - Hodd H3; Z.div_mod_to_equations; lia).
  change (2 ^ 32) with 4294967296 in Hwin.
  assert (Hq : 0 <= (n + 3) / 4) by (apply Z.div_pos; lia).
  assert (Hn : n < 4 * 4294967296) by (clear - Hwin; Z.div_mod_to_equations; lia).
  unfold x_max_of, x_min_of.
  rewrite (u64_small (n + 3)) by (rewrite two64_eq; lia).
  rewrite (u64_small ((n + 3) / 4 + 50000)) by (rewrite two64_eq; lia).
  destruct mem_ok; cbn [negb]; [|eexists; reflexivity].
  apply search_returns; [lia|exact H1|lia| |lia].
  change (2 ^ 32) with 4294967296. lia.
Qed.

Lemma solve_returns_while_window_below_2_32_witness :
  returns (solve_erdos_straus true (Z.to_nat 50068) 13).
Proof.
  apply solve_returns_while_window_below_2_32; [reflexivity|].
  apply Z.leb_le. vm_compute. reflexivity.
Defined.

End NoZeroDivisor.

(** ** The result buffer of the reverse-and-add functions *)

Section ResultBuffer.
Import Mem Core CoreLarge.

(** The character written for a digit cell. *)
Definition to_char (v : Z) : Z := (v + 48) mod 256.

Lemma load_ok l i : (i < length l)%nat -> load l i = Ret (nth i l 0).
Proof.
  intros H. unfold load. destruct (nth_error l i) as [v|] eqn:E.
  - now rewrite (nth_error_nth l i 0 E).
  - apply nth_error_None in E. lia.
Qed.

Lemma upd_firstn_succ l : forall i v,
  (i < length l)%nat -> firstn (S i) (upd l i v) = firstn i l ++ [v].
Proof.
  induction l as [|h t IH]; intros [|i] v H; cbn [length] in H; try lia.
  - reflexivity.
  - cbn [upd firstn app]. f_equal. apply IH. lia.
Qed.

Lemma skipn_nth_cons (l : list Z) : forall i,
  (i < length l)%nat -> skipn i l = nth i l 0 :: skipn (S i) l.
Proof.
  induction l as [|h t IH]; intros [|i] H; cbn [length] in H; try lia; [reflexivity|].
  cbn [nth]. rewrite !skipn_cons. apply IH. lia.
Qed.

Lemma upd_app_length (w : list Z) : forall a t v, upd (w ++ a :: t) (length w) v = w ++ v :: t.
Proof.
  induction w as [|b w IH]; intros a t v; [reflexivity|].
  cbn [app length upd]. f_equal. apply IH.
Qed.

Lemma copy_loop_spec next : forall k i buf,
  (i + k <= length next)%nat -> (i + k <= length buf)%nat ->
  CoreOut.copy_loop k i next buf
  = Ret (firstn i buf ++ map to_char (firstn k (skipn i next)) ++ skipn (i + k) buf).
Proof.
  induction k as [|k IH]; intros i buf Hn Hb; cbn [CoreOut.copy_loop].
  - rewrite Nat.add_0_r. cbn [firstn map app]. now rewrite firstn_skipn.
  - rewrite load_ok by lia. cbn [bind]. rewrite store_ok by lia. cbn [bind].
    rewrite IH by (try rewrite upd_length; lia). f_equal.
    fold (to_char (nth i next 0)).
    rewrite upd_firstn_succ by lia. rewrite <- app_assoc. f_equal. cbn [app].
    rewrite (skipn_nth_cons next i) by lia. cbn [firstn map app]. f_equal. f_equal.
    replace (i + S k)%nat with (S i + k)%nat by lia.
    apply upd_skipn_after. lia.
Qed.

(** With room in the result buffer, [write_result] leaves the first
    [c = min len (size - 1)] cells as characters, a terminator after
    them, and the rest of the buffer as it was. *)
Lemma write_result_spec next len buf size :
  (len <= length next)%nat -> 0 < size <= Z.of_nat (length buf) ->
  let c := Nat.min len (Z.to_nat (size - 1)) in
  CoreOut.write_result next (Z.of_nat len) (Some buf) size
  = Ret (Some (map to_char (firstn c next) ++ 0 :: skipn (S c) buf)).
Proof.
  intros Hlen Hsize c. unfold CoreOut.write_result.
  destruct (Z.ltb_spec 0 size) as [_|?]; [|lia]. cbv zeta.
  assert (Ec : Z.to_nat (if Z.of_nat len <? size - 1 then Z.of_nat len else size - 1) = c).
  { unfold c. destruct (Z.ltb_spec (Z.of_nat len) (size - 1)); lia. }
  rewrite Ec. assert (Hc : (c <= len)%nat /\ (c < length buf)%nat) by (unfold c; lia).
  clearbody c.
  rewrite copy_loop_spec by (cbn [Nat.add]; lia). cbn [bind Nat.add firstn app].
  change (skipn 0 next) with next.
  set (w := map to_char (firstn c next)).
  assert (Hw : length w = c).
  { unfold w. rewrite length_map, length_firstn. lia. }
  clearbody w.
  rewrite store_ok by (rewrite length_app, length_skipn; lia). cbn [bind].
  f_equal. f_equal.
  rewrite (skipn_nth_cons buf c) by lia. clear Ec. subst c. apply upd_app_length.
Qed.


Lemma write_result_none next len rb size :
  rb = None \/ size <= 0 -> CoreOut.write_result next len rb size = Ret rb.
Proof.
  intros [->|Hs]; [reflexivity|]. unfold CoreOut.write_result.
  destruct rb as [buf|]; [|reflexivity].
  destruct (Z.ltb_spec 0 size) as [?|_]; [lia|reflexivity].
Qed.

(** Without a result buffer the loop is the loop of [Core]. *)
Lemma iterate_without_buffer rb size : rb = None \/ size <= 0 ->
  forall rem iter max_iter len cur next,
    CoreOut.iterate rem iter max_iter len cur next rb size
    = do r <- iterate rem iter max_iter len cur next; Ret (r, rb).
Proof.
  intros Hrb. induction rem as [|rem IH]; intros iter max_iter len cur next;
    cbn [CoreOut.iterate iterate]; [reflexivity|].
  destruct (iter <=? max_iter); [|reflexivity].
  destruct (add_reverse cur len next) as [[len' next']| |]; cbn [bind]; try reflexivity.
  destruct (negb (is_palindrome next' len' =? 0)).
  - rewrite write_result_none by exact Hrb. reflexivity.
  - destruct (iter =? INT_MAX); [reflexivity|]. apply IH.
Qed.

(** The value returned does not depend on the result buffer. *)
Lemma iterate_same_code rb size :
  forall rem iter max_iter len cur next r rb',
    CoreOut.iterate rem iter max_iter len cur next rb size = Ret (r, rb') ->
    iterate rem iter max_iter len cur next = Ret r.
Proof.
  induction rem as [|rem IH]; intros iter max_iter len cur next r rb' H;
    cbn [CoreOut.iterate iterate] in *.
  - injection H as <- _. reflexivity.
  - destruct (iter <=? max_iter); [|injection H as <- _; reflexivity].
    destruct (add_reverse cur len next) as [[len' next']| |]; cbn [bind] in *;
      try discriminate.
    destruct (negb (is_palindrome next' len' =? 0)).
    + destruct (CoreOut.write_result next' len' rb size); cbn [bind] in H;
        try discriminate. injection H as <- _. reflexivity.
    + destruct (iter =? INT_MAX); [discriminate|]. eapply IH. exact H.
Qed.

(** The content of the result buffer after a palindrome [pal] was found:
    as many characters as fit before the terminator. *)
Definition written (pal buf : list Z) (size : Z) : list Z :=
  let c := Nat.min (length pal) (Z.to_nat (size - 1)) in
  map to_char (firstn c pal) ++ 0 :: skipn (S c) buf.

Lemma iterate_writes buf size : 0 < size <= Z.of_nat (length buf) ->
  forall rem iter max_iter n cur next,
  Z.of_nat rem = max_iter - iter + 1 -> max_iter < INT_MAX ->
  (n <= length cur)%nat -> length next = length cur ->
  (n + rem <= length cur)%nat ->
  let ds := firstn n cur in
  exists r buf',
    CoreOut.iterate rem iter max_iter (Z.of_nat n) cur next (Some buf) size
    = Ret (r, Some buf') /\
    ((r = -1 /\ buf' = buf /\
      forall t, (1 <= t <= rem)%nat -> ~ palindrome (iterates t ds)) \/
     (exists t, (1 <= t <= rem)%nat /\ r = iter + Z.of_nat t - 1 /\
                palindrome (iterates t ds) /\
                (forall t', (1 <= t' < t)%nat -> ~ palindrome (iterates t' ds)) /\
                buf' = written (iterates t ds) buf size)).
Proof.
  intros Hsize.
  induction rem as [|rem IH]; intros iter max_iter n cur next Hrem Hmax Hn Hlen Hroom;
    cbv zeta.
  - exists (-1), buf. split; [reflexivity|]. left. split; [reflexivity|].
    split; [reflexivity|]. intros t Ht. lia.
  - cbn [CoreOut.iterate]. destruct (Z.leb_spec iter max_iter) as [_|?]; [|lia].
    destruct (add_reverse_pure cur n next Hn ltac:(lia)) as (next' & Hadd & Hl' & Hds).
    rewrite Hadd. cbn [bind].
    pose proof (radd_length (firstn n cur)) as Hgrow.
    rewrite length_firstn, Nat.min_l in Hgrow by lia.
    set (n' := length (radd (firstn n cur))) in *.
    destruct (is_palindrome_spec next' n' ltac:(lia)) as [Hp1 Hp0].
    rewrite Hds in Hp1, Hp0.
    destruct (Z.eqb_spec (is_palindrome next' (Z.of_nat n')) 0) as [E0|Hn0]; cbn [negb].
    + apply Hp0 in E0.
      destruct (Z.eqb_spec iter INT_MAX) as [?|_]; [lia|].
      destruct (IH (iter + 1) max_iter n' next' cur ltac:(lia) Hmax ltac:(lia)
                  ltac:(lia) ltac:(lia)) as (r & buf' & Hrun & Hres).
      rewrite Hds in Hres. exists r, buf'. split; [exact Hrun|].
      destruct Hres as [(-> & -> & Hnone)|(t & Ht & -> & Hpal & Hfirst & Hbuf)].
      * left. split; [reflexivity|]. split; [reflexivity|].
        intros [|[|t]] Ht; [lia| |].
        { exact E0. }
        { apply (Hnone (S t)). lia. }
      * right. exists (S t). split; [lia|]. split; [lia|]. split; [exact Hpal|].
        split; [|exact Hbuf].
        intros [|[|t']] Ht'; [lia| |].
        { exact E0. }
        { apply (Hfirst (S t')). lia. }
    + assert (E1 : palindrome (radd (firstn n cur))).
      { destruct (list_eq_dec Z.eq_dec (radd (firstn n cur)) (rev (radd (firstn n cur))))
          as [E|Hne]; [exact E|]. exfalso. apply Hn0. apply Hp0. exact Hne. }
      rewrite (write_result_spec next' n' buf size ltac:(lia) Hsize). cbn [bind].
      eexists iter, _. split; [reflexivity|]. right. exists 1%nat.
      split; [lia|]. split; [lia|]. split; [exact E1|].
      split; [intros t' Ht'; lia|].
      cbn [iterates]. unfold written. fold n'.
      assert (Hc : firstn (Nat.min n' (Z.to_nat (size - 1))) next'
                   = firstn (Nat.min n' (Z.to_nat (size - 1))) (radd (firstn n cur))).
      { rewrite <- Hds, firstn_firstn. f_equal. lia. }
      rewrite Hc. reflexivity.
Qed.


Lemma iterates_digits t : forall ds,
  Forall is_digit ds -> Forall is_digit (iterates t ds).
Proof.
  induction t as [|t IH]; intros ds H; cbn [iterates]; [exact H|].
  apply IH. apply radd_digits. exact H.
Qed.

Lemma firstn_digits (l : list Z) : forall k,
  Forall is_digit l -> Forall is_digit (firstn k l).
Proof.
  induction l as [|d l IH]; intros [|k] H; cbn [firstn]; try constructor.
  - inversion H; assumption.
  - apply IH. inversion H; assumption.
Qed.

Lemma to_char_digits l : Forall is_digit l -> map to_char l = digits_of l.
Proof.
  unfold digits_of. induction 1 as [|d l Hd Hl IH]; cbn [map]; [reflexivity|].
  rewrite IH. f_equal. unfold is_digit in Hd. unfold to_char.
  apply Z.mod_small. lia.
Qed.

(** What a call with a result buffer returns and leaves in the buffer. *)
Definition writes_first_palindrome (ds : list Z) (max_iter : Z) (buf : list Z)
  (size r : Z) (buf' : list Z) : Prop :=
  first_palindrome_count ds max_iter r /\
  (r = -1 -> buf' = buf) /\
  (1 <= r ->
   let pal := iterates (Z.to_nat r) ds in
   let c := Nat.min (length pal) (Z.to_nat (size - 1)) in
   buf' = digits_of (firstn c pal) ++ 0 :: skipn (S c) buf).

Lemma run_in_buffers_writes cap s max_iter buf size :
  Forall is_digit (map to_digit s) ->
  (length s <= cap)%nat -> Z.of_nat (length s) + max_iter <= Z.of_nat cap ->
  max_iter < INT_MAX -> 0 < size <= Z.of_nat (length buf) ->
  exists r buf',
    (do d1 <- fill s 0 (repeat 0 cap);
     CoreOut.iterate (Z.to_nat max_iter) 1 max_iter (Z.of_nat (length s)) d1
       (repeat 0 cap) (Some buf) size)
    = Ret (r, Some buf') /\
    writes_first_palindrome (map to_digit s) max_iter buf size r buf'.
Proof.
  intros Hdig Hlen Hroom Hmax Hsize.
  assert (Hbuf : length (repeat 0 cap) = cap) by apply repeat_length.
  rewrite fill_spec by (rewrite Hbuf; lia). cbn [bind firstn app Nat.add].
  set (d1 := map to_digit s ++ skipn (length s) (repeat 0 cap)).
  assert (Hd1 : length d1 = cap).
  { unfold d1. rewrite length_app, length_map, length_skipn, Hbuf. lia. }
  assert (Hds : firstn (length s) d1 = map to_digit s).
  { unfold d1. rewrite firstn_app, length_map, Nat.sub_diag, firstn_O, app_nil_r.
    apply firstn_all2. rewrite length_map. lia. }
  unfold writes_first_palindrome, first_palindrome_count.
  destruct (Z_le_gt_dec 0 max_iter) as [Hpos|Hneg].
  - destruct (iterate_writes buf size Hsize (Z.to_nat max_iter) 1 max_iter (length s) d1
                (repeat 0 cap) ltac:(lia) Hmax ltac:(lia) ltac:(lia) ltac:(lia))
      as (r & buf' & Hrun & Hres).
    rewrite Hds in Hres. exists r, buf'. split; [exact Hrun|].
    destruct Hres as [(-> & -> & Hnone)|(t & Ht & -> & Hpal & Hfirst & ->)].
    + split; [|split; [reflexivity|lia]].
      left. split; [reflexivity|]. intros t Ht1 Ht2. apply Hnone. lia.
    + replace (Z.to_nat (1 + Z.of_nat t - 1)) with t by lia.
      split; [|split; [lia|]].
      * right. split; [lia|]. split; [exact Hpal|].
        intros t' Ht1 Ht2. apply Hfirst. lia.
      * intros _. cbv zeta. unfold written. rewrite to_char_digits; [reflexivity|].
        apply firstn_digits. apply iterates_digits. exact Hdig.
  - replace (Z.to_nat max_iter) with 0%nat by lia. cbn [CoreOut.iterate].
    exists (-1), buf. split; [reflexivity|].
    split; [|split; [reflexivity|lia]].
    left. split; [reflexivity|]. intros t Ht1 Ht2. lia.
Qed.

(** For a string of decimal digits that stays within the fixed buffers,
    and a result buffer of at least [result_buf_size > 0] cells,
    [reverse_and_add_count] returns the number r of the first step that
    gives a palindrome, or -1; with -1 the result buffer is untouched, and
    otherwise it holds the first min(len, size - 1) digits of that
    palindrome as characters, then a terminator, and beyond it what it held
    before. *)
Theorem reverse_and_add_count_writes_palindrome s max_iter buf size :
  Forall is_digit (map to_digit s) ->
  Z.of_nat (length s) < MAX_DIGITS ->
  Z.of_nat (length s) + max_iter <= MAX_DIGITS ->
  0 < size <= Z.of_nat (length buf) ->
  exists r buf',
    CoreOut.reverse_and_add_count s max_iter (Some buf) size = Ret (r, Some buf') /\
    writes_first_palindrome (map to_digit s) max_iter buf size r buf'.
Proof.
  intros Hdig Hlen Hroom Hsize. unfold CoreOut.reverse_and_add_count.
  destruct (Z.leb_spec MAX_DIGITS (Z.of_nat (length s))) as [?|_]; [lia|].
  unfold MAX_DIGITS in *.
  apply (run_in_buffers_writes 4096); try assumption; unfold INT_MAX; lia.
Qed.

Lemma reverse_and_add_count_writes_palindrome_witness :
  exists r buf',
    CoreOut.reverse_and_add_count (digits_of [5; 9]) 10 (Some [7; 7; 7; 7; 7]) 3
    = Ret (r, Some buf') /\
    writes_first_palindrome (map to_digit (digits_of [5; 9])) 10 [7; 7; 7; 7; 7] 3 r buf'.
Proof.
  apply (reverse_and_add_count_writes_palindrome (digits_of [5; 9]) 10 [7; 7; 7; 7; 7] 3).
  - repeat (constructor; [unfold is_digit; vm_compute; split; discriminate|]).
    constructor.
  - reflexivity.
  - vm_compute. discriminate.
  - vm_compute. split; [reflexivity|discriminate].
Defined.

(** The same for [reverse_and_add_count_large] when both allocations
    succeed, max_iter >= 0 and length + max_iter + 10 <= 1000000. *)
Theorem reverse_and_add_count_large_writes_palindrome s max_iter buf size :
  Forall is_digit (map to_digit s) ->
  0 <= max_iter ->
  Z.of_nat (length s) + max_iter + 10 <= 1000000 ->
  0 < size <= Z.of_nat (length buf) ->
  exists r buf',
    CoreOut.reverse_and_add_count_large true s max_iter (Some buf) size
    = Ret (r, Some buf') /\
    writes_first_palindrome (map to_digit s) max_iter buf size r buf'.
Proof.
  intros Hdig Hpos Hcap Hsize.
  unfold CoreOut.reverse_and_add_count_large, int_add, INT_MIN, INT_MAX.
  destruct (Z.leb_spec (-2147483648) (Z.of_nat (length s) + max_iter)) as [_|?]; [|lia].
  destruct (Z.leb_spec (Z.of_nat (length s) + max_iter) 2147483647) as [_|?]; [|lia].
  cbn [andb bind].
  destruct (Z.leb_spec (-2147483648) (Z.of_nat (length s) + max_iter + 10)) as [_|?]; [|lia].
  destruct (Z.leb_spec (Z.of_nat (length s) + max_iter + 10) 2147483647) as [_|?]; [|lia].
  cbn [andb bind].
  destruct (Z.ltb_spec 1000000 (Z.of_nat (length s) + max_iter + 10)) as [?|_]; [lia|].
  destruct (Z.leb_spec 0 (Z.of_nat (length s) + max_iter + 10)) as [_|?]; [|lia].
  cbn [andb negb].
  apply run_in_buffers_writes; try assumption; unfold INT_MAX; lia.
Qed.

Lemma reverse_and_add_count_large_writes_palindrome_witness :
  exists r buf',
    CoreOut.reverse_and_add_count_large true (digits_of [5; 9]) 10 (Some [7; 7; 7; 7; 7]) 3
    = Ret (r, Some buf') /\
    writes_first_palindrome (map to_digit (digits_of [5; 9])) 10 [7; 7; 7; 7; 7] 3 r buf'.
Proof.
  apply (reverse_and_add_count_large_writes_palindrome
           (digits_of [5; 9]) 10 [7; 7; 7; 7; 7] 3).
  - repeat (constructor; [unfold is_digit; vm_compute; split; discriminate|]).
    constructor.
  - discriminate.
  - vm_compute. discriminate.
  - vm_compute. split; [reflexivity|discriminate].
Defined.

(** The result buffer is an output only: the value returned is the one
    returned without a buffer, and with a null [result_buf] or
    [result_buf_size <= 0] nothing is written. *)
Theorem result_buf_is_output_only s max_iter rb size :
  (forall r rb',
      CoreOut.reverse_and_add_count s max_iter rb size = Ret (r, rb') ->
      reverse_and_add_count s max_iter = Ret r) /\
  (forall mem_ok r rb',
      CoreOut.reverse_and_add_count_large mem_ok s max_iter rb size = Ret (r, rb') ->
      reverse_and_add_count_large mem_ok s max_iter = Ret r) /\
  (rb = None \/ size <= 0 ->
   CoreOut.reverse_and_add_count s max_iter rb size
   = (do r <- reverse_and_add_count s max_iter; Ret (r, rb)) /\
   forall mem_ok,
     CoreOut.reverse_and_add_count_large mem_ok s max_iter rb size
     = (do r <- reverse_and_add_count_large mem_ok s max_iter; Ret (r, rb))).
Proof.
  split; [|split].
  - intros r rb'. unfold CoreOut.reverse_and_add_count, reverse_and_add_count.
    destruct (MAX_DIGITS <=? Z.of_nat (length s)).
    + intros H. injection H as <- _. reflexivity.
    + destruct (fill s 0 buffer) as [d1| |]; cbn [bind]; try discriminate.
      apply iterate_same_code.
  - intros mem_ok r rb'.
    unfold CoreOut.reverse_and_add_count_large, reverse_and_add_count_large.
    destruct (int_add (Z.of_nat (length s)) max_iter) as [t| |]; cbn [bind];
      try discriminate.
    destruct (int_add t 10) as [m| |]; cbn [bind]; try discriminate.
    cbv zeta. destruct (negb _).
    + intros H. injection H as <- _. reflexivity.
    + destruct (fill s 0 _) as [d1| |]; cbn [bind]; try discriminate.
      apply iterate_same_code.
  - intros Hrb. split.
    + unfold CoreOut.reverse_and_add_count, reverse_and_add_count.
      destruct (MAX_DIGITS <=? Z.of_nat (length s)); [reflexivity|].
      destruct (fill s 0 buffer) as [d1| |]; cbn [bind]; try reflexivity.
      apply iterate_without_buffer. exact Hrb.
    + intros mem_ok.
      unfold CoreOut.reverse_and_add_count_large, reverse_and_add_count_large.
      destruct (int_add (Z.of_nat (length s)) max_iter) as [t| |]; cbn [bind];
        try reflexivity.
      destruct (int_add t 10) as [m| |]; cbn [bind]; try reflexivity.
      cbv zeta. destruct (negb _); [reflexivity|].
      destruct (fill s 0 _) as [d1| |]; cbn [bind]; try reflexivity.
      apply iterate_without_buffer. exact Hrb.
Qed.

End ResultBuffer.

(** ** The divisor enumerator relies on p being prime *)

Section CompositeP.

Lemma loop_i_full fs : forall divs,
  MAX_DIVS <= count_of divs -> loop_i fs divs = divs.
Proof.
  destruct fs as [|f fs]; intros divs H; cbn [loop_i]; [reflexivity|].
  destruct (Z.ltb_spec (count_of divs) MAX_DIVS) as [?|_]; [lia|reflexivity].
Qed.

Lemma loop_i_app fs gs : forall divs,
  loop_i (fs ++ gs) divs = loop_i gs (loop_i fs divs).
Proof.
  induction fs as [|f fs IH]; intros divs; cbn [app loop_i]; [reflexivity|].
  destruct (Z.ltb_spec (count_of divs) MAX_DIVS) as [_|Hfull]; [apply IH|].
  symmetry. apply loop_i_full. exact Hfull.
Qed.

(** Each entry the inner loop appends is an earlier entry times [pe],
    reduced to 64 bits. *)
Lemma loop_j_entries pe prev : forall rem j t,
  (j + rem <= length prev)%nat ->
  exists t', loop_j rem j pe (prev ++ t) = (prev ++ t) ++ t' /\
             Forall (fun e => exists d, In d prev /\ e = u64 (d * pe)) t'.
Proof.
  induction rem as [|rem IH]; intros j t Hj; cbn [loop_j].
  - exists []. now rewrite app_nil_r.
  - destruct (count_of (prev ++ t) <? MAX_DIVS); [|exists []; now rewrite app_nil_r].
    rewrite app_nth1 by lia. rewrite <- (app_assoc prev t).
    destruct (IH (S j) (t ++ [u64 (nth j prev 0 * pe)]) ltac:(lia)) as (t' & -> & Ht').
    exists (u64 (nth j prev 0 * pe) :: t'). split.
    + rewrite <- !app_assoc. reflexivity.
    + constructor; [|exact Ht']. exists (nth j prev 0). split; [|reflexivity].
      apply nth_In. lia.
Qed.

(** The entries written for a factor [p] of exponent 2: the earlier
    entries, and earlier entries times p or p^2, reduced to 64 bits. *)
Lemma loop_e_square p prev :
  Forall (fun e => In e prev \/
                   exists d k, In d prev /\ 1 <= k <= 2 /\ e = u64 (d * p ^ k))
         (loop_e 2 (length prev) p 1 prev).
Proof.
  assert (Hprev : forall l, incl l prev ->
            Forall (fun e => In e prev \/
                     exists d k, In d prev /\ 1 <= k <= 2 /\ e = u64 (d * p ^ k)) l).
  { intros l Hl. apply Forall_forall. intros e He. left. apply Hl. exact He. }
  assert (Hnew : forall k pe l, 1 <= k <= 2 -> u64 pe = u64 (p ^ k) ->
            Forall (fun e => exists d, In d prev /\ e = u64 (d * pe)) l ->
            Forall (fun e => In e prev \/
                     exists d k, In d prev /\ 1 <= k <= 2 /\ e = u64 (d * p ^ k)) l).
  { intros k pe l Hk Hpe Hl. eapply Forall_impl; [|exact Hl].
    intros e (d & Hd & ->). right. exists d, k. split; [exact Hd|]. split; [exact Hk|].
    unfold u64 in *. rewrite <- (Z.mul_mod_idemp_r d pe) by (rewrite two64_eq; lia).
    rewrite Hpe. apply Z.mul_mod_idemp_r. rewrite two64_eq. lia. }
  cbn [loop_e]. destruct (count_of prev <? MAX_DIVS); [|apply Hprev, incl_refl].
  cbv zeta.
  destruct (loop_j_entries (u64 (1 * p)) prev (length prev) 0 [] ltac:(lia)) as (t1 & E1 & H1).
  rewrite app_nil_r in E1. rewrite E1.
  assert (G1 : Forall (fun e => In e prev \/
                 exists d k, In d prev /\ 1 <= k <= 2 /\ e = u64 (d * p ^ k)) (prev ++ t1)).
  { apply Forall_app. split; [apply Hprev, incl_refl|].
    apply (Hnew 1 (u64 (1 * p))); [lia| |exact H1].
    unfold u64. rewrite Z.mod_mod by (rewrite two64_eq; lia). f_equal. ring. }
  destruct (count_of (prev ++ t1) <? MAX_DIVS); [|exact G1].
  destruct (loop_j_entries (u64 (u64 (1 * p) * p)) prev (length prev) 0 t1 ltac:(lia))
    as (t2 & E2 & H2).
  rewrite E2. apply Forall_app. split; [exact G1|].
  apply (Hnew 2 (u64 (u64 (1 * p) * p))); [lia| |exact H2].
  unfold u64. rewrite Z.mod_mod by (rewrite two64_eq; lia).
  rewrite Z.mul_mod_idemp_l by (rewrite two64_eq; lia). f_equal. ring.
Qed.

(** For a composite p, a prime factor q of p that does not divide x is a
    divisor of p^2 x^2 that [get_divisors_p2x2] never writes, even when
    p^2 x^2 is below 2^64 and so nothing wraps around. *)
Theorem get_divisors_misses_factor_of_composite_p fuel p x q :
  0 < x -> Z.prime q -> 1 < q < p -> (q | p) -> ~ (q | x) ->
  p * p * (x * x) < two64 -> x + 64 <= Z.of_nat fuel ->
  exists divs,
    get_divisors_p2x2 fuel p x = Ret divs /\
    is_divisor (p * p * (x * x)) q /\ ~ In q divs.
Proof.
  intros Hx Hq Hqp Hdv Hnx HN Hfuel.
  assert (Hxx : 0 < x * x) by nia.
  assert (Hpp : 1 <= p * p) by nia.
  assert (Hle : x * x <= p * p * (x * x)) by nia.
  assert (Hx64 : x < two64) by nia.
  destruct (factorize_runs x Hx Hx64 fuel Hfuel) as (fs & Hrun & Hall & Hsorted & Hprod).
  unfold get_divisors_p2x2. rewrite Hrun. cbn [bind]. eexists. split; [reflexivity|].
  split.
  { split; [lia|]. destruct Hdv as [c ->]. exists (c * (c * q) * (x * x)). ring. }
  assert (Hnp : ~ Z.prime p).
  { intros [_ Hp]. apply (Hp q); assumption. }
  assert (Habs : existsb (fun f => prime f =? p) fs = false).
  { destruct (existsb _ fs) eqn:E; [exfalso|reflexivity].
    apply existsb_exists in E. destruct E as (f & Hf & E). apply Z.eqb_eq in E.
    rewrite Forall_forall in Hall. destruct (Hall f Hf) as [Hpf _].
    rewrite E in Hpf. contradiction. }
  rewrite all_factors_of_spec, Habs, loop_i_app.
  assert (Hexp : Forall (fun f => 0 <= exp f) fs).
  { eapply Forall_impl; [|exact Hall]. intros f [_ He]. lia. }
  assert (Hpos : Forall (fun f => 0 < prime f /\ 0 <= exp f) (map (merged p) fs)).
  { apply Forall_map. eapply Forall_impl; [|exact Hall].
    intros f [Hpr He]. pose proof (prime_gt_1 _ Hpr).
    rewrite merged_prime. split; [lia|].
    unfold merged. destruct (prime f =? p); cbn [exp]; lia. }
  pose proof (loop_i_wraps (map (merged p) fs) 1 [1] Hpos wraps_of_one) as L.
  rewrite merged_product_absent, Hprod, Z.mul_1_l in L;
    [|apply existsb_prime_false; exact Habs|exact Hexp].
  set (prev := loop_i (map (merged p) fs) [1]) in *.
  assert (Hprev : forall d, In d prev -> 0 < d /\ (d | x * x)).
  { intros d Hd. rewrite Forall_forall in L. destruct (L d Hd) as (t & Ht & Htx & ->).
    assert (t <= x * x) by (apply Z.divide_pos_le; [exact Hxx|exact Htx]).
    rewrite u64_small by lia. split; assumption. }
  assert (Hqx : forall d, In d prev -> d <> q).
  { intros d Hd ->. destruct (Hprev q Hd) as [_ Hqxx].
    apply Z.divide_prime_mul in Hqxx; [tauto|exact Hq]. }
  cbn [loop_i]. intros Hin.
  assert (Hshape : In q prev \/
            exists d k, In d prev /\ 1 <= k <= 2 /\ q = u64 (d * p ^ k)).
  { destruct (count_of prev <? MAX_DIVS); [|left; exact Hin].
    pose proof (loop_e_square p prev) as S. rewrite Forall_forall in S.
    apply S. exact Hin. }
  destruct Hshape as [Hin'|(d & k & Hd & Hk & E)]; [exact (Hqx q Hin' eq_refl)|].
  destruct (Hprev d Hd) as [Hd0 Hdx].
  assert (Hdle : d <= x * x) by (apply Z.divide_pos_le; [exact Hxx|exact Hdx]).
  assert (Hpk : p <= p ^ k <= p * p).
  { assert (k = 1 \/ k = 2) as [-> | ->] by lia.
    - rewrite Z.pow_1_r. nia.
    - replace (p ^ 2) with (p * p) by ring. nia. }
  rewrite u64_small in E by nia. nia.
Qed.

Lemma get_divisors_misses_factor_of_composite_p_witness :
  exists divs,
    get_divisors_p2x2 66 21 2 = Ret divs /\
    is_divisor (21 * 21 * (2 * 2)) 3 /\ ~ In 3 divs.
Proof.
  apply (get_divisors_misses_factor_of_composite_p 66 21 2 3).
  - reflexivity.
  - exact Z.prime_3.
  - split; reflexivity.
  - exists 7. reflexivity.
  - intros [c Hc]. lia.
  - reflexivity.
  - vm_compute. discriminate.
Defined.


End CompositeP.

(** ** The cap of 1000000 cells in the dynamically allocated variant *)

Section LargeCap.
Import Mem Core CoreLarge.

(** A string longer than the room left in the buffer overruns it. *)
Lemma fill_overrun s : forall i d1,
  (i <= length d1)%nat -> (length d1 < i + length s)%nat -> fill s i d1 = Trap.
Proof.
  induction s as [|ch s IH]; intros i d1 Hi Hlen; cbn [length] in Hlen; [lia|].
  cbn [fill]. unfold store.
  destruct (Nat.ltb_spec i (length d1)) as [Hlt|_]; [|reflexivity].
  cbn [bind]. apply IH; rewrite upd_length; lia.
Qed.

(** With both allocations granted, a string of 1000000 characters or more
    and max_iter >= 1, [reverse_and_add_count_large] writes outside its
    buffers of 1000000 cells: a longer string overruns d1 in the digit
    conversion, and one of exactly 1000000 characters overruns the other
    buffer in the first addition. *)
Theorem reverse_and_add_count_large_overruns_cap s max_iter :
  1000000 <= Z.of_nat (length s) -> 1 <= max_iter ->
  Z.of_nat (length s) + max_iter + 10 <= INT_MAX ->
  reverse_and_add_count_large true s max_iter = Trap.
Proof.
  intros Hlen Hiter Hint.
  unfold reverse_and_add_count_large, int_add, INT_MIN, INT_MAX in *.
  destruct (Z.leb_spec (-2147483648) (Z.of_nat (length s) + max_iter)) as [_|?]; [|lia].
  destruct (Z.leb_spec (Z.of_nat (length s) + max_iter) 2147483647) as [_|?]; [|lia].
  cbn [andb bind].
  destruct (Z.leb_spec (-2147483648) (Z.of_nat (length s) + max_iter + 10)) as [_|?]; [|lia].
  destruct (Z.leb_spec (Z.of_nat (length s) + max_iter + 10) 2147483647) as [_|?]; [|lia].
  cbn [andb bind].
  destruct (Z.ltb_spec 1000000 (Z.of_nat (length s) + max_iter + 10)) as [_|?]; [|lia].
  change (0 <=? 1000000) with true. cbn [andb negb].
  generalize (repeat_length 0 (Z.to_nat 1000000)).
  generalize (repeat 0 (Z.to_nat 1000000)). intros buf Hbuf.
  destruct (Z_le_gt_dec (Z.of_nat (length s)) 1000000) as [Hle|Hgt].
  - rewrite fill_spec by lia. cbn [bind].
    destruct (Z.to_nat max_iter) as [|rem] eqn:E; [lia|]. cbn [iterate].
    destruct (Z.leb_spec 1 max_iter) as [_|?]; [|lia].
    unfold add_reverse. rewrite Nat2Z.id.
    destruct (length s) as [|i] eqn:El; [lia|]. cbn [add_loop]. cbv zeta.
    unfold store.
    match goal with |- context [(S i <? length ?l)%nat] =>
      destruct (Nat.ltb_spec (S i) (length l)) as [Hlt|_] end; [|reflexivity].
    exfalso. lia.
  - rewrite fill_overrun by lia. reflexivity.
Qed.

Lemma reverse_and_add_count_large_overruns_cap_witness :
  reverse_and_add_count_large true (repeat 57 (Z.to_nat 1000000)) 1 = Trap.
Proof.
  apply reverse_and_add_count_large_overruns_cap.
  - rewrite repeat_length. lia.
  - lia.
  - rewrite repeat_length. unfold INT_MAX. lia.
Defined.

End LargeCap.
